(** * Genealogy core: identifier generator, person validator, chart adapter

    A shallow embedding of the algorithmic core of the genealogy viewer:
    - [utils/id-generator.js]   (slugify, generatePersonId, updateIdReferences)
    - the person validator      (class PersonValidator)
    - [adapters/toFamilyChartData.js] (toFamilyChartData, validateRelationships)
    - [components/chart.js]     (formatDate) with the i18n table it reads.

    JavaScript strings are sequences of UTF-16 code units; they are modelled
    as [list N].

    The functions are given twice.  In the first part person documents are
    records whose optional fields are [nullable]: absent ([undefined]),
    [null] or a value of the type the schema gives the field (a branch that
    only guards against a value of another type, such as
    [typeof id !== 'string'], has no counterpart there).  In the second part
    ([Heap]) documents are untyped objects in a heap of mutable cells and a
    function is a heap transformer, which is what the statements about
    mutation need.  What the source takes from its runtime is a parameter:
    [String.prototype.toLowerCase], the clock [Date.now()], the date
    formatting of [Date], and the string conversion of numbers and
    objects. *)

From stdpp Require Import gmap strings list pretty sets.
From Stdlib Require Import QArith.QArith_base.

Local Open Scope Z_scope.
Local Open Scope nat_scope.

(** ** JavaScript strings and primitive values *)

Abbreviation jsstring := (list N).

(** A string literal of the source (ASCII only) as code units. *)
Definition js (s : string) : jsstring :=
  Ascii.N_of_ascii <$> String.list_ascii_of_string s.

(** A field of a document: absent ([undefined]), [null], or a value. *)
Inductive nullable (A : Type) :=
  | Undefined
  | Null
  | Val (a : A).
Arguments Undefined {A}.
Arguments Null {A}.
Arguments Val {A} a.

Global Instance nullable_eq_dec {A} `{EqDecision A} : EqDecision (nullable A).
Proof. solve_decision. Defined.

(** JavaScript numbers that can occur in a stored document: the code only
    compares them with integer constants and tests integrality, so a finite
    number is kept as the rational it denotes. *)
Inductive number :=
  | Num (q : Q)
  | NaN
  | Infinity (negative : bool).

(** [a < b] on numbers; every comparison with [NaN] is false. *)
Definition num_lt (a b : number) : bool :=
  match a, b with
  | Num p, Num q => negb (Qle_bool q p)
  | Num _, Infinity neg => negb neg
  | Infinity neg, Num _ => neg
  | Infinity n1, Infinity n2 => n1 && negb n2
  | _, _ => false
  end.

Definition num_of_Z (z : Z) : number := Num (inject_Z z).

(** [Number.isInteger] *)
Definition isInteger (a : number) : bool :=
  match a with
  | Num q => (Z.rem (Qnum q) (Zpos (Qden q)) =? 0)%Z
  | _ => false
  end.

(** [!!v] for a string field: [undefined], [null] and [""] are falsy. *)
Definition truthy (v : nullable jsstring) : bool :=
  match v with
  | Val (_ :: _) => true
  | _ => false
  end.

(** [!!v] for a boolean field. *)
Definition truthy_bool (v : nullable bool) : bool :=
  match v with
  | Val true => true
  | _ => false
  end.

(** [[a, b, ...].filter(Boolean)] on string fields: the truthy strings. *)
Definition filter_Boolean (l : list (nullable jsstring)) : list jsstring :=
  omap (λ v, match v with Val (c :: s) => Some (c :: s) | _ => None end) l.

(** [a || b] on string fields. *)
Definition or_else (a b : nullable jsstring) : nullable jsstring :=
  if truthy a then a else b.

(** [a || 'literal'] on a string field. *)
Definition or_string (a : nullable jsstring) (b : jsstring) : jsstring :=
  match a with
  | Val (c :: s) => c :: s
  | _ => b
  end.

(** [Array.prototype.pop]: removes and returns the last element. *)
Definition array_pop {A} (l : list A) : option (A * list A) :=
  match reverse l with
  | [] => None
  | x :: r => Some (x, reverse r)
  end.

(** [if (v) arr.push(v)] for a string field [v]. *)
Definition push_if_truthy (arr : list jsstring) (v : nullable jsstring)
  : list jsstring :=
  match v with
  | Val (c :: s) => arr ++ [c :: s]
  | _ => arr
  end.

(** [arr.includes(v)] for an array of string literals. *)
Definition includes (arr : list jsstring) (v : nullable jsstring) : bool :=
  match v with
  | Val s => bool_decide (s ∈ arr)
  | _ => false
  end.

(** The elements of [new Set(l)] in iteration order: first occurrences. *)
Fixpoint set_elements_from (seen l : list jsstring) : list jsstring :=
  match l with
  | [] => []
  | x :: l' =>
      if decide (x ∈ seen) then set_elements_from seen l'
      else x :: set_elements_from (x :: seen) l'
  end.

Definition set_elements (l : list jsstring) : list jsstring :=
  set_elements_from [] l.

(** *** Character classes and the regular expressions of the source *)

Definition is_digit (c : N) : bool := ((48 <=? c) && (c <=? 57))%N.
Definition is_lower (c : N) : bool := ((97 <=? c) && (c <=? 122))%N.
Definition is_char (k : N) (c : N) : bool := (c =? k)%N.

(** [\s], which is also what [String.prototype.trim] strips: white space
    and line terminators. *)
Definition is_space (c : N) : bool :=
  bool_decide (c ∈ [9; 10; 11; 12; 13; 32; 160; 5760; 8232; 8233; 8239;
                    8287; 12288; 65279]%N)
  || ((8192 <=? c) && (c <=? 8202))%N.

Fixpoint drop_spaces (s : jsstring) : jsstring :=
  match s with
  | c :: s' => if is_space c then drop_spaces s' else s
  | [] => []
  end.

(** [s.trim()] *)
Definition trim (s : jsstring) : jsstring :=
  reverse (drop_spaces (reverse (drop_spaces s))).

(** [/^c1 c2 ... cn$/.test(s)] for a pattern of [n] one-character classes. *)
Fixpoint matches (pattern : list (N → bool)) (s : jsstring) : bool :=
  match pattern, s with
  | [], [] => true
  | k :: pattern', c :: s' => k c && matches pattern' s'
  | _, _ => false
  end.

(** [s.replace(/[cls]+/g, by)] for a one-character replacement: every
    maximal run of characters of the class becomes one [by] ([in_run]: the
    previous character was in the class). *)
Fixpoint replace_runs (cls : N → bool) (by_char : N) (in_run : bool) (s : jsstring)
  : jsstring :=
  match s with
  | [] => []
  | c :: s' =>
      if cls c
      then (if in_run then [] else [by_char]) ++ replace_runs cls by_char true s'
      else c :: replace_runs cls by_char false s'
  end.

(** [String(v)], as a template literal prints a string field. *)
Definition to_string (v : nullable jsstring) : jsstring :=
  match v with
  | Undefined => js "undefined"
  | Null => js "null"
  | Val s => s
  end.

(** [v ?? null] *)
Definition or_null {A} (v : nullable A) : nullable A :=
  match v with
  | Val a => Val a
  | _ => Null
  end.

(** [v || null] on a string field. *)
Definition truthy_or_null (v : nullable jsstring) : nullable jsstring :=
  if truthy v then v else Null.

(** [v || []] on an array field (an array is truthy even when empty). *)
Definition or_empty {A} (v : nullable (list A)) : list A :=
  match v with
  | Val l => l
  | _ => []
  end.

(** [/^[a-z0-9_]+$/.test(s)] *)
Definition is_id_char (c : N) : bool := is_lower c || is_digit c || is_char 95 c.

Definition id_format (s : jsstring) : bool :=
  match s with
  | [] => false
  | _ => forallb is_id_char s
  end.

(** ** The stored person document *)

Module Name.
Record t := mk {
  type : nullable jsstring;
  first_name : nullable jsstring;
  middle_name : nullable jsstring;
  last_name : nullable jsstring;
  display_name : nullable jsstring;
  is_current : nullable bool
}.
End Name.

Module Event.
Record t := mk {
  type : nullable jsstring;
  date : nullable jsstring;
  date_precision : nullable jsstring;
  place : nullable jsstring;
  union_id : nullable jsstring;
  place_latitude : nullable number;
  place_longitude : nullable number;
  certainty : nullable jsstring
}.
End Event.

Module Union.
Record t := mk {
  union_id : nullable jsstring;
  spouse_id : nullable jsstring;
  union_type : nullable jsstring;
  union_order : nullable number;
  status : nullable jsstring;
  end_reason : nullable jsstring
}.

(** [{ ...union, spouse_id: v }] *)
Definition with_spouse_id (v : nullable jsstring) (u : t) : t :=
  mk (union_id u) v (union_type u) (union_order u) (status u) (end_reason u).
End Union.

(** The [birth] / [death] sub-records of the flat schema. *)
Module Vital.
Record t := mk {
  date : nullable jsstring;
  place : nullable jsstring
}.
End Vital.

Module Person.
Record t := mk {
  id : jsstring;
  names : nullable (list Name.t);
  gender : nullable jsstring;
  vital_status : nullable jsstring;
  events : nullable (list Event.t);
  father_id : nullable jsstring;
  mother_id : nullable jsstring;
  unions : nullable (list Union.t);
  sibling_order : nullable number;
  biography : nullable jsstring;
  (* fields of the flat schema that came before the names/events arrays *)
  display_name : nullable jsstring;
  first_name : nullable jsstring;
  middle_name : nullable jsstring;
  last_name : nullable jsstring;
  other_first_names : nullable (list jsstring);
  nicknames : nullable (list jsstring);
  birth : nullable Vital.t;
  death : nullable Vital.t
}.

(** [[person.father_id, person.mother_id].filter(Boolean)] *)
Definition parentIds (p : t) : list jsstring :=
  filter_Boolean [father_id p; mother_id p].

(** [{ ...p, father_id: v }] and its siblings. *)
Definition with_father_id (v : nullable jsstring) (p : t) : t :=
  mk (id p) (names p) (gender p) (vital_status p) (events p) v (mother_id p)
     (unions p) (sibling_order p) (biography p) (display_name p)
     (first_name p) (middle_name p) (last_name p) (other_first_names p)
     (nicknames p) (birth p) (death p).

Definition with_mother_id (v : nullable jsstring) (p : t) : t :=
  mk (id p) (names p) (gender p) (vital_status p) (events p) (father_id p) v
     (unions p) (sibling_order p) (biography p) (display_name p)
     (first_name p) (middle_name p) (last_name p) (other_first_names p)
     (nicknames p) (birth p) (death p).

Definition with_unions (v : nullable (list Union.t)) (p : t) : t :=
  mk (id p) (names p) (gender p) (vital_status p) (events p) (father_id p)
     (mother_id p) v (sibling_order p) (biography p) (display_name p)
     (first_name p) (middle_name p) (last_name p) (other_first_names p)
     (nicknames p) (birth p) (death p).
End Person.

(** A roster record that only carries an id and its two parent references. *)
Definition bare_person (i : jsstring) (f m : nullable jsstring) : Person.t :=
  Person.mk i Undefined Undefined Undefined Undefined f m Undefined Undefined
            Undefined Undefined Undefined Undefined Undefined Undefined
            Undefined Undefined Undefined.

(** ** Person validator *)

Record ValidationError := mkError {
  field : jsstring;
  message : jsstring
}.

Global Instance ValidationError_eq_dec : EqDecision ValidationError.
Proof. solve_decision. Defined.

Module PersonValidator.

(** [allPeople.find(p => p.id === currentId)] *)
Definition find_person (allPeople : list Person.t) (currentId : jsstring)
  : option Person.t :=
  find (λ p, bool_decide (Person.id p = currentId)) allPeople.

(** [this.existingIds = new Set(allPeople.map(p => p.id))] *)
Definition existingIds (allPeople : list Person.t) : gset jsstring :=
  list_to_set (Person.id <$> allPeople).

Definition personExists (allPeople : list Person.t) (personId : jsstring) : bool :=
  bool_decide (personId ∈ existingIds allPeople).

Definition circular_error : ValidationError :=
  mkError (js "relationships") (js "Circular parent relationship detected").

(** *** checkCircularParents

    The loop state is the [visited] set and the [toCheck] array (its last
    element is the one [pop] takes, [push] appends). *)
Record walk := mkWalk {
  visited : gset jsstring;
  toCheck : list jsstring
}.

Definition walk_init (personId : jsstring) (fatherId motherId : nullable jsstring)
  : walk :=
  mkWalk {[ personId ]} (filter_Boolean [fatherId; motherId]).

(** One evaluation of the [while] guard and body: either the function
    returns, or the loop goes round again with a new state. *)
Inductive walk_step_result :=
  | Return (r : option ValidationError)
  | Continue (w : walk).

Definition walk_step (allPeople : list Person.t) (w : walk) : walk_step_result :=
  match array_pop (toCheck w) with
  | None => Return None
  | Some (currentId, rest) =>
      if decide (currentId ∈ visited w) then Return (Some circular_error)
      else
        let visited' := visited w ∪ {[ currentId ]} in
        match find_person allPeople currentId with
        | Some person =>
            let toCheck1 := push_if_truthy rest (Person.father_id person) in
            let toCheck2 := push_if_truthy toCheck1 (Person.mother_id person) in
            Continue (mkWalk visited' toCheck2)
        | None => Continue (mkWalk visited' rest)
        end
  end.

(** The loop, cut off after [fuel] rounds ([None]: still running). *)
Fixpoint walk_loop (fuel : nat) (allPeople : list Person.t) (w : walk)
  : option (option ValidationError) :=
  match fuel with
  | O => None
  | S fuel' =>
      match walk_step allPeople w with
      | Return r => Some r
      | Continue w' => walk_loop fuel' allPeople w'
      end
  end.

(** The ids the loop marks as visited, in order, during [fuel] rounds. *)
Fixpoint walk_trace (fuel : nat) (allPeople : list Person.t) (w : walk)
  : list jsstring :=
  match fuel with
  | O => []
  | S fuel' =>
      match walk_step allPeople w with
      | Return _ => []
      | Continue w' =>
          match array_pop (toCheck w) with
          | Some (currentId, _) => currentId :: walk_trace fuel' allPeople w'
          | None => []
          end
      end
  end.

(** Number of rounds after which every walk over [allPeople] has returned
    (proved below as [WalkFacts.checkCircularParents_returns]). *)
Definition walk_bound (allPeople : list Person.t) : nat :=
  2 * length allPeople + 3.

Definition checkCircularParents (allPeople : list Person.t)
    (personId : jsstring) (fatherId motherId : nullable jsstring)
  : option ValidationError :=
  match walk_loop (walk_bound allPeople) allPeople
                  (walk_init personId fatherId motherId) with
  | Some r => r
  | None => None
  end.

(** *** validateId *)
Definition validateId (allPeople : list Person.t) (id : jsstring)
    (currentId : nullable jsstring) : list ValidationError :=
  match id with
  | [] => [mkError (js "id") (js "ID is required")]
  | _ =>
      (if bool_decide (trim id = [])
       then [mkError (js "id") (js "ID cannot be empty")] else [])
      ++ (if negb (id_format id)
          then [mkError (js "id")
                  (js "ID must be lowercase letters, numbers, and underscores only")]
          else [])
      ++ (if bool_decide (Val id ≠ currentId) && personExists allPeople id
          then [mkError (js "id") (js "ID already exists - must be unique")]
          else [])
  end.

(** *** validateNames *)
Definition name_validTypes : list jsstring :=
  [js "english"; js "vietnamese"; js "french"; js "legal"; js "birth";
   js "married"; js "alias"].

(** [n.is_current === true] *)
Definition is_current_true (n : Name.t) : bool :=
  match Name.is_current n with
  | Val true => true
  | _ => false
  end.

Definition current_error : ValidationError :=
  mkError (js "names") (js "One name must be marked as current").

(** The body of [names.forEach((name, idx) => ...)]. *)
Definition validateName (idx : nat) (name : Name.t) : list ValidationError :=
  (if negb (truthy (Name.first_name name)) || negb (truthy (Name.last_name name))
   then [mkError (js "names[" ++ js (pretty idx) ++ js "]")
           (js "Name must have at least first_name and last_name")]
   else [])
  ++ (if truthy (Name.type name) && negb (includes name_validTypes (Name.type name))
      then [mkError (js "names[" ++ js (pretty idx) ++ js "].type")
              (js "Invalid name type. Must be one of: english, vietnamese, french, legal, birth, married, alias")]
      else []).

Definition validateNames (names : nullable (list Name.t)) : list ValidationError :=
  match names with
  | Val (n :: ns) =>
      let hasCurrentName := existsb is_current_true (n :: ns) in
      (if negb hasCurrentName
       then [current_error]
       else [])
      ++ concat (imap validateName (n :: ns))
  | _ => [mkError (js "names") (js "At least one name is required")]
  end.

(** *** validateGender, validateVitalStatus, validateSiblingOrder *)
Definition validateGender (gender : nullable jsstring) : option ValidationError :=
  if negb (includes [js "M"; js "F"; js "U"] gender)
  then Some (mkError (js "gender")
               (js "Gender must be M (Male), F (Female), or U (Unknown)"))
  else None.

Definition validateVitalStatus (vitalStatus : nullable jsstring)
  : option ValidationError :=
  if negb (includes [js "living"; js "deceased"; js "unknown"] vitalStatus)
  then Some (mkError (js "vital_status")
               (js "Vital status must be living, deceased, or unknown"))
  else None.

Definition validateSiblingOrder (siblingOrder : number) : option ValidationError :=
  if num_lt siblingOrder (num_of_Z 1) || negb (isInteger siblingOrder)
  then Some (mkError (js "sibling_order")
               (js "Sibling order must be a positive integer (1, 2, 3...)"))
  else None.

(** *** validateDateFormat

    [formats[precision]] is a property read on an object literal: besides
    the six keys of the literal it also finds the properties inherited
    from [Object.prototype], which are not regular expressions, so that
    the call [regex.test(date)] throws a [TypeError] ([None] below). *)
Definition object_prototype_keys : list jsstring :=
  [js "constructor"; js "toString"; js "toLocaleString"; js "valueOf";
   js "hasOwnProperty"; js "isPrototypeOf"; js "propertyIsEnumerable";
   js "__proto__"; js "__defineGetter__"; js "__defineSetter__";
   js "__lookupGetter__"; js "__lookupSetter__"].

Definition d4 : list (N → bool) := [is_digit; is_digit; is_digit; is_digit].
Definition d2 : list (N → bool) := [is_digit; is_digit].

(** The [formats] table, for the keys that are looked up. *)
Definition formats (precision : jsstring) : option (list (N → bool)) :=
  if decide (precision = js "day")
  then Some (d4 ++ [is_char 45] ++ d2 ++ [is_char 45] ++ d2)
  else if decide (precision = js "month") then Some (d4 ++ [is_char 45] ++ d2)
  else if decide (precision = js "year") then Some d4
  else if decide (precision = js "time")
  then Some (d4 ++ [is_char 45] ++ d2 ++ [is_char 45] ++ d2 ++ [is_char 84]
             ++ d2 ++ [is_char 58] ++ d2)
  else None.

Definition validateDateFormat (date precision : jsstring) (eventIdx : nat)
  : option (option ValidationError) :=
  if decide (precision = js "decade" ∨ precision = js "century") then Some None
  else if decide (precision ∈ object_prototype_keys) then None
  else
    match formats precision with
    | Some regex =>
        if negb (matches regex date)
        then Some (Some (mkError
               (js "events[" ++ js (pretty eventIdx) ++ js "].date")
               (js "Date format must match precision " ++ [34%N] ++ precision
                ++ [34%N])))
        else Some None
    | None => Some None
    end.

(** *** validateEvents *)
Definition event_validTypes : list jsstring :=
  [js "birth"; js "death"; js "marriage"; js "divorce"; js "baptism";
   js "burial"; js "engagement"; js "graduation"; js "adoption";
   js "immigration"; js "emigration"; js "occupation"; js "residence";
   js "military"].

Definition validCertainties : list jsstring :=
  [js "certain"; js "probable"; js "possible"; js "uncertain"; js "living"].

Definition event_path (idx : nat) (suffix : string) : jsstring :=
  js "events[" ++ js (pretty idx) ++ js "]" ++ js suffix.

(** A coordinate check: [v !== null && v !== undefined], then the range. *)
Definition validateCoordinate (v : nullable number) (bound : Z)
    (err : ValidationError) : list ValidationError :=
  match v with
  | Val x =>
      if num_lt x (num_of_Z (- bound)) || num_lt (num_of_Z bound) x
      then [err] else []
  | _ => []
  end.

(** The body of [events.forEach((event, idx) => ...)]. *)
Definition validateEvent (unionIds : list (nullable jsstring)) (idx : nat)
    (event : Event.t) : option (list ValidationError) :=
  dateErrors ←
    (match Event.date event, Event.date_precision event with
     | Val (c :: date), Val (k :: precision) =>
         option_list <$> validateDateFormat (c :: date) (k :: precision) idx
     | _, _ => Some []
     end);
  Some (
    (if negb (truthy (Event.type event))
        || negb (includes event_validTypes (Event.type event))
     then [mkError (event_path idx ".type") (js "Invalid event type")] else [])
    ++ (if bool_decide (Event.type event = Val (js "marriage"))
           && negb (truthy (Event.union_id event))
        then [mkError (event_path idx ".union_id")
                (js "Marriage event must have union_id")] else [])
    ++ (if truthy (Event.union_id event)
           && negb (bool_decide (Event.union_id event ∈ unionIds))
        then [mkError (event_path idx ".union_id")
                (js "Marriage event union_id does not match any union")] else [])
    ++ dateErrors
    ++ validateCoordinate (Event.place_latitude event) 90
         (mkError (event_path idx ".place_latitude")
            (js "Latitude must be a number between -90 and 90"))
    ++ validateCoordinate (Event.place_longitude event) 180
         (mkError (event_path idx ".place_longitude")
            (js "Longitude must be a number between -180 and 180"))
    ++ (if truthy (Event.certainty event)
           && negb (includes validCertainties (Event.certainty event))
        then [mkError (event_path idx ".certainty")
                (js "Invalid certainty value")] else [])).

Fixpoint validateEvents_from (unionIds : list (nullable jsstring)) (idx : nat)
    (events : list Event.t) : option (list ValidationError) :=
  match events with
  | [] => Some []
  | event :: events' =>
      errors ← validateEvent unionIds idx event;
      more ← validateEvents_from unionIds (S idx) events';
      Some (errors ++ more)
  end.

(** [events] is an array here, so the [!Array.isArray(events)] exit is not
    taken; [unionIds] is the content of
    [new Set(unions?.map(u => u.union_id) || [])]. *)
Definition validateEvents (events : list Event.t)
    (unions : nullable (list Union.t)) : option (list ValidationError) :=
  let unionIds :=
    match unions with
    | Val us => Union.union_id <$> us
    | _ => []
    end in
  validateEvents_from unionIds 0 events.

(** *** validateRelationships *)
Definition union_path (idx : nat) (suffix : string) : jsstring :=
  js "unions[" ++ js (pretty idx) ++ js "]" ++ js suffix.

(** [v && !this.personExists(v)] *)
Definition dangling (allPeople : list Person.t) (v : nullable jsstring) : bool :=
  match v with
  | Val (c :: s) => negb (personExists allPeople (c :: s))
  | _ => false
  end.

(** The body of [person.unions.forEach((union, idx) => ...)]. *)
Definition validateUnion (allPeople : list Person.t) (idx : nat)
    (union : Union.t) : list ValidationError :=
  (if dangling allPeople (Union.spouse_id union)
   then [mkError (union_path idx ".spouse_id")
           (js "Spouse ID references non-existent person")] else [])
  ++ (if truthy (Union.union_type union)
         && negb (includes [js "marriage"; js "partnership"; js "common_law"]
                    (Union.union_type union))
      then [mkError (union_path idx ".union_type") (js "Invalid union type")]
      else [])
  ++ (if truthy (Union.status union)
         && negb (includes [js "current"; js "ended"] (Union.status union))
      then [mkError (union_path idx ".status")
              (js "Union status must be current or ended")]
      else []).

Definition validateRelationships (allPeople : list Person.t) (person : Person.t)
  : list ValidationError :=
  (if dangling allPeople (Person.father_id person)
   then [mkError (js "father_id") (js "Father ID references non-existent person")]
   else [])
  ++ (if dangling allPeople (Person.mother_id person)
      then [mkError (js "mother_id")
              (js "Mother ID references non-existent person")]
      else [])
  ++ option_list (checkCircularParents allPeople (Person.id person)
                    (Person.father_id person) (Person.mother_id person))
  ++ match Person.unions person with
     | Val unions => concat (imap (validateUnion allPeople) unions)
     | _ => []
     end.

(** *** validate

    [validate allPeople person isNew] is
    [new PersonValidator(allPeople).validate(person, isNew)];
    [None] is the [TypeError] of [validateDateFormat]. *)
Definition validate (allPeople : list Person.t) (person : Person.t)
    (isNew : bool) : option (list ValidationError) :=
  let idErrors :=
    validateId allPeople (Person.id person)
      (if isNew then Null else Val (Person.id person)) in
  let nameErrors := validateNames (Person.names person) in
  let genderError := validateGender (Person.gender person) in
  let vitalStatusError := validateVitalStatus (Person.vital_status person) in
  eventErrors ←
    (match Person.events person with
     | Val events => validateEvents events (Person.unions person)
     | _ => Some []
     end);
  let relationshipErrors := validateRelationships allPeople person in
  let siblingError :=
    match Person.sibling_order person with
    | Val siblingOrder => option_list (validateSiblingOrder siblingOrder)
    | _ => []
    end in
  Some (idErrors ++ nameErrors ++ option_list genderError
        ++ option_list vitalStatusError ++ eventErrors
        ++ relationshipErrors ++ siblingError).

End PersonValidator.

(** ** Identifier generator *)

Module IdGenerator.

(** The [diacritics] table of [removeDiacritics], grouped by the ASCII
    letter a key maps to; every key is a single code unit. *)
Definition diacritics : list (N * list N) :=
  [ (97,  [224; 225; 226; 227; 228; 229; 259; 261; 7845; 7847; 7849; 7851;
           7853; 7855; 7857; 7859; 7861; 7863]);
    (101, [232; 233; 234; 235; 279; 281; 283; 7871; 7873; 7875; 7877; 7879]);
    (105, [236; 237; 238; 239; 303]);
    (111, [242; 243; 244; 245; 246; 248; 337; 417; 7889; 7891; 7893; 7895;
           7897; 7899; 7901; 7903; 7905; 7907]);
    (117, [249; 250; 251; 252; 363; 369; 432; 7913; 7915; 7917; 7919; 7921]);
    (121, [253; 255]);
    (110, [241; 324; 328]);
    (99,  [231; 263; 269]);
    (115, [347; 351; 353]);
    (122, [378; 380; 382]);
    (100, [271; 273]);
    (108, [318; 322]);
    (114, [341; 345]);
    (116, [357]) ]%N.

(** [diacritics[key]] *)
Definition diacritics_get (key : jsstring) : option N :=
  match key with
  | [k] => fst <$> find (λ e, bool_decide (k ∈ e.2)) diacritics
  | _ => None
  end.

(** [/^_|_$/g] replaced by [''] *)
Definition strip_underscores (s : jsstring) : jsstring :=
  let s1 := match s with 95%N :: s' => s' | _ => s end in
  match reverse s1 with
  | 95%N :: r => reverse r
  | _ => s1
  end.

Section WithToLowerCase.

(** [String.prototype.toLowerCase], the Unicode default case conversion
    of the JavaScript runtime. *)
Variable toLowerCase : jsstring → jsstring.

(** The clock read by [Date.now()], in milliseconds. *)
Variable now : Z.

Definition removeDiacritics (str : jsstring) : jsstring :=
  (λ char, default char (diacritics_get (toLowerCase [char]))) <$> str.

Definition slugify (str : nullable jsstring) : jsstring :=
  match str with
  | Val (c :: s) =>
      strip_underscores
        (replace_runs (is_char 95) 95 false
           (replace_runs (λ c, negb (is_lower c || is_digit c)) 95 false
              (toLowerCase (removeDiacritics (c :: s)))))
  | _ => []
  end.

(** [person.names?.find(n => n.is_current) || person.names?.[0]] *)
Definition primaryName (person : Person.t) : option Name.t :=
  match Person.names person with
  | Val names =>
      match find (λ n, truthy_bool (Name.is_current n)) names with
      | Some n => Some n
      | None => head names
      end
  | _ => None
  end.

(** The [while (existingIds.has(finalId))] loop, cut off after [fuel]
    rounds ([None]: still running).  The counter is an exact integer:
    it stays far below 2^53. *)
Fixpoint counter_loop (fuel : nat) (existingIds : gset jsstring)
    (baseId finalId : jsstring) (counter : N) : option jsstring :=
  if decide (finalId ∈ existingIds) then
    match fuel with
    | O => None
    | S fuel' =>
        counter_loop fuel' existingIds baseId
          (baseId ++ js "_" ++ js (pretty counter)) (counter + 1)%N
    end
  else Some finalId.

(** [parts.join('_')] *)
Fixpoint join_underscore (parts : list jsstring) : jsstring :=
  match parts with
  | [] => []
  | [x] => x
  | x :: parts' => x ++ js "_" ++ join_underscore parts'
  end.

Definition generatePersonId (person : Person.t) (existingIds : gset jsstring)
  : option jsstring :=
  match primaryName person with
  | Some primaryName =>
      if negb (truthy (Name.last_name primaryName))
         || negb (truthy (Name.first_name primaryName))
      then Some (js "person_" ++ js (pretty now))
      else
        let lastName := slugify (Name.last_name primaryName) in
        let middleName := slugify (Name.middle_name primaryName) in
        let firstName := slugify (Name.first_name primaryName) in
        let parts :=
          filter (λ x, x ≠ []) [lastName; middleName; firstName] in
        let baseId := join_underscore parts in
        counter_loop (S (size existingIds)) existingIds baseId baseId 2
  | None => Some (js "person_" ++ js (pretty now))
  end.

End WithToLowerCase.

(** [toLowerCase] on the Basic Latin block; other code units are kept. *)
Definition ascii_toLowerCase (s : jsstring) : jsstring :=
  (λ c, if ((65 <=? c) && (c <=? 90))%N then (c + 32)%N else c) <$> s.

Definition updateUnion (oldId newId : jsstring) (union : Union.t) : Union.t :=
  Union.with_spouse_id
    (if decide (Union.spouse_id union = Val oldId) then Val newId
     else Union.spouse_id union)
    union.

(** The callback of [allPeople.map(person => ...)]. *)
Definition updatePerson (oldId newId : jsstring) (person : Person.t) : Person.t :=
  let updated := person in
  let updated :=
    if decide (Person.father_id updated = Val oldId)
    then Person.with_father_id (Val newId) updated else updated in
  let updated :=
    if decide (Person.mother_id updated = Val oldId)
    then Person.with_mother_id (Val newId) updated else updated in
  match Person.unions updated with
  | Val unions =>
      Person.with_unions (Val (updateUnion oldId newId <$> unions)) updated
  | _ => updated
  end.

Definition updateIdReferences (allPeople : list Person.t) (oldId newId : jsstring)
  : list Person.t :=
  updatePerson oldId newId <$> allPeople.

End IdGenerator.

(** ** Chart adapter *)

Module Node.
Record data_t := mkData {
  gender : jsstring;
  display_name : jsstring;
  first_name : jsstring;
  middle_name : jsstring;
  last_name : jsstring;
  other_first_names : list jsstring;
  nicknames : list jsstring;
  birth_date : nullable jsstring;
  birth_place : nullable jsstring;
  death_date : nullable jsstring;
  death_place : nullable jsstring;
  vital_status : nullable jsstring;
  unions : list Union.t;
  biography : jsstring;
  sibling_order : nullable number
}.

Record rels_t := mkRels {
  parents : list jsstring;
  spouses : list jsstring;
  children : list jsstring
}.

Record t := mk {
  id : jsstring;
  data : data_t;
  rels : rels_t
}.
End Node.

Module Adapter.

(** [names.find(n => n.is_current) || names[0]], for a non-empty array. *)
Definition currentName (n : Name.t) (ns : list Name.t) : Name.t :=
  default n (find (λ n, truthy_bool (Name.is_current n)) (n :: ns)).

Definition getDisplayName (person : Person.t) : jsstring :=
  match Person.names person with
  | Val (n :: ns) =>
      let currentName := currentName n ns in
      or_string (Name.display_name currentName)
        (replace_runs is_space 32 false
           (trim (to_string (Name.last_name currentName) ++ js " "
                  ++ to_string (Name.middle_name currentName) ++ js " "
                  ++ to_string (Name.first_name currentName))))
  | _ => or_string (Person.display_name person) []
  end.

(** The [{ date, place }] object of [getEventData]. *)
Definition getEventData (events : list Event.t) (eventType : jsstring)
  : nullable jsstring * nullable jsstring :=
  match find (λ e, bool_decide (Event.type e = Val eventType)) events with
  | Some event =>
      (truthy_or_null (Event.date event), truthy_or_null (Event.place event))
  | None => (Null, Null)
  end.

(** [person.events ? getEventData(person.events, type) : { date: v?.date ?? null, ... }] *)
Definition vitalData (person : Person.t) (eventType : jsstring)
    (legacy : nullable Vital.t) : nullable jsstring * nullable jsstring :=
  match Person.events person with
  | Val events => getEventData events eventType
  | _ =>
      match legacy with
      | Val v => (or_null (Vital.date v), or_null (Vital.place v))
      | _ => (Null, Null)
      end
  end.

(** [person.names?.[0]?.f || fallback || ''] *)
Definition first_name_field (f : Name.t → nullable jsstring)
    (person : Person.t) (fallback : nullable jsstring) : jsstring :=
  let from_names :=
    match Person.names person with
    | Val (n :: _) => f n
    | _ => Undefined
    end in
  or_string (or_else from_names fallback) [].

(** One step of the inner [parentIds.forEach]: create the list on first
    use, then push the child's id. *)
Definition add_child (childId : jsstring)
    (childrenByParent : gmap jsstring (list jsstring)) (parentId : jsstring)
  : gmap jsstring (list jsstring) :=
  let m :=
    match childrenByParent !! parentId with
    | None => <[parentId := []]> childrenByParent
    | Some _ => childrenByParent
    end in
  alter (λ l, l ++ [childId]) parentId m.

(** The first pass: [people.forEach(person => ...)]. *)
Definition buildChildrenByParent (people : list Person.t)
  : gmap jsstring (list jsstring) :=
  foldl (λ m person,
           foldl (add_child (Person.id person)) m (Person.parentIds person))
        ∅ people.

(** The callback of [people.map(person => ...)]. *)
Definition toNode (childrenByParent : gmap jsstring (list jsstring))
    (person : Person.t) : Node.t :=
  let parents := filter_Boolean [Person.father_id person; Person.mother_id person] in
  let spouses :=
    match Person.unions person with
    | Val unions => set_elements (filter_Boolean (Union.spouse_id <$> unions))
    | _ => []
    end in
  let children := default [] (childrenByParent !! Person.id person) in
  let birthData := vitalData person (js "birth") (Person.birth person) in
  let deathData := vitalData person (js "death") (Person.death person) in
  let data :=
    Node.mkData
      (or_string (Person.gender person) (js "M"))
      (getDisplayName person)
      (first_name_field Name.first_name person (Person.first_name person))
      (first_name_field Name.middle_name person (Person.middle_name person))
      (first_name_field Name.last_name person (Person.last_name person))
      (or_empty (Person.other_first_names person))
      (or_empty (Person.nicknames person))
      birthData.1 birthData.2 deathData.1 deathData.2
      (truthy_or_null (Person.vital_status person))
      (or_empty (Person.unions person))
      (match Person.biography person with Val b => b | _ => [] end)
      (or_null (Person.sibling_order person)) in
  Node.mk (Person.id person) data (Node.mkRels parents spouses children).

Definition toFamilyChartData (people : list Person.t) : list Node.t :=
  match people with
  | [] => []
  | _ => toNode (buildChildrenByParent people) <$> people
  end.

(** *** validateRelationships (over the derived graph) *)
Definition missing (idSet : gset jsstring) (personId : jsstring) (kind : string)
    (refs : list jsstring) : list jsstring :=
  (λ refId, js "Person " ++ personId ++ js " references missing " ++ js kind
            ++ js ": " ++ refId)
  <$> filter (λ refId, refId ∉ idSet) refs.

(** The gender check on one node. *)
Definition genderErrors (person : Node.t) : list jsstring :=
  if negb (includes [js "M"; js "F"; js "U"] (Val (Node.gender (Node.data person))))
  then [js "Person " ++ Node.id person ++ js " has invalid gender: "
        ++ Node.gender (Node.data person)]
  else [].

(** The body of [familyChartData.forEach(person => ...)]. *)
Definition nodeErrors (idSet : gset jsstring) (person : Node.t) : list jsstring :=
  missing idSet (Node.id person) "parent" (Node.parents (Node.rels person))
  ++ missing idSet (Node.id person) "spouse" (Node.spouses (Node.rels person))
  ++ missing idSet (Node.id person) "child" (Node.children (Node.rels person))
  ++ genderErrors person.

Definition validateRelationships (familyChartData : list Node.t) : list jsstring :=
  let idSet : gset jsstring := list_to_set (Node.id <$> familyChartData) in
  concat (nodeErrors idSet <$> familyChartData).

End Adapter.

(** ** Translations and the date display policy *)

Module I18n.

(** [state.language]: one of the codes [setLang] accepts. *)
Inductive Lang := lang_en | lang_fr | lang_vi.

Module translations.
Definition en : list (string * jsstring) :=
[
  ("appTitle", js "Genealogy Tree");
  ("loading", js "Loading genealogy tree");
  ("footerText",
     js "Public genealogy tree - Admin authentication required for editing");
  ("adminLogin", js "Admin Login");
  ("login", js "Login");
  ("logout", js "Logout");
  ("cancel", js "Cancel");
  ("email", js "Email");
  ("password", js "Password");
  ("loggedInAs", js "Logged in as");
  ("loginError", js "Login failed. Please check your credentials.");
  ("unknown", js "Unknown");
  ("none", js "None");
  ("notSpecified", js "Not specified");
  ("notApplicable", js "Not applicable");
  ("living", js "Living");
  ("father", js "Father");
  ("mother", js "Mother");
  ("spouse", js "Spouse");
  ("children", js "Children");
  ("siblings", js "Siblings");
  ("unionDate", js "Union Date");
  ("unionPlace", js "Union Place");
  ("birthDate", js "Birth Date");
  ("birthPlace", js "Birth Place");
  ("deathDate", js "Death Date");
  ("deathPlace", js "Death Place");
  ("biography", js "Biography");
  ("errorLoadingData", js "Error loading genealogy data. Please try again later.");
  ("noDataAvailable", js "No genealogy data available.")
]%N.

Definition fr : list (string * jsstring) :=
[
  ("appTitle", js "Arbre G" ++ [233] ++ js "n" ++ [233] ++ js "alogique");
  ("loading", js "Chargement de l'arbre g" ++ [233] ++ js "n" ++ [233]
     ++ js "alogique");
  ("footerText", js "Arbre g" ++ [233] ++ js "n" ++ [233]
     ++ js "alogique public - Authentification administrateur requise pour la modification");
  ("adminLogin", js "Connexion Administrateur");
  ("login", js "Connexion");
  ("logout", js "D" ++ [233] ++ js "connexion");
  ("cancel", js "Annuler");
  ("email", js "Email");
  ("password", js "Mot de passe");
  ("loggedInAs", js "Connect" ++ [233] ++ js " en tant que");
  ("loginError", [201] ++ js "chec de la connexion. Veuillez v" ++ [233]
     ++ js "rifier vos identifiants.");
  ("unknown", js "Inconnu");
  ("none", js "Aucun");
  ("notSpecified", js "Non pr" ++ [233] ++ js "cis" ++ [233]);
  ("notApplicable", js "Non applicable");
  ("living", js "En vie");
  ("father", js "P" ++ [232] ++ js "re");
  ("mother", js "M" ++ [232] ++ js "re");
  ("spouse", js "Conjoint(e)");
  ("children", js "Enfants");
  ("siblings", js "Fr" ++ [232] ++ js "res et s" ++ [339] ++ js "urs");
  ("unionDate", js "Date d'union");
  ("unionPlace", js "Lieu d'union");
  ("birthDate", js "Date de naissance");
  ("birthPlace", js "Lieu de naissance");
  ("deathDate", js "Date de d" ++ [233] ++ js "c" ++ [232] ++ js "s");
  ("deathPlace", js "Lieu de d" ++ [233] ++ js "c" ++ [232] ++ js "s");
  ("biography", js "Biographie");
  ("errorLoadingData", js "Erreur lors du chargement des donn" ++ [233]
     ++ js "es g" ++ [233] ++ js "n" ++ [233] ++ js "alogiques. Veuillez r"
     ++ [233] ++ js "essayer plus tard.");
  ("noDataAvailable", js "Aucune donn" ++ [233] ++ js "e g" ++ [233] ++ js "n"
     ++ [233] ++ js "alogique disponible.")
]%N.

Definition vi : list (string * jsstring) :=
[
  ("appTitle", js "C" ++ [226] ++ js "y Gia Ph" ++ [7843]);
  ("loading", [272] ++ js "ang t" ++ [7843] ++ js "i c" ++ [226]
     ++ js "y gia ph" ++ [7843]);
  ("footerText", js "C" ++ [226] ++ js "y gia ph" ++ [7843] ++ js " c" ++ [244]
     ++ js "ng khai - C" ++ [7847] ++ js "n x" ++ [225] ++ js "c th" ++ [7921]
     ++ js "c qu" ++ [7843] ++ js "n tr" ++ [7883] ++ js " vi" ++ [234]
     ++ js "n " ++ [273; 7875] ++ js " ch" ++ [7881] ++ js "nh s" ++ [7917]
     ++ js "a");
  ("adminLogin", [272; 259] ++ js "ng Nh" ++ [7853] ++ js "p Qu" ++ [7843]
     ++ js "n Tr" ++ [7883]);
  ("login", [272; 259] ++ js "ng nh" ++ [7853] ++ js "p");
  ("logout", [272; 259] ++ js "ng xu" ++ [7845] ++ js "t");
  ("cancel", js "H" ++ [7911] ++ js "y");
  ("email", js "Email");
  ("password", js "M" ++ [7853] ++ js "t kh" ++ [7849] ++ js "u");
  ("loggedInAs", [272; 227] ++ js " " ++ [273; 259] ++ js "ng nh" ++ [7853]
     ++ js "p v" ++ [7899] ++ js "i");
  ("loginError", [272; 259] ++ js "ng nh" ++ [7853] ++ js "p th" ++ [7845]
     ++ js "t b" ++ [7841] ++ js "i. Vui l" ++ [242] ++ js "ng ki" ++ [7875]
     ++ js "m tra th" ++ [244] ++ js "ng tin " ++ [273; 259] ++ js "ng nh"
     ++ [7853] ++ js "p.");
  ("unknown", js "Kh" ++ [244] ++ js "ng r" ++ [245]);
  ("none", js "Kh" ++ [244] ++ js "ng c" ++ [243]);
  ("notSpecified", js "Ch" ++ [432] ++ js "a ghi");
  ("notApplicable", js "Kh" ++ [244] ++ js "ng " ++ [225] ++ js "p d" ++ [7909]
     ++ js "ng");
  ("living", js "C" ++ [242] ++ js "n s" ++ [7889] ++ js "ng");
  ("father", js "Cha");
  ("mother", js "M" ++ [7865]);
  ("spouse", js "V" ++ [7907] ++ js "/Ch" ++ [7891] ++ js "ng");
  ("children", js "Con c" ++ [225] ++ js "i");
  ("siblings", js "Anh ch" ++ [7883] ++ js " em");
  ("unionDate", js "Ng" ++ [224] ++ js "y k" ++ [7871] ++ js "t h" ++ [244]
     ++ js "n");
  ("unionPlace", js "N" ++ [417] ++ js "i k" ++ [7871] ++ js "t h" ++ [244]
     ++ js "n");
  ("birthDate", js "Ng" ++ [224] ++ js "y sinh");
  ("birthPlace", js "N" ++ [417] ++ js "i sinh");
  ("deathDate", js "Ng" ++ [224] ++ js "y m" ++ [7845] ++ js "t");
  ("deathPlace", js "N" ++ [417] ++ js "i m" ++ [7845] ++ js "t");
  ("biography", js "Ti" ++ [7875] ++ js "u s" ++ [7917]);
  ("errorLoadingData", js "L" ++ [7895] ++ js "i khi t" ++ [7843] ++ js "i d"
     ++ [7919] ++ js " li" ++ [7879] ++ js "u gia ph" ++ [7843] ++ js ". Vui l"
     ++ [242] ++ js "ng th" ++ [7917] ++ js " l" ++ [7841] ++ js "i sau.");
  ("noDataAvailable", js "Kh" ++ [244] ++ js "ng c" ++ [243] ++ js " d"
     ++ [7919] ++ js " li" ++ [7879] ++ js "u gia ph" ++ [7843] ++ js ".")
]%N.
End translations.

Definition dictionary (language : Lang) : list (string * jsstring) :=
  match language with
  | lang_en => translations.en
  | lang_fr => translations.fr
  | lang_vi => translations.vi
  end.

(** [i18n.translations[state.language][key] || key] *)
Definition t (language : Lang) (key : string) : jsstring :=
  match snd <$> find (λ e, bool_decide (e.1 = key)) (dictionary language) with
  | Some (c :: s) => c :: s
  | _ => js key
  end.

Definition getLocale (language : Lang) : jsstring :=
  match language with
  | lang_en => js "en-US"
  | lang_fr => js "fr-FR"
  | lang_vi => js "vi-VN"
  end.

End I18n.

Module Chart.

Section WithDate.

(** The [Date] of the runtime: [toLocaleDateString locale s] is the long
    form of [new Date(s)] in [locale], or [None] when [s] does not parse
    to a valid date. *)
Variable toLocaleDateString : jsstring → jsstring → option jsstring.

Variable language : I18n.Lang.

Definition formatDate (dateValue : nullable jsstring) (isDeathDate : bool)
  : jsstring :=
  match dateValue with
  | Val v =>
      let dateString := trim v in
      if decide (dateString = []) then
        if isDeathDate then I18n.t language "living"
        else I18n.t language "unknown"
      else if matches [is_digit; is_digit; is_digit; is_digit] dateString
      then dateString
      else
        match toLocaleDateString (I18n.getLocale language) dateString with
        | Some formatted => formatted
        | None => dateString
        end
  | _ => I18n.t language "unknown"
  end.

End WithDate.

End Chart.

(** ** The parent graph a roster describes *)

Module ParentGraph.

(** [y] is a parent reference of the record that [find] returns for [x]. *)
Definition parent_edge (allPeople : list Person.t) (x y : jsstring) : Prop :=
  ∃ p, PersonValidator.find_person allPeople x = Some p ∧ y ∈ Person.parentIds p.

(** [y] is an ancestor of [x]: a non-empty chain of parent references. *)
Definition ancestor (allPeople : list Person.t) : relation jsstring :=
  tc (parent_edge allPeople).

(** [x] lies on a cycle when it is its own ancestor. *)
Definition on_cycle (allPeople : list Person.t) (x : jsstring) : Prop :=
  ancestor allPeople x x.

Definition acyclic (allPeople : list Person.t) : Prop :=
  ∀ x, ¬ on_cycle allPeople x.

(** The ids the walk can reach from its starting frontier. *)
Definition reachable (allPeople : list Person.t) (frontier : list jsstring)
    (x : jsstring) : Prop :=
  ∃ s, s ∈ frontier ∧ rtc (parent_edge allPeople) s x.

(** Every parent reference that occurs in the roster. *)
Definition all_parent_ids (allPeople : list Person.t) : gset jsstring :=
  list_to_set (allPeople ≫= Person.parentIds).

(** Ids are unique across the roster. *)
Definition unique_ids (allPeople : list Person.t) : Prop :=
  NoDup (Person.id <$> allPeople).

(** The ids one round of the walk pushes after visiting [c]. *)
Definition pushed (allPeople : list Person.t) (c : jsstring) : list jsstring :=
  match PersonValidator.find_person allPeople c with
  | Some p => Person.parentIds p
  | None => []
  end.

End ParentGraph.

(** The number of candidate ids not yet visited: it drops in every round of
    the walk. *)
Definition walk_measure (allPeople : list Person.t) (w : PersonValidator.walk)
  : nat :=
  size ((list_to_set (PersonValidator.toCheck w)
         ∪ ParentGraph.all_parent_ids allPeople)
        ∖ PersonValidator.visited w).

(** ** Rosters used as test inputs *)

Module Rosters.

(** A → father B, B → father A. *)
Definition two_cycle : list Person.t :=
  [ bare_person (js "a") (Val (js "b")) Null;
    bare_person (js "b") (Val (js "a")) Null ].

(** A → father B → father C → father A. *)
Definition three_cycle : list Person.t :=
  [ bare_person (js "a") (Val (js "b")) Null;
    bare_person (js "b") (Val (js "c")) Null;
    bare_person (js "c") (Val (js "a")) Null ].

(** A child of first cousins: the two grandfathers are brothers, so the
    great-grandfather is an ancestor along both the father's and the
    mother's line. *)
Definition kid : Person.t :=
  bare_person (js "kid") (Val (js "dad")) (Val (js "mom")).

Definition cousins : list Person.t :=
  [ kid;
    bare_person (js "dad") (Val (js "gpa1")) Null;
    bare_person (js "mom") (Val (js "gpa2")) Null;
    bare_person (js "gpa1") (Val (js "ggp")) Null;
    bare_person (js "gpa2") (Val (js "ggp")) Null;
    bare_person (js "ggp") Null Null ].

(** The generation of an id of [cousins]. *)
Definition generation (x : jsstring) : nat :=
  if decide (x = js "kid") then 0
  else if decide (x ∈ [js "dad"; js "mom"]) then 1
  else if decide (x ∈ [js "gpa1"; js "gpa2"]) then 2
  else 3.

End Rosters.

(** ** Records used as test inputs *)

Module Examples.

Definition current_name (last first : jsstring) : Name.t :=
  Name.mk (Val (js "legal")) (Val first) Undefined (Val last) Undefined (Val true).

(** A complete record, two of whose names are flagged current. *)
Definition jane : Person.t :=
  Person.mk (js "doe_jane")
    (Val [ current_name (js "Doe") (js "Jane");
           Name.mk (Val (js "married")) (Val (js "Jane")) Undefined
                   (Val (js "Roe")) Undefined (Val true) ])
    (Val (js "F")) (Val (js "living")) (Val []) Null Null (Val [])
    Undefined Undefined Undefined Undefined Undefined Undefined Undefined
    Undefined Undefined Undefined.

(** A record without any name. *)
Definition nameless : Person.t := bare_person (js "x") Null Null.

(** A record whose only name has no first name. *)
Definition no_first_name : Person.t :=
  Person.mk (js "x")
    (Val [Name.mk Undefined Undefined Undefined (Val (js "Doe")) Undefined (Val true)])
    Undefined Undefined Undefined Undefined Undefined Undefined Undefined
    Undefined Undefined Undefined Undefined Undefined Undefined Undefined
    Undefined Undefined.

(** A record with one complete current name. *)
Definition john : Person.t :=
  Person.mk (js "x") (Val [current_name (js "Doe") (js "John")])
    Undefined Undefined Undefined Undefined Undefined Undefined Undefined
    Undefined Undefined Undefined Undefined Undefined Undefined Undefined
    Undefined Undefined.

(** A reading of the clock, and the placeholder id made from it. *)
Definition clock : Z := 1700000000000.
Definition placeholder : jsstring := js "person_1700000000000".

(** A child whose father and mother references name the same record. *)
Definition same_parent : list Person.t :=
  [ bare_person (js "p") Null Null;
    bare_person (js "q") (Val (js "p")) (Val (js "p")) ].

(** The end-to-end roster of the adapter. *)
Definition p1_p2 : list Person.t :=
  [ bare_person (js "p1") Null Null;
    bare_person (js "p2") (Val (js "p1")) Null ].

End Examples.

(** The candidate ids the counter loop of [generatePersonId] tries. *)
Definition candidate (baseId : jsstring) (counter : N) : jsstring :=
  baseId ++ js "_" ++ js (pretty counter).

(** How many times [x] occurs in [l]. *)
Definition occurrences (x : jsstring) (l : list jsstring) : nat :=
  length (filter (λ y, y = x) l).

(** The ids of the records that name [k] as a parent, once per reference,
    in roster order. *)
Definition children_of (people : list Person.t) (k : jsstring) : list jsstring :=
  people ≫= λ person,
    (λ _, Person.id person) <$> filter (λ parentId, parentId = k)
                                  (Person.parentIds person).

(** ** The same functions over a heap of mutable objects

    To state that a function leaves its arguments alone, objects and arrays
    live in a heap and a function is a heap transformer.  [None] as a result
    is an exception (a [TypeError]) or a loop that was cut off; the heap is
    returned in every case. *)

Module Heap.

Definition loc := positive.

Inductive value :=
  | VUndefined
  | VNull
  | VBool (b : bool)
  | VNum (n : number)
  | VStr (s : jsstring)
  | VRef (l : loc).

(** Objects, arrays and [Set]s. *)
Inductive cell :=
  | Obj (fields : gmap string value)
  | Arr (elems : list value)
  | SetC (elems : list value).

Definition M (A : Type) : Type := gmap loc cell → option A * gmap loc cell.

Global Instance M_ret : MRet M := λ A a h, (Some a, h).
Global Instance M_bind : MBind M := λ A B f m h,
  match m h with
  | (Some a, h') => f a h'
  | (None, h') => (None, h')
  end.

Definition throw {A} : M A := λ h, (None, h).

(** [new]: a cell at an address the heap does not use yet. *)
Definition alloc (c : cell) : M loc := λ h,
  let l := fresh (dom h) in (Some l, <[l := c]> h).

Definition read (l : loc) : M cell := λ h, (h !! l, h).

Definition write (l : loc) (c : cell) : M unit := λ h,
  match h !! l with
  | Some _ => (Some (), <[l := c]> h)
  | None => (None, h)
  end.

(** [!!v] *)
Definition truthy_v (v : value) : bool :=
  match v with
  | VUndefined | VNull | VBool false | VStr [] | VNum NaN => false
  | VNum (Num q) => negb (Qeq_bool q 0%Q)
  | _ => true
  end.

(** [a === b] *)
Definition strict_eq (a b : value) : bool :=
  match a, b with
  | VUndefined, VUndefined | VNull, VNull => true
  | VBool x, VBool y => bool_decide (x = y)
  | VStr x, VStr y => bool_decide (x = y)
  | VRef x, VRef y => bool_decide (x = y)
  | VNum (Num p), VNum (Num q) => Qeq_bool p q
  | VNum (Infinity x), VNum (Infinity y) => bool_decide (x = y)
  | _, _ => false
  end.

(** SameValueZero, the equality of [Set], [Map] and [includes]. *)
Definition same_value_zero (a b : value) : bool :=
  match a, b with
  | VNum NaN, VNum NaN => true
  | _, _ => strict_eq a b
  end.

(** [v.k] *)
Definition get (v : value) (k : string) : M value :=
  match v with
  | VUndefined | VNull => throw
  | VRef l =>
      c ← read l;
      mret (match c with Obj fields => default VUndefined (fields !! k)
                    | _ => VUndefined end)
  | _ => mret VUndefined
  end.

(** [o.k = v] for an object [o]. *)
Definition set_prop (l : loc) (k : string) (v : value) : M unit :=
  c ← read l;
  match c with
  | Obj fields => write l (Obj (<[k := v]> fields))
  | _ => throw
  end.

(** [Array.isArray(v)] *)
Definition isArray (v : value) : M bool :=
  match v with
  | VRef l => c ← read l; mret (match c with Arr _ => true | _ => false end)
  | _ => mret false
  end.

(** The elements of an array, for the array methods that iterate ([map],
    [forEach], [find], [some]); calling one on [undefined] or [null]
    throws, and so does calling it on a value that has no such method. *)
Definition elements (v : value) : M (list value) :=
  match v with
  | VRef l => c ← read l; match c with Arr elems => mret elems | _ => throw end
  | _ => throw
  end.

Definition push (l : loc) (v : value) : M unit :=
  c ← read l;
  match c with
  | Arr elems => write l (Arr (elems ++ [v]))
  | _ => throw
  end.

(** The own properties that [{ ...v }] copies. *)
Definition spread (v : value) : M (gmap string value) :=
  match v with
  | VRef l =>
      c ← read l;
      mret (match c with
            | Obj fields => fields
            | Arr elems => list_to_map (imap (λ i x, (pretty i, x)) elems)
            | SetC _ => ∅
            end)
  | VStr s => mret (list_to_map (imap (λ i c, (pretty i, VStr [c])) s))
  | _ => mret ∅
  end.

(** [for (const x of l) body(x)], and [l.map(f)] on the elements. *)
Fixpoint for_each {A} (body : A → M unit) (l : list A) : M unit :=
  match l with
  | [] => mret ()
  | x :: l' => _ ← body x; for_each body l'
  end.

Fixpoint map_each {A B} (f : A → M B) (l : list A) : M (list B) :=
  match l with
  | [] => mret []
  | x :: l' => y ← f x; ys ← map_each f l'; mret (y :: ys)
  end.

(** *** updateIdReferences *)

Definition updateUnion (oldId newId : value) (union : value) : M value :=
  copy ← spread union;
  spouse_id ← get union "spouse_id";
  l ← alloc (Obj (<["spouse_id" :=
                      if strict_eq spouse_id oldId then newId else spouse_id]> copy));
  mret (VRef l).

Definition updatePerson (oldId newId : value) (person : value) : M value :=
  copy ← spread person;
  updated ← alloc (Obj copy);
  father_id ← get (VRef updated) "father_id";
  _ ← (if strict_eq father_id oldId
       then set_prop updated "father_id" newId else mret ());
  mother_id ← get (VRef updated) "mother_id";
  _ ← (if strict_eq mother_id oldId
       then set_prop updated "mother_id" newId else mret ());
  unions ← get (VRef updated) "unions";
  is_array ← isArray unions;
  _ ← (if is_array : bool then
         us ← elements unions;
         us' ← map_each (updateUnion oldId newId) us;
         arr ← alloc (Arr us');
         set_prop updated "unions" (VRef arr)
       else mret ());
  mret (VRef updated).

Definition updateIdReferences (allPeople oldId newId : value) : M value :=
  people ← elements allPeople;
  people' ← map_each (updatePerson oldId newId) people;
  result ← alloc (Arr people');
  mret (VRef result).

(** *** toFamilyChartData *)

(** [v[i]] *)
Definition get_index (v : value) (i : nat) : M value :=
  match v with
  | VUndefined | VNull => throw
  | VRef l =>
      c ← read l;
      mret (match c with
            | Obj fields => default VUndefined (fields !! pretty i)
            | Arr elems => default VUndefined (elems !! i)
            | SetC _ => VUndefined
            end)
  | VStr s => mret (default VUndefined ((λ c, VStr [c]) <$> s !! i))
  | _ => mret VUndefined
  end.

(** [v?.k] *)
Definition get_opt (v : value) (k : string) : M value :=
  match v with
  | VUndefined | VNull => mret VUndefined
  | _ => get v k
  end.

(** [a || b], [a ?? b] *)
Definition v_or (a b : value) : value := if truthy_v a then a else b.
Definition v_nullish (a b : value) : value :=
  match a with
  | VUndefined | VNull => b
  | _ => a
  end.

(** [l.find(pred)]: the first element on which [pred] holds. *)
Fixpoint find_first (pred : value → M bool) (l : list value) : M (option value) :=
  match l with
  | [] => mret None
  | x :: l' => b ← pred x; if b : bool then mret (Some x) else find_first pred l'
  end.

(** A loop that threads a local variable. *)
Fixpoint fold_each {A S} (body : S → A → M S) (s : S) (l : list A) : M S :=
  match l with
  | [] => mret s
  | x :: l' => s' ← body s x; fold_each body s' l'
  end.

(** The entries of a [Map] whose values are arrays: the map is local to the
    call that creates it and is threaded as a value; the arrays live in the
    heap. *)
Definition map_get (m : list (value * loc)) (k : value) : option loc :=
  snd <$> find (λ e, same_value_zero e.1 k) m.

(** The elements of [new Set(l)], in insertion order. *)
Fixpoint set_values (seen l : list value) : list value :=
  match l with
  | [] => []
  | x :: l' =>
      if existsb (same_value_zero x) seen then set_values seen l'
      else x :: set_values (seen ++ [x]) l'
  end.

Section WithToString.

(** [String(v)] for a number, an object or an array [v] of the heap: plain
    data, whose conversion reads the heap and changes nothing. *)
Variable to_string : gmap loc cell → value → jsstring.

Definition ToString (v : value) : M jsstring := λ h,
  (Some (match v with
         | VStr s => s
         | VUndefined => js "undefined"
         | VNull => js "null"
         | VBool true => js "true"
         | VBool false => js "false"
         | _ => to_string h v
         end), h).

Definition getDisplayName (person : value) : M value :=
  names ← get person "names";
  is_array ← isArray names;
  ns ← (if is_array : bool then elements names else mret []);
  match ns with
  | first :: _ =>
      found ← find_first (λ n, c ← get n "is_current"; mret (truthy_v c)) ns;
      let currentName :=
        match found with
        | Some n => v_or n first
        | None => first
        end in
      display_name ← get currentName "display_name";
      if truthy_v display_name then mret display_name
      else
        last_name ← get currentName "last_name";
        last ← ToString last_name;
        middle_name ← get currentName "middle_name";
        middle ← ToString middle_name;
        first_name ← get currentName "first_name";
        given ← ToString first_name;
        mret (VStr (replace_runs is_space 32 false
                      (trim (last ++ js " " ++ middle ++ js " " ++ given))))
  | [] =>
      display_name ← get person "display_name";
      mret (v_or display_name (VStr []))
  end.

(** Builds the [{ date, place }] object. *)
Definition date_place (date place : value) : M value :=
  l ← alloc (Obj (<["date" := date]> (<["place" := place]> ∅)));
  mret (VRef l).

Definition getEventData (events : value) (eventType : jsstring) : M value :=
  is_array ← isArray events;
  if negb is_array then date_place VNull VNull
  else
    es ← elements events;
    found ← find_first (λ e, t ← get e "type";
                             mret (strict_eq t (VStr eventType))) es;
    match found with
    | Some event =>
        if negb (truthy_v event) then date_place VNull VNull
        else
          date ← get event "date";
          place ← get event "place";
          date_place (v_or date VNull) (v_or place VNull)
    | None => date_place VNull VNull
    end.

(** [person.events ? getEventData(person.events, type) : { ...legacy }] *)
Definition vitalData (person : value) (eventType : jsstring) (legacy : string)
  : M value :=
  events ← get person "events";
  if truthy_v events then
    events' ← get person "events";
    getEventData events' eventType
  else
    sub ← get person legacy;
    date ← get_opt sub "date";
    sub' ← get person legacy;
    place ← get_opt sub' "place";
    date_place (v_nullish date VNull) (v_nullish place VNull).

(** [person.names?.[0]?.k || person.k || ''] *)
Definition name_field (person : value) (k : string) : M value :=
  names ← get person "names";
  first ← (match names with
           | VUndefined | VNull => mret VUndefined
           | _ => get_index names 0
           end);
  from_names ← get_opt first k;
  if truthy_v from_names then mret from_names
  else
    own ← get person k;
    mret (v_or own (VStr [])).

(** [v || []] *)
Definition or_new_array (v : value) : M value :=
  if truthy_v v then mret v else (l ← alloc (Arr []); mret (VRef l)).

(** The body of the inner [parentIds.forEach(parentId => ...)]. *)
Definition add_child (person : value) (childrenByParent : list (value * loc))
    (parentId : value) : M (list (value * loc)) :=
  childrenByParent ←
    (match map_get childrenByParent parentId with
     | None => arr ← alloc (Arr []); mret (childrenByParent ++ [(parentId, arr)])
     | Some _ => mret childrenByParent
     end);
  match map_get childrenByParent parentId with
  | Some arr =>
      id ← get person "id";
      _ ← push arr id;
      mret childrenByParent
  | None => throw
  end.

(** The body of the first [people.forEach(person => ...)]. *)
Definition index_person (childrenByParent : list (value * loc)) (person : value)
  : M (list (value * loc)) :=
  father_id ← get person "father_id";
  mother_id ← get person "mother_id";
  let parentIds := List.filter truthy_v [father_id; mother_id] in
  fold_each (add_child person) childrenByParent parentIds.

(** The callback of [people.map(person => ...)]. *)
Definition toNode (childrenByParent : list (value * loc)) (person : value)
  : M value :=
  father_id ← get person "father_id";
  mother_id ← get person "mother_id";
  parents ← alloc (Arr (List.filter truthy_v [father_id; mother_id]));
  unions ← get person "unions";
  is_array ← isArray unions;
  spouses ←
    (if is_array : bool then
       unions1 ← get person "unions";
       us ← elements unions1;
       ids ← map_each (λ u, get u "spouse_id") us;
       alloc (Arr (set_values [] (List.filter truthy_v ids)))
     else alloc (Arr []));
  id ← get person "id";
  children ←
    (match map_get childrenByParent id with
     | Some arr => mret (VRef arr)
     | None => l ← alloc (Arr []); mret (VRef l)
     end);
  birthData ← vitalData person (js "birth") "birth";
  deathData ← vitalData person (js "death") "death";
  gender ← get person "gender";
  display_name ← getDisplayName person;
  first_name ← name_field person "first_name";
  middle_name ← name_field person "middle_name";
  last_name ← name_field person "last_name";
  other_first_names ← get person "other_first_names";
  other_first_names1 ← or_new_array other_first_names;
  nicknames ← get person "nicknames";
  nicknames1 ← or_new_array nicknames;
  birth_date ← get birthData "date";
  birth_place ← get birthData "place";
  death_date ← get deathData "date";
  death_place ← get deathData "place";
  vital_status ← get person "vital_status";
  unions2 ← get person "unions";
  unions3 ← or_new_array unions2;
  biography ← get person "biography";
  sibling_order ← get person "sibling_order";
  data ← alloc (Obj (list_to_map
    [ ("gender", v_or gender (VStr (js "M")));
      ("display_name", display_name);
      ("first_name", first_name);
      ("middle_name", middle_name);
      ("last_name", last_name);
      ("other_first_names", other_first_names1);
      ("nicknames", nicknames1);
      ("birth_date", birth_date);
      ("birth_place", birth_place);
      ("death_date", death_date);
      ("death_place", death_place);
      ("vital_status", v_or vital_status VNull);
      ("unions", unions3);
      ("biography", v_nullish biography (VStr []));
      ("sibling_order", v_nullish sibling_order VNull) ]));
  id1 ← get person "id";
  rels ← alloc (Obj (list_to_map
    [ ("parents", VRef parents); ("spouses", VRef spouses);
      ("children", children) ]));
  node ← alloc (Obj (list_to_map
    [ ("id", id1); ("data", VRef data); ("rels", VRef rels) ]));
  mret (VRef node).

Definition toFamilyChartData (people : value) : M value :=
  is_array ← isArray people;
  ps ← (if is_array : bool then elements people else mret []);
  match ps with
  | [] => l ← alloc (Arr []); mret (VRef l)
  | _ =>
      childrenByParent ← fold_each index_person [] ps;
      nodes ← map_each (toNode childrenByParent) ps;
      l ← alloc (Arr nodes);
      mret (VRef l)
  end.

(** *** PersonValidator *)

(** [new ValidationError(field, message)] *)
Definition new_error (field message : jsstring) : M value :=
  l ← alloc (Obj (list_to_map
         [ ("field", VStr field); ("message", VStr message);
           ("name", VStr (js "ValidationError")) ]));
  mret (VRef l).

(** [errors.push(new ValidationError(field, message))] *)
Definition push_error (errors : loc) (field message : jsstring) : M unit :=
  e ← new_error field message;
  push errors e.

(** [errors.push(...other)] *)
Definition push_all (errors : loc) (other : value) : M unit :=
  es ← elements other;
  for_each (push errors) es.

(** [if (e) errors.push(e)] *)
Definition push_if (errors : loc) (e : value) : M unit :=
  if truthy_v e then push errors e else mret ().

(** [s.has(v)] and [s.add(v)] on a [Set]. *)
Definition set_has (s : value) (v : value) : M bool :=
  match s with
  | VRef l =>
      c ← read l;
      match c with
      | SetC elems => mret (existsb (same_value_zero v) elems)
      | _ => throw
      end
  | _ => throw
  end.

Definition set_add (l : loc) (v : value) : M unit :=
  c ← read l;
  match c with
  | SetC elems =>
      write l (SetC (if existsb (same_value_zero v) elems then elems
                     else elems ++ [v]))
  | _ => throw
  end.

(** [arr.pop()] *)
Definition pop (l : loc) : M value :=
  c ← read l;
  match c with
  | Arr elems =>
      match array_pop elems with
      | Some (x, rest) => _ ← write l (Arr rest); mret x
      | None => mret VUndefined
      end
  | _ => throw
  end.

(** [l.some(pred)] *)
Fixpoint some_each (pred : value → M bool) (l : list value) : M bool :=
  match l with
  | [] => mret false
  | x :: l' => b ← pred x; if b : bool then mret true else some_each pred l'
  end.

(** [l.forEach((x, idx) => body)] *)
Fixpoint for_each_i {A} (body : nat → A → M unit) (idx : nat) (l : list A)
  : M unit :=
  match l with
  | [] => mret ()
  | x :: l' => _ ← body idx x; for_each_i body (S idx) l'
  end.

(** [literals.includes(v)] for an array of string literals. *)
Definition includes_v (literals : list jsstring) (v : value) : bool :=
  existsb (λ s, same_value_zero (VStr s) v) literals.

(** [typeof v !== 'number' || v < lo || v > hi] *)
Definition outside (v : value) (lo hi : Z) : bool :=
  match v with
  | VNum x => num_lt x (num_of_Z lo) || num_lt (num_of_Z hi) x
  | _ => true
  end.

Section Validator.

(** The validator object: [this.allPeople] and [this.existingIds]. *)
Variable this : value.

Definition personExists (personId : value) : M bool :=
  existingIds ← get this "existingIds";
  set_has existingIds personId.

Definition validateId (id currentId : value) : M value :=
  errors ← alloc (Arr []);
  match id with
  | VStr (c :: s) =>
      _ ← (if bool_decide (trim (c :: s) = [])
           then push_error errors (js "id") (js "ID cannot be empty")
           else mret ());
      _ ← (if negb (id_format (c :: s))
           then push_error errors (js "id")
                  (js "ID must be lowercase letters, numbers, and underscores only")
           else mret ());
      taken ← (if negb (strict_eq id currentId) then personExists id
               else mret false);
      _ ← (if taken : bool
           then push_error errors (js "id") (js "ID already exists - must be unique")
           else mret ());
      mret (VRef errors)
  | _ =>
      _ ← push_error errors (js "id") (js "ID is required");
      mret (VRef errors)
  end.

(** The body of [names.forEach((name, idx) => ...)]. *)
Definition validateName (errors : loc) (idx : nat) (name : value) : M unit :=
  first_name ← get name "first_name";
  last_name ← (if truthy_v first_name then get name "last_name"
               else mret VUndefined);
  _ ← (if negb (truthy_v first_name) || negb (truthy_v last_name)
       then push_error errors (js "names[" ++ js (pretty idx) ++ js "]")
              (js "Name must have at least first_name and last_name")
       else mret ());
  type ← get name "type";
  if truthy_v type && negb (includes_v PersonValidator.name_validTypes type)
  then push_error errors (js "names[" ++ js (pretty idx) ++ js "].type")
         (js "Invalid name type. Must be one of: english, vietnamese, french, legal, birth, married, alias")
  else mret ().

Definition validateNames (names : value) : M value :=
  errors ← alloc (Arr []);
  is_array ← isArray names;
  ns ← (if is_array : bool then elements names else mret []);
  match ns with
  | [] =>
      _ ← push_error errors (js "names") (js "At least one name is required");
      mret (VRef errors)
  | _ =>
      hasCurrentName ←
        some_each (λ n, c ← get n "is_current";
                        mret (strict_eq c (VBool true))) ns;
      _ ← (if negb hasCurrentName
           then push_error errors (js "names")
                  (js "One name must be marked as current")
           else mret ());
      _ ← for_each_i (validateName errors) 0 ns;
      mret (VRef errors)
  end.

Definition validateGender (gender : value) : M value :=
  if negb (includes_v [js "M"; js "F"; js "U"] gender)
  then new_error (js "gender")
         (js "Gender must be M (Male), F (Female), or U (Unknown)")
  else mret VNull.

Definition validateVitalStatus (vitalStatus : value) : M value :=
  if negb (includes_v [js "living"; js "deceased"; js "unknown"] vitalStatus)
  then new_error (js "vital_status")
         (js "Vital status must be living, deceased, or unknown")
  else mret VNull.

Definition validateSiblingOrder (siblingOrder : value) : M value :=
  if match siblingOrder with
     | VNum x => num_lt x (num_of_Z 1) || negb (isInteger x)
     | _ => true
     end
  then new_error (js "sibling_order")
         (js "Sibling order must be a positive integer (1, 2, 3...)")
  else mret VNull.

Definition validateDateFormat (date precision : value) (eventIdx : nat)
  : M value :=
  if strict_eq precision (VStr (js "decade"))
     || strict_eq precision (VStr (js "century"))
  then mret VNull
  else
    key ← ToString precision;
    if bool_decide (key ∈ PersonValidator.object_prototype_keys) then throw
    else
      match PersonValidator.formats key with
      | Some regex =>
          text ← ToString date;
          if negb (matches regex text)
          then
            shown ← ToString precision;
            new_error (js "events[" ++ js (pretty eventIdx) ++ js "].date")
              (js "Date format must match precision " ++ [34%N] ++ shown
               ++ [34%N])
          else mret VNull
      | None => mret VNull
      end.

(** The body of [events.forEach((event, idx) => ...)]. *)
Definition validateEvent (errors : loc) (unionIds : list value) (idx : nat)
    (event : value) : M unit :=
  type ← get event "type";
  _ ← (if negb (truthy_v type)
          || negb (includes_v PersonValidator.event_validTypes type)
       then push_error errors (PersonValidator.event_path idx ".type")
              (js "Invalid event type")
       else mret ());
  type1 ← get event "type";
  union_id ← get event "union_id";
  _ ← (if strict_eq type1 (VStr (js "marriage")) && negb (truthy_v union_id)
       then push_error errors (PersonValidator.event_path idx ".union_id")
              (js "Marriage event must have union_id")
       else mret ());
  union_id1 ← get event "union_id";
  _ ← (if truthy_v union_id1
          && negb (existsb (same_value_zero union_id1) unionIds)
       then push_error errors (PersonValidator.event_path idx ".union_id")
              (js "Marriage event union_id does not match any union")
       else mret ());
  date ← get event "date";
  date_precision ← get event "date_precision";
  _ ← (if truthy_v date && truthy_v date_precision
       then dateError ← validateDateFormat date date_precision idx;
            push_if errors dateError
       else mret ());
  place_latitude ← get event "place_latitude";
  _ ← (match place_latitude with
       | VNull | VUndefined => mret ()
       | _ =>
           if outside place_latitude (-90) 90
           then push_error errors (PersonValidator.event_path idx ".place_latitude")
                  (js "Latitude must be a number between -90 and 90")
           else mret ()
       end);
  place_longitude ← get event "place_longitude";
  _ ← (match place_longitude with
       | VNull | VUndefined => mret ()
       | _ =>
           if outside place_longitude (-180) 180
           then push_error errors (PersonValidator.event_path idx ".place_longitude")
                  (js "Longitude must be a number between -180 and 180")
           else mret ()
       end);
  certainty ← get event "certainty";
  if truthy_v certainty
     && negb (includes_v PersonValidator.validCertainties certainty)
  then push_error errors (PersonValidator.event_path idx ".certainty")
         (js "Invalid certainty value")
  else mret ().

Definition validateEvents (events unions : value) : M value :=
  errors ← alloc (Arr []);
  is_array ← isArray events;
  if negb is_array then
    _ ← push_error errors (js "events") (js "Events must be an array");
    mret (VRef errors)
  else
    us ← (match unions with
          | VUndefined | VNull => mret []
          | _ => elements unions
          end);
    ids ← map_each (λ u, get u "union_id") us;
    let unionIds := set_values [] ids in
    es ← elements events;
    _ ← for_each_i (validateEvent errors unionIds) 0 es;
    mret (VRef errors).

(** One round of the [while] loop of [checkCircularParents]: [Some r] when
    the function returns [r]. *)
Definition walk_round (visited toCheck : loc) : M (option value) :=
  c ← read toCheck;
  match c with
  | Arr [] => mret (Some VNull)
  | Arr _ =>
      currentId ← pop toCheck;
      seen ← set_has (VRef visited) currentId;
      if seen : bool then
        e ← new_error (js "relationships")
              (js "Circular parent relationship detected");
        mret (Some e)
      else
        _ ← set_add visited currentId;
        allPeople ← get this "allPeople";
        ps ← elements allPeople;
        person ← find_first (λ p, id ← get p "id";
                                  mret (strict_eq id currentId)) ps;
        _ ← (match person with
             | Some p =>
                 if truthy_v p then
                   father_id ← get p "father_id";
                   _ ← (if truthy_v father_id
                        then v ← get p "father_id"; push toCheck v
                        else mret ());
                   mother_id ← get p "mother_id";
                   if truthy_v mother_id
                   then v ← get p "mother_id"; push toCheck v
                   else mret ()
                 else mret ()
             | None => mret ()
             end);
        mret None
  | _ => throw
  end.

Fixpoint walk_rounds (fuel : nat) (visited toCheck : loc) : M value :=
  match fuel with
  | O => throw
  | S fuel' =>
      r ← walk_round visited toCheck;
      match r with
      | Some result => mret result
      | None => walk_rounds fuel' visited toCheck
      end
  end.

Definition checkCircularParents (fuel : nat) (personId fatherId motherId : value)
  : M value :=
  visited ← alloc (SetC [personId]);
  toCheck ← alloc (Arr (List.filter truthy_v [fatherId; motherId]));
  walk_rounds fuel visited toCheck.

(** [v && !this.personExists(v)] *)
Definition dangling (v : value) : M bool :=
  if truthy_v v then b ← personExists v; mret (negb b) else mret false.

(** The body of [person.unions.forEach((union, idx) => ...)]. *)
Definition validateUnion (errors : loc) (idx : nat) (union : value) : M unit :=
  spouse_id ← get union "spouse_id";
  missing ← dangling spouse_id;
  _ ← (if missing : bool
       then push_error errors (PersonValidator.union_path idx ".spouse_id")
              (js "Spouse ID references non-existent person")
       else mret ());
  union_type ← get union "union_type";
  _ ← (if truthy_v union_type
          && negb (includes_v [js "marriage"; js "partnership"; js "common_law"]
                     union_type)
       then push_error errors (PersonValidator.union_path idx ".union_type")
              (js "Invalid union type")
       else mret ());
  status ← get union "status";
  if truthy_v status && negb (includes_v [js "current"; js "ended"] status)
  then push_error errors (PersonValidator.union_path idx ".status")
         (js "Union status must be current or ended")
  else mret ().

Definition validateRelationships (fuel : nat) (person : value) : M value :=
  errors ← alloc (Arr []);
  father_id ← get person "father_id";
  no_father ← dangling father_id;
  _ ← (if no_father : bool
       then push_error errors (js "father_id")
              (js "Father ID references non-existent person")
       else mret ());
  mother_id ← get person "mother_id";
  no_mother ← dangling mother_id;
  _ ← (if no_mother : bool
       then push_error errors (js "mother_id")
              (js "Mother ID references non-existent person")
       else mret ());
  id ← get person "id";
  father_id1 ← get person "father_id";
  mother_id1 ← get person "mother_id";
  circularError ← checkCircularParents fuel id father_id1 mother_id1;
  _ ← push_if errors circularError;
  unions ← get person "unions";
  is_array ← isArray unions;
  _ ← (if is_array : bool then
         unions1 ← get person "unions";
         us ← elements unions1;
         for_each_i (validateUnion errors) 0 us
       else mret ());
  mret (VRef errors).

Definition validate (fuel : nat) (person : value) (isNew : bool) : M value :=
  errors ← alloc (Arr []);
  id ← get person "id";
  currentId ← (if isNew then mret VNull else get person "id");
  idErrors ← validateId id currentId;
  _ ← push_all errors idErrors;
  names ← get person "names";
  nameErrors ← validateNames names;
  _ ← push_all errors nameErrors;
  gender ← get person "gender";
  genderError ← validateGender gender;
  _ ← push_if errors genderError;
  vital_status ← get person "vital_status";
  vitalStatusError ← validateVitalStatus vital_status;
  _ ← push_if errors vitalStatusError;
  events ← get person "events";
  _ ← (if truthy_v events then
         events1 ← get person "events";
         unions ← get person "unions";
         eventErrors ← validateEvents events1 unions;
         push_all errors eventErrors
       else mret ());
  relationshipErrors ← validateRelationships fuel person;
  _ ← push_all errors relationshipErrors;
  sibling_order ← get person "sibling_order";
  _ ← (match sibling_order with
       | VNull | VUndefined => mret ()
       | _ =>
           sibling_order1 ← get person "sibling_order";
           siblingError ← validateSiblingOrder sibling_order1;
           push_if errors siblingError
       end);
  mret (VRef errors).

End Validator.

(** [new PersonValidator(allPeople)] *)
Definition new_PersonValidator (allPeople : value) : M value :=
  ps ← elements allPeople;
  ids ← map_each (λ p, get p "id") ps;
  existingIds ← alloc (SetC (set_values [] ids));
  this ← alloc (Obj (list_to_map
           [ ("allPeople", allPeople); ("existingIds", VRef existingIds) ]));
  mret (VRef this).

End WithToString.

End Heap.

(** ** Frame conditions *)

Module Frame.
Import Heap.

(** An address that was free in [h0], the heap at the start of a call. *)
Definition is_new (h0 : gmap loc cell) (l : loc) : Prop := h0 !! l = None.

(** A reference to an object created since. *)
Definition new_ref (h0 : gmap loc cell) (v : value) : Prop :=
  ∃ l, v = VRef l ∧ is_new h0 l.

(** Running [m] from a heap that still holds every cell of [h0] ends in
    such a heap, and a result satisfies [Q]. *)
Definition keeps {A} (h0 : gmap loc cell) (m : M A) (Q : A → Prop) : Prop :=
  ∀ h, h0 ⊆ h → h0 ⊆ (m h).2 ∧ ∀ a, (m h).1 = Some a → Q a.

(** The arrays of the children map were all created by the call. *)
Definition new_entries (h0 : gmap loc cell) (m : list (value * loc)) : Prop :=
  Forall (λ e, is_new h0 e.2) m.

End Frame.

(** A heap that holds a roster of two records at address 1; the second
    record names the first as father and as spouse. *)
Module HeapExamples.
Import Heap.

Definition roster_heap : gmap loc cell :=
  list_to_map
    [ (1%positive, Arr [VRef 2%positive; VRef 3%positive]);
      (2%positive, Obj (list_to_map [("id", VStr (js "p1"))]));
      (3%positive, Obj (list_to_map
         [ ("id", VStr (js "p2")); ("father_id", VStr (js "p1"));
           ("unions", VRef 4%positive) ]));
      (4%positive, Arr [VRef 5%positive]);
      (5%positive, Obj (list_to_map [("spouse_id", VStr (js "p1"))])) ].

Definition roster : value := VRef 1%positive.

(** No number, object or array is printed in these runs. *)
Definition no_to_string (h : gmap loc cell) (v : value) : jsstring := [].

End HeapExamples.

(** The value a reference stands for, followed through the heap to a given
    depth: the structure that two results are compared by. *)
Module Structure.
Import Heap.

Inductive tree :=
  | Leaf (v : value)
  | Object (fields : list (string * tree))
  | Array (elems : list tree)
  | Cut.

Fixpoint decode (depth : nat) (h : gmap loc cell) (v : value) : tree :=
  match depth with
  | O => Cut
  | S depth' =>
      match v with
      | VRef l =>
          match h !! l with
          | Some (Obj fields) =>
              Object ((λ kv, (kv.1, decode depth' h kv.2)) <$> map_to_list fields)
          | Some (Arr elems) | Some (SetC elems) => Array (decode depth' h <$> elems)
          | None => Cut
          end
      | _ => Leaf v
      end
  end.

End Structure.

(** ** The card lines of the chart *)

Module Card.

(** [arr.join(', ')] *)
Fixpoint join_comma (parts : list jsstring) : jsstring :=
  match parts with
  | [] => []
  | [x] => x
  | x :: parts' => x ++ js ", " ++ join_comma parts'
  end.

(** The first card line: the name, with the nicknames in brackets. *)
Definition nameLine (d : Node.t) : jsstring :=
  let data := Node.data d in
  let name :=
    match Node.display_name data with
    | c :: s => c :: s
    | [] => trim (trim (Node.first_name data) ++ js " "
                  ++ trim (Node.last_name data))
    end in
  let name :=
    match Node.nicknames data with
    | [] => name
    | nicknames => name ++ js " [" ++ join_comma nicknames ++ js "]"
    end in
  match name with
  | [] => js "Unknown"
  | _ => name
  end.

Section WithDate.

Variable toLocaleDateString : jsstring → jsstring → option jsstring.
Variable language : I18n.Lang.


End WithDate.

End Card.

(** ** The adapter of the flat schema

    The earlier version of the adapter reads the flat fields of a record
    only, copies [original_code], and its relationship check knows two
    genders. *)

Module Legacy.

(** A record as the flat schema has it: the fields of [Person.t] and
    [original_code]. *)
Record person := mkPerson {
  fields : Person.t;
  original_code : nullable jsstring
}.

Record data_t := mkData {
  gender : jsstring;
  display_name : jsstring;
  first_name : jsstring;
  middle_name : jsstring;
  last_name : jsstring;
  other_first_names : list jsstring;
  nicknames : list jsstring;
  birth_date : nullable jsstring;
  birth_place : nullable jsstring;
  death_date : nullable jsstring;
  death_place : nullable jsstring;
  unions : list Union.t;
  biography : jsstring;
  sibling_order : nullable number;
  data_original_code : nullable jsstring
}.

Record t := mk {
  id : jsstring;
  data : data_t;
  rels : Node.rels_t
}.

(** [v?.date ?? null] and [v?.place ?? null] *)
Definition vital (v : nullable Vital.t) : nullable jsstring * nullable jsstring :=
  match v with
  | Val v => (or_null (Vital.date v), or_null (Vital.place v))
  | _ => (Null, Null)
  end.

(** The callback of [people.map(person => ...)]. *)
Definition toNode (childrenByParent : gmap jsstring (list jsstring))
    (person : person) : t :=
  let p := fields person in
  let parents := filter_Boolean [Person.father_id p; Person.mother_id p] in
  let spouses :=
    match Person.unions p with
    | Val unions => set_elements (filter_Boolean (Union.spouse_id <$> unions))
    | _ => []
    end in
  let children := default [] (childrenByParent !! Person.id p) in
  let data :=
    mkData
      (or_string (Person.gender p) (js "M"))
      (or_string (Person.display_name p) [])
      (or_string (Person.first_name p) [])
      (or_string (Person.middle_name p) [])
      (or_string (Person.last_name p) [])
      (or_empty (Person.other_first_names p))
      (or_empty (Person.nicknames p))
      (vital (Person.birth p)).1 (vital (Person.birth p)).2
      (vital (Person.death p)).1 (vital (Person.death p)).2
      (or_empty (Person.unions p))
      (match Person.biography p with Val b => b | _ => [] end)
      (or_null (Person.sibling_order p))
      (or_null (original_code person)) in
  mk (Person.id p) data (Node.mkRels parents spouses children).

Definition toFamilyChartData (people : list person) : list t :=
  match people with
  | [] => []
  | _ => toNode (Adapter.buildChildrenByParent (fields <$> people)) <$> people
  end.

(** The gender check on one node: M or F. *)
Definition genderErrors (person : t) : list jsstring :=
  if negb (includes [js "M"; js "F"] (Val (gender (data person))))
  then [js "Person " ++ id person ++ js " has invalid gender: "
        ++ gender (data person)]
  else [].

Definition nodeErrors (idSet : gset jsstring) (person : t) : list jsstring :=
  Adapter.missing idSet (id person) "parent" (Node.parents (rels person))
  ++ Adapter.missing idSet (id person) "spouse" (Node.spouses (rels person))
  ++ Adapter.missing idSet (id person) "child" (Node.children (rels person))
  ++ genderErrors person.

Definition validateRelationships (familyChartData : list t) : list jsstring :=
  let idSet : gset jsstring := list_to_set (id <$> familyChartData) in
  concat (nodeErrors idSet <$> familyChartData).


(** What the two versions agree on for every record: the graph and the
    gender. *)
Definition same_graph (old : t) (new : Node.t) : Prop :=
  id old = Node.id new
  ∧ rels old = Node.rels new
  ∧ gender (data old) = Node.gender (Node.data new).


End Legacy.

(** ** Events the validator accepts, and events it cannot handle *)

(** An event that makes [validateDateFormat] throw. *)
Definition throwing (e : Event.t) : Prop :=
  ∃ date precision,
    Event.date e = Val date ∧ date ≠ []
    ∧ Event.date_precision e = Val precision
    ∧ precision ∈ PersonValidator.object_prototype_keys.


(** ** The loop invariant of the ancestor walk

    [tr] lists the ids expanded so far; every parent reference read so far
    (those of the candidate, [frontier], and those of the expanded ids) is
    either one of the expanded ids or still on the stack. *)
Definition walk_inv (allPeople : list Person.t) (personId : jsstring)
    (frontier : list jsstring) (w : PersonValidator.walk) (tr : list jsstring)
  : Prop :=
  PersonValidator.visited w = ({[personId]} ∪ list_to_set tr)
  ∧ NoDup tr
  ∧ (personId ∉ tr)
  ∧ (frontier ++ (tr ≫= ParentGraph.pushed allPeople))
      ≡ₚ (tr ++ PersonValidator.toCheck w)
  ∧ ∀ x, x ∈ tr ++ PersonValidator.toCheck w →
         ParentGraph.reachable allPeople frontier x.

(** ** The order in which the ancestor walk expands ids

    Every parent reference of an expanded id is either still on the stack
    or expanded later than that id. *)
Definition walk_ordered (allPeople : list Person.t) (w : PersonValidator.walk)
    (tr : list jsstring) : Prop :=
  ∀ i x y, tr !! i = Some x → y ∈ ParentGraph.pushed allPeople x →
           y ∈ PersonValidator.toCheck w ∨ ∃ j, i < j ∧ tr !! j = Some y.

(** ** The shape of a slug *)

(** No two underscores next to each other. *)
Definition spaced (s : jsstring) : Prop :=
  ∀ i, s !! i = Some 95%N → s !! S i ≠ Some 95%N.

(** ** The base id of generatePersonId *)

(** [parts.join('_')] for the slugs of the primary name: the id the counter
    loop of [generatePersonId] starts from. *)
Definition baseId (toLowerCase : jsstring → jsstring) (primaryName : Name.t)
  : jsstring :=
  IdGenerator.join_underscore
    (filter (λ x, x ≠ [])
       [IdGenerator.slugify toLowerCase (Name.last_name primaryName);
        IdGenerator.slugify toLowerCase (Name.middle_name primaryName);
        IdGenerator.slugify toLowerCase (Name.first_name primaryName)]).

(** ** References to an id *)



(** ** Values a derived node shares with its record *)

(** The property [k] of the record [p], read in the heap [h0], is a truthy
    value only if [n.data.k], read in the heap [h'], is that same value:
    for an array the same reference, not a copy. *)
Definition shares (h0 h' : gmap Heap.loc Heap.cell) (k : string)
    (p n : Heap.value) : Prop :=
  ∀ u, (Heap.get p k h0).1 = Some u → Heap.truthy_v u = true →
       ∃ data, (Heap.get n "data" h').1 = Some data
               ∧ (Heap.get data k h').1 = Some u.

(** ** Properties updateIdReferences copies *)

(** When the record [p] is an object of the heap [h0], the property [k] of
    [p'], read in the heap [h'], is the value [p] has for it in [h0]. *)
Definition copies (h0 h' : gmap Heap.loc Heap.cell) (k : string)
    (p p' : Heap.value) : Prop :=
  ∀ l fields, p = Heap.VRef l → h0 !! l = Some (Heap.Obj fields) →
              (Heap.get p' k h').1 = (Heap.get p k h0).1.

(** While [updatePerson] builds the object [updated]: the heap still holds
    every cell of [h0], of which [updated] is none, and the object has the
    value [u] for the property [k]. *)
Definition building (h0 : gmap Heap.loc Heap.cell) (updated : Heap.loc)
    (k : string) (u : option Heap.value) (h : gmap Heap.loc Heap.cell) : Prop :=
  h0 ⊆ h ∧ h0 !! updated = None
  ∧ ∃ f, h !! updated = Some (Heap.Obj f) ∧ f !! k = u.

(* ===================================================================== *)

(** * Properties *)

(** Closes a decidable goal on closed terms by evaluating its decision. *)
Ltac decide_by_eval :=
  match goal with
  | |- ?P => refine (@bool_decide_unpack P _ _); vm_compute; exact I
  end.

(** ** Arrays used as stacks *)

Lemma array_pop_snoc {A} (l : list A) (x : A) : array_pop (l ++ [x]) = Some (x, l).
Proof. unfold array_pop. by rewrite reverse_snoc, reverse_involutive. Qed.

Lemma array_pop_Some {A} (l r : list A) (x : A) :
  array_pop l = Some (x, r) → l = r ++ [x].
Proof.
  unfold array_pop. destruct (reverse l) as [|y k] eqn:E; [done|].
  intros [= -> <-]. rewrite <- (reverse_involutive l), E.
  by rewrite reverse_cons.
Qed.

Lemma array_pop_None {A} (l : list A) : array_pop l = None → l = [].
Proof.
  unfold array_pop. destruct (reverse l) eqn:E; [|done].
  intros _. by rewrite <- (reverse_involutive l), E.
Qed.

Lemma push_if_truthy_spec (arr : list jsstring) (f m : nullable jsstring) :
  push_if_truthy (push_if_truthy arr f) m = arr ++ filter_Boolean [f; m].
Proof.
  destruct f as [| |[|? ?]], m as [| |[|? ?]]; simpl;
    rewrite ?app_nil_r, <- ?app_assoc; done.
Qed.

Lemma size_list_to_set_le (l : list jsstring) :
  size (list_to_set l : gset jsstring) ≤ length l.
Proof.
  induction l as [|x l IH].
  - by rewrite list_to_set_nil, size_empty.
  - rewrite list_to_set_cons, size_union_alt, size_singleton. simpl.
    assert (size (list_to_set l ∖ {[x]} : gset jsstring)
            ≤ size (list_to_set l : gset jsstring)) as Hle
      by (apply subseteq_size; set_solver).
    lia.
Qed.

Lemma filter_Boolean_length (l : list (nullable jsstring)) :
  length (filter_Boolean l) ≤ length l.
Proof.
  unfold filter_Boolean. induction l as [|[| |[|? ?]] l IH]; csimpl; lia.
Qed.

Lemma parentIds_length (p : Person.t) : length (Person.parentIds p) ≤ 2.
Proof. apply (filter_Boolean_length [_; _]). Qed.

(** ** The ancestor walk of checkCircularParents *)

Module WalkFacts.
Import PersonValidator ParentGraph.

Section Walk.
Context (allPeople : list Person.t).

Local Abbreviation pushed := (ParentGraph.pushed allPeople).

Lemma find_person_Some c p :
  find_person allPeople c = Some p → p ∈ allPeople ∧ Person.id p = c.
Proof.
  intros H. apply find_some in H as [Hin Hid].
  split; [by apply list_elem_of_In | by apply bool_decide_eq_true in Hid].
Qed.

Lemma pushed_edge c y : y ∈ pushed c ↔ parent_edge allPeople c y.
Proof.
  unfold ParentGraph.pushed, parent_edge. split.
  - destruct (find_person allPeople c) as [p|]; [eauto | by intros ?%elem_of_nil].
  - intros (p & -> & Hy). done.
Qed.

Lemma pushed_all_parent_ids c y : y ∈ pushed c → y ∈ all_parent_ids allPeople.
Proof.
  unfold ParentGraph.pushed, all_parent_ids.
  destruct (find_person allPeople c) as [p|] eqn:E; [|by intros ?%elem_of_nil].
  intros Hy. apply find_person_Some in E as [Hin _].
  apply elem_of_list_to_set, list_elem_of_bind. eauto.
Qed.

(** What one more round of the loop does. *)
Lemma walk_step_Continue w w' :
  walk_step allPeople w = Continue w' →
  ∃ c rest, toCheck w = rest ++ [c] ∧ c ∉ visited w
            ∧ visited w' = visited w ∪ {[c]}
            ∧ toCheck w' = rest ++ pushed c.
Proof.
  unfold walk_step, ParentGraph.pushed.
  destruct (array_pop (toCheck w)) as [[c rest]|] eqn:Epop; [|done].
  apply array_pop_Some in Epop.
  destruct (decide (c ∈ visited w)) as [|Hc]; [done|].
  destruct (find_person allPeople c) as [p|] eqn:Efind; intros [= <-];
    exists c, rest; simpl; rewrite Efind.
  - rewrite push_if_truthy_spec. by split_and!.
  - rewrite app_nil_r. by split_and!.
Qed.

Lemma walk_step_Return w r :
  walk_step allPeople w = Return r →
  (r = None ∧ toCheck w = [])
  ∨ (r = Some circular_error ∧ ∃ c rest, toCheck w = rest ++ [c] ∧ c ∈ visited w).
Proof.
  unfold walk_step.
  destruct (array_pop (toCheck w)) as [[c rest]|] eqn:Epop.
  - apply array_pop_Some in Epop.
    destruct (decide (c ∈ visited w)).
    + intros [= <-]. right. eauto.
    + by destruct (find_person allPeople c).
  - apply array_pop_None in Epop. intros [= <-]. by left.
Qed.

Lemma walk_step_decreases w w' :
  walk_step allPeople w = Continue w' →
  walk_measure allPeople w' < walk_measure allPeople w.
Proof.
  intros (c & rest & Ht & Hc & Hv & Ht')%walk_step_Continue.
  unfold walk_measure. rewrite Ht, Ht', Hv.
  pose proof (pushed_all_parent_ids c) as Hp.
  apply subset_size. split.
  - set_solver.
  - intros Hsub. specialize (Hsub c). set_solver.
Qed.

Lemma walk_loop_enough_fuel fuel w :
  walk_measure allPeople w < fuel → is_Some (walk_loop fuel allPeople w).
Proof.
  revert w. induction fuel as [|fuel IH]; intros w Hlt; [lia|]. simpl.
  destruct (walk_step allPeople w) as [r|w'] eqn:E; [by eexists|].
  apply IH. apply walk_step_decreases in E. lia.
Qed.

Lemma walk_loop_more_fuel fuel fuel' w r :
  walk_loop fuel allPeople w = Some r → fuel ≤ fuel' →
  walk_loop fuel' allPeople w = Some r.
Proof.
  revert fuel' w. induction fuel as [|fuel IH]; intros fuel' w; [done|].
  destruct fuel' as [|fuel']; [lia|]. simpl.
  destruct (walk_step allPeople w); [done|]. intros ? ?. apply IH; [done|lia].
Qed.

Lemma walk_measure_init personId fatherId motherId :
  walk_measure allPeople (walk_init personId fatherId motherId)
  < walk_bound allPeople.
Proof.
  unfold walk_measure, walk_bound, walk_init. simpl.
  set (F := filter_Boolean [fatherId; motherId]).
  assert (length F ≤ 2) by apply (filter_Boolean_length [fatherId; motherId]).
  assert (size (all_parent_ids allPeople) ≤ 2 * length allPeople) as HP.
  { unfold all_parent_ids. etrans; [apply size_list_to_set_le|].
    clear. induction allPeople as [|p l IH]; [simpl; lia|].
    rewrite bind_cons, length_app. cbn [length].
    pose proof (parentIds_length p). lia. }
  pose proof (size_list_to_set_le F) as HF.
  apply Nat.le_lt_trans
    with (size (list_to_set F ∪ all_parent_ids allPeople : gset jsstring)).
  { apply subseteq_size. set_solver. }
  rewrite size_union_alt.
  assert (size (all_parent_ids allPeople ∖ list_to_set F)
          ≤ size (all_parent_ids allPeople)) as Hle.
  { apply subseteq_size. set_solver. }
  lia.
Qed.

Lemma walk_trace_spec fuel w :
  NoDup (walk_trace fuel allPeople w)
  ∧ (∀ x, x ∈ walk_trace fuel allPeople w →
          x ∉ visited w ∧ reachable allPeople (toCheck w) x)
  ∧ length (walk_trace fuel allPeople w) ≤ walk_measure allPeople w.
Proof.
  revert w. induction fuel as [|fuel IH]; intros w; simpl.
  { split_and!; [apply NoDup_nil_2 | by intros x ?%elem_of_nil | simpl; lia]. }
  destruct (walk_step allPeople w) as [r|w'] eqn:E.
  { split_and!; [apply NoDup_nil_2 | by intros x ?%elem_of_nil | simpl; lia]. }
  pose proof (walk_step_decreases _ _ E) as Hdec.
  apply walk_step_Continue in E as (c & rest & Ht & Hc & Hv & Ht').
  rewrite Ht, array_pop_snoc.
  destruct (IH w') as (Hnd & Hin & Hlen). split_and!.
  - apply NoDup_cons_2; [|done]. intros Hc'%Hin. set_solver.
  - intros x [->|Hx]%elem_of_cons.
    + split; [done|]. exists c. split; [set_solver | done].
    + destruct (Hin x Hx) as (Hnv & s & Hs & Hrtc). split; [set_solver|].
      rewrite Ht' in Hs. apply elem_of_app in Hs as [Hs|Hs].
      * exists s. split; [set_solver | done].
      * exists c. split; [set_solver|].
        eapply rtc_l; [by apply pushed_edge | done].
  - simpl. lia.
Qed.

(** When the walk returns [null], nothing on the stack or already expanded
    has the candidate among its ancestors. *)
Lemma walk_loop_null_closed personId fuel w :
  personId ∈ visited w →
  (∀ x y, x ∈ visited w → x ≠ personId → parent_edge allPeople x y →
          (y ∈ visited w ∧ y ≠ personId) ∨ y ∈ toCheck w) →
  walk_loop fuel allPeople w = Some None →
  ∀ s x, s ∈ toCheck w ∨ (s ∈ visited w ∧ s ≠ personId) →
         rtc (parent_edge allPeople) s x → x ≠ personId.
Proof.
  revert w. induction fuel as [|fuel IH]; intros w Hpid Hinv; [done|]. simpl.
  destruct (walk_step allPeople w) as [r|w'] eqn:E.
  - intros [= ->]. apply walk_step_Return in E as [[_ Hempty]|[? _]]; [|done].
    rewrite Hempty in *. intros s x [?%elem_of_nil|Hs] Hrtc; [done|].
    induction Hrtc as [|a b z Hab Hbz IHr]; [tauto|].
    apply IHr. destruct (Hinv a b) as [?|?%elem_of_nil]; tauto.
  - intros Hloop.
    apply walk_step_Continue in E as (c & rest & Ht & Hc & Hv & Ht').
    assert (c ≠ personId) as Hne by (intros ->; done).
    intros s x Hs. apply (IH w'); [set_solver| |done|].
    + intros a b Ha Hane Hab. rewrite Hv, Ht'.
      rewrite Hv in Ha. apply elem_of_union in Ha as [Ha|Ha];
        [|apply elem_of_singleton in Ha as ->].
      * destruct (Hinv a b Ha Hane Hab) as [[? ?]|Hb]; [set_solver|].
        rewrite Ht in Hb. set_solver.
      * right. apply elem_of_app. right. by apply pushed_edge.
    + rewrite Hv, Ht'. rewrite Ht in Hs. set_solver.
Qed.

Lemma walk_loop_result fuel w r :
  walk_loop fuel allPeople w = Some r → r = None ∨ r = Some circular_error.
Proof.
  revert w. induction fuel as [|fuel IH]; intros w; [done|]. simpl.
  destruct (walk_step allPeople w) as [r'|w'] eqn:E; [|by apply IH].
  intros [= ->]. apply walk_step_Return in E. naive_solver.
Qed.

(** The walk always returns within [walk_bound] rounds. *)
Lemma checkCircularParents_returns personId fatherId motherId :
  walk_loop (walk_bound allPeople) allPeople (walk_init personId fatherId motherId)
  = Some (checkCircularParents allPeople personId fatherId motherId).
Proof.
  unfold checkCircularParents.
  destruct (walk_loop_enough_fuel (walk_bound allPeople)
              (walk_init personId fatherId motherId)) as [r ->]; [|done].
  apply walk_measure_init.
Qed.

(** Detection: when the candidate is reachable from its own parent
    references, the walk reports the circular relationship. *)
Lemma checkCircularParents_detects personId fatherId motherId :
  reachable allPeople (filter_Boolean [fatherId; motherId]) personId →
  checkCircularParents allPeople personId fatherId motherId = Some circular_error.
Proof.
  intros (s & Hs & Hrtc).
  pose proof (checkCircularParents_returns personId fatherId motherId) as Hret.
  destruct (walk_loop_result _ _ _ Hret) as [Hnone|Hsome]; [|done].
  rewrite Hnone in Hret. exfalso.
  refine (walk_loop_null_closed personId _ _ _ _ Hret s personId _ Hrtc eq_refl).
  - simpl. set_solver.
  - simpl. intros x y Hx Hne. set_solver.
  - by left.
Qed.

(** A roster member that is its own ancestor is reported. *)
Lemma on_cycle_detected (P : Person.t) :
  find_person allPeople (Person.id P) = Some P →
  on_cycle allPeople (Person.id P) →
  checkCircularParents allPeople (Person.id P) (Person.father_id P)
    (Person.mother_id P) = Some circular_error.
Proof.
  intros Hfind Hcycle. apply checkCircularParents_detects.
  assert (∃ y, parent_edge allPeople (Person.id P) y
               ∧ rtc (parent_edge allPeople) y (Person.id P)) as (y & Hy & Hrtc).
  { unfold on_cycle, ancestor in Hcycle.
    inversion Hcycle as [a b Hab|a b c Hab Hbc]; subst.
    - by exists (Person.id P).
    - exists b. split; [done | by apply tc_rtc]. }
  destruct Hy as (p & Hp & Hy). rewrite Hfind in Hp. injection Hp as <-.
  by exists y.
Qed.

(** With unique ids, [find] returns the roster member itself. *)
Lemma find_person_unique (P : Person.t) :
  unique_ids allPeople → P ∈ allPeople →
  find_person allPeople (Person.id P) = Some P.
Proof.
  unfold unique_ids, find_person. induction allPeople as [|q l IH].
  - by intros _ ?%elem_of_nil.
  - rewrite fmap_cons. intros [Hq Hnd]%NoDup_cons [->|HP]%elem_of_cons; simpl.
    + by rewrite bool_decide_eq_true_2.
    + rewrite bool_decide_eq_false_2; [by apply IH|].
      intros Heq. apply Hq. rewrite Heq. by apply list_elem_of_fmap_2.
Qed.

End Walk.
End WalkFacts.

Module ValidateFacts.
Import PersonValidator ParentGraph.

(** The circular-relationship error of [checkCircularParents] is among the
    violations [validate] returns. *)
Lemma validate_includes_circular allPeople person isNew errors :
  validate allPeople person isNew = Some errors →
  checkCircularParents allPeople (Person.id person) (Person.father_id person)
    (Person.mother_id person) = Some circular_error →
  circular_error ∈ errors.
Proof.
  unfold validate, validateRelationships. intros Hvalidate Hcircular.
  rewrite Hcircular in Hvalidate.
  destruct (match Person.events person with Val _ => _ | _ => _ end)
    as [eventErrors|]; [|done].
  simpl in Hvalidate. injection Hvalidate as <-.
  rewrite !elem_of_app. do 5 right. left. do 2 right.
  simpl. apply elem_of_cons. by left.
Qed.

(** Detection, for [validate]: a roster member that is its own ancestor
    gets the circular-relationship violation. *)
Lemma validate_reports_cycle allPeople P isNew errors :
  find_person allPeople (Person.id P) = Some P →
  on_cycle allPeople (Person.id P) →
  validate allPeople P isNew = Some errors →
  circular_error ∈ errors.
Proof.
  intros Hfind Hcycle Hvalidate.
  eapply validate_includes_circular; [done|].
  by apply WalkFacts.on_cycle_detected.
Qed.

End ValidateFacts.

(** C9: the ancestor walk of [checkCircularParents] returns on every roster,
    cyclic or not, within [walk_bound] rounds; the ids it marks as visited
    are pairwise distinct, never the candidate itself, all reachable from
    the candidate's parent references, and fewer than [walk_bound]. *)
Theorem checkCircularParents_terminates (allPeople : list Person.t)
    (personId : jsstring) (fatherId motherId : nullable jsstring) :
  let w0 := PersonValidator.walk_init personId fatherId motherId in
  (∃ r, (∀ fuel, PersonValidator.walk_bound allPeople ≤ fuel →
                 PersonValidator.walk_loop fuel allPeople w0 = Some r)
        ∧ PersonValidator.checkCircularParents allPeople personId fatherId motherId = r)
  ∧ ∀ fuel,
      NoDup (PersonValidator.walk_trace fuel allPeople w0)
      ∧ (∀ x, x ∈ PersonValidator.walk_trace fuel allPeople w0 →
              x ≠ personId
              ∧ ParentGraph.reachable allPeople
                  (filter_Boolean [fatherId; motherId]) x)
      ∧ length (PersonValidator.walk_trace fuel allPeople w0)
        < PersonValidator.walk_bound allPeople.
Proof.
  intros w0. split.
  - eexists. split; [|done]. intros fuel Hfuel.
    eapply WalkFacts.walk_loop_more_fuel; [|done].
    apply WalkFacts.checkCircularParents_returns.
  - intros fuel.
    destruct (WalkFacts.walk_trace_spec allPeople fuel w0) as (Hnd & Hin & Hlen).
    split_and!; [done| |].
    + intros x Hx. destruct (Hin x Hx) as [Hnv Hreach]. split; [|done].
      intros ->. apply Hnv. subst w0. simpl. set_solver.
    + pose proof (WalkFacts.walk_measure_init allPeople personId fatherId motherId).
      subst w0. lia.
Qed.

Lemma checkCircularParents_terminates_witness :
  ∃ r, PersonValidator.walk_loop (PersonValidator.walk_bound Rosters.two_cycle)
         Rosters.two_cycle
         (PersonValidator.walk_init (js "a") (Val (js "b")) Null) = Some r.
Proof.
  destruct (checkCircularParents_terminates Rosters.two_cycle (js "a")
              (Val (js "b")) Null) as [(r & Hr & _) _].
  exists r. apply Hr. apply le_n.
Defined.

Module CousinsFacts.
Import PersonValidator ParentGraph Rosters.

Lemma cousins_edge_generation x y :
  parent_edge cousins x y → generation x < generation y.
Proof.
  intros (p & Hfind & Hy).
  apply WalkFacts.find_person_Some in Hfind as [Hin <-].
  unfold cousins in Hin.
  repeat (apply elem_of_cons in Hin as [->|Hin]); [..|by apply elem_of_nil in Hin];
    cbv in Hy;
    repeat (apply elem_of_cons in Hy as [->|Hy]); try (by apply elem_of_nil in Hy);
    apply Nat.ltb_lt; vm_compute; reflexivity.
Qed.

Lemma cousins_ancestor_generation x y :
  ancestor cousins x y → generation x < generation y.
Proof.
  induction 1 as [x y H|x y z H _ IH].
  - by apply cousins_edge_generation.
  - apply cousins_edge_generation in H. lia.
Qed.

Lemma cousins_acyclic : acyclic cousins.
Proof. intros x Hx. apply cousins_ancestor_generation in Hx. lia. Qed.

Lemma cousins_unique_ids : unique_ids cousins.
Proof. unfold unique_ids. decide_by_eval. Qed.

End CousinsFacts.

(** C1, at the roster [cousins]: the parent graph is acyclic and ids are
    unique, yet validating [kid] reports a circular relationship, because
    the great-grandfather is reached along both lines of descent. *)
Theorem validate_reports_cycle_on_acyclic_roster :
  ParentGraph.unique_ids Rosters.cousins
  ∧ ParentGraph.acyclic Rosters.cousins
  ∧ Rosters.kid ∈ Rosters.cousins
  ∧ PersonValidator.checkCircularParents Rosters.cousins
      (Person.id Rosters.kid) (Person.father_id Rosters.kid)
      (Person.mother_id Rosters.kid) = Some PersonValidator.circular_error
  ∧ ∃ errors, PersonValidator.validate Rosters.cousins Rosters.kid false = Some errors
              ∧ PersonValidator.circular_error ∈ errors.
Proof.
  split_and!.
  - apply CousinsFacts.cousins_unique_ids.
  - apply CousinsFacts.cousins_acyclic.
  - unfold Rosters.cousins. constructor.
  - vm_compute. reflexivity.
  - eexists. split; [vm_compute; reflexivity|].
    decide_by_eval.
Qed.

(** The two cycles of the test plan are reported. *)
Example two_cycle_reported :
  PersonValidator.checkCircularParents Rosters.two_cycle (js "a") (Val (js "b")) Null
  = Some PersonValidator.circular_error.
Proof.
  apply WalkFacts.checkCircularParents_detects. exists (js "b"). split.
  - by left.
  - apply rtc_once. eexists. split; [reflexivity | by left].
Qed.

Example three_cycle_reported :
  PersonValidator.checkCircularParents Rosters.three_cycle (js "a") (Val (js "b")) Null
  = Some PersonValidator.circular_error.
Proof. vm_compute. reflexivity. Qed.

(** A roster without a shared ancestor raises nothing. *)
Example p1_p2_not_reported :
  PersonValidator.checkCircularParents Examples.p1_p2 (js "p2") (Val (js "p1")) Null
  = None.
Proof. vm_compute. reflexivity. Qed.

(** ** validateNames *)

Module NamesFacts.
Import PersonValidator.

(** No entry flagged current: the names violation is reported. *)
Lemma validateNames_no_current (names : list Name.t) :
  names ≠ [] → existsb is_current_true names = false →
  current_error ∈ validateNames (Val names).
Proof.
  intros Hne Hnone. destruct names as [|n ns]; [done|].
  unfold validateNames. rewrite Hnone. simpl. left.
Qed.

Lemma validateName_not_current_error (names : list Name.t) :
  current_error ∉ concat (imap validateName names).
Proof.
  intros (errs & Herrs & Hin)%list_elem_of_In%in_concat.
  apply list_elem_of_In, elem_of_lookup_imap in Herrs as (i & name & -> & _).
  apply list_elem_of_In in Hin. unfold validateName in Hin.
  repeat case_match; set_solver.
Qed.

(** Some entry flagged current: the current-flag violation is not reported,
    however many entries carry the flag. *)
Lemma validateNames_some_current (names : list Name.t) :
  existsb is_current_true names = true →
  current_error ∉ validateNames (Val names).
Proof.
  intros Hsome. destruct names as [|n ns]; [done|].
  unfold validateNames. rewrite Hsome. cbn [negb app].
  apply validateName_not_current_error.
Qed.

End NamesFacts.

(** C2, at the record [jane]: two of its names are flagged current and the
    record is otherwise complete; the validator reports no violation at
    all, where the claim requires a names violation. *)
Theorem validate_accepts_two_current_names :
  (∃ names, Person.names Examples.jane = Val names
            ∧ length (filter (λ n, Name.is_current n = Val true) names) = 2)
  ∧ PersonValidator.validateNames (Person.names Examples.jane) = []
  ∧ PersonValidator.validate [Examples.jane] Examples.jane false = Some [].
Proof.
  split_and!.
  - eexists. split; [reflexivity|]. vm_compute. reflexivity.
  - vm_compute. reflexivity.
  - vm_compute. reflexivity.
Qed.

(** ** generatePersonId *)

Module IdFacts.
Import IdGenerator.

Lemma js_inj (s1 s2 : string) : js s1 = js s2 → s1 = s2.
Proof.
  unfold js. intros H.
  rewrite <- (String.string_of_list_ascii_of_string s1),
          <- (String.string_of_list_ascii_of_string s2).
  f_equal. revert H.
  generalize (String.list_ascii_of_string s1) (String.list_ascii_of_string s2).
  induction l as [|a l IH]; intros [|b k]; try done.
  rewrite !fmap_cons. intros [= Hab Hlk]. f_equal; [|by apply IH].
  rewrite <- (Ascii.ascii_N_embedding a), <- (Ascii.ascii_N_embedding b).
  by rewrite Hab.
Qed.

Lemma candidate_inj (baseId : jsstring) (j k : N) :
  candidate baseId j = candidate baseId k → j = k.
Proof.
  unfold candidate. intros H. do 2 apply app_inv_head in H.
  apply js_inj in H. by apply (inj pretty) in H.
Qed.

Lemma candidate_ne_base (baseId : jsstring) (k : N) : candidate baseId k ≠ baseId.
Proof.
  unfold candidate. intros H. apply (f_equal length) in H.
  rewrite !length_app in H. simpl in H. lia.
Qed.

Lemma counter_loop_unfold (fuel : nat) existingIds baseId finalId counter :
  counter_loop fuel existingIds baseId finalId counter =
  if decide (finalId ∈ existingIds) then
    match fuel with
    | O => None
    | S fuel' =>
        counter_loop fuel' existingIds baseId (candidate baseId counter)
          (counter + 1)%N
    end
  else Some finalId.
Proof. by destruct fuel. Qed.

(** An id that none of the remaining candidates equals can be dropped from
    the set without changing what the loop does. *)
Lemma counter_loop_drop (fuel : nat) (existingIds : gset jsstring) baseId finalId counter x :
  finalId ≠ x → (∀ k, (counter ≤ k)%N → candidate baseId k ≠ x) →
  counter_loop fuel (existingIds ∖ {[x]}) baseId finalId counter
  = counter_loop fuel existingIds baseId finalId counter.
Proof.
  revert finalId counter. induction fuel as [|fuel IH]; intros finalId counter Hne Hc;
    rewrite !(counter_loop_unfold _ _ _ finalId).
  - repeat case_decide; set_solver.
  - rewrite IH; [|apply Hc; lia|intros k Hk; apply Hc; lia].
    repeat case_decide; set_solver.
Qed.

(** The loop returns once it has [size existingIds] rounds of fuel, and what
    it returns is a candidate that is not in the set. *)
Lemma counter_loop_returns (fuel : nat) (existingIds : gset jsstring) baseId finalId counter :
  size existingIds ≤ fuel →
  (∀ k, (counter ≤ k)%N → candidate baseId k ≠ finalId) →
  ∃ id, counter_loop fuel existingIds baseId finalId counter = Some id
        ∧ id ∉ existingIds
        ∧ (id = finalId ∨ ∃ k, (counter ≤ k)%N ∧ id = candidate baseId k).
Proof.
  revert existingIds finalId counter.
  induction fuel as [|fuel IH]; intros existingIds finalId counter Hsize Hc;
    rewrite counter_loop_unfold; case_decide as Hin;
    try (exists finalId; by split_and!; [| |left]).
  - assert (existingIds ≡ ∅) as Hempty by (apply size_empty_inv; lia).
    set_solver.
  - rewrite <- (counter_loop_drop _ _ _ _ _ finalId);
      [|apply Hc; lia|intros k Hk; apply Hc; lia].
    destruct (IH (existingIds ∖ {[finalId]}) (candidate baseId counter)
                (counter + 1)%N) as (id & Hid & Hnotin & Hform).
    + assert (existingIds = {[finalId]} ∪ existingIds ∖ {[finalId]}) as Heq.
      { apply set_eq. intros y. destruct (decide (y = finalId)); set_solver. }
      rewrite Heq, size_union, size_singleton in Hsize by set_solver.
      lia.
    + intros k Hk Heq%candidate_inj. lia.
    + exists id. split_and!; [done| |].
      * assert (id ≠ finalId).
        { destruct Hform as [->|(k & Hk & ->)]; apply Hc; lia. }
        set_solver.
      * right. destruct Hform as [->|(k & Hk & ->)].
        -- exists counter. split; [lia|done].
        -- exists k. split; [lia|done].
Qed.

Section Generate.
Context (toLowerCase : jsstring → jsstring) (now : Z).

(** When the primary name has a last and a first name, the generated id is
    not in [existingIds]. *)
Lemma generatePersonId_fresh person existingIds primary :
  primaryName person = Some primary →
  truthy (Name.last_name primary) = true →
  truthy (Name.first_name primary) = true →
  ∃ id, generatePersonId toLowerCase now person existingIds = Some id
        ∧ id ∉ existingIds.
Proof.
  intros Hprimary Hlast Hfirst. unfold generatePersonId.
  rewrite Hprimary, Hlast, Hfirst. cbn [negb orb]. cbv zeta.
  match goal with
  | |- context [counter_loop ?f ?S ?b ?b ?c] =>
      destruct (counter_loop_returns f S b b c) as (id & Hid & Hnotin & _)
  end; [lia | intros k _; apply candidate_ne_base | eauto].
Qed.


End Generate.
End IdFacts.

(** The example of the source: "Trần", "Hà", "Minh" gives [tran_ha_minh],
    and [tran_ha_minh_3] when that id and [tran_ha_minh_2] are taken. *)
Example generatePersonId_tran_ha_minh :
  let tran :=
    Name.mk Undefined (Val (js "Minh")) (Val (js "H" ++ [224%N]))
      (Val (js "Tr" ++ [7847%N] ++ js "n")) Undefined (Val true) in
  let person :=
    Person.mk [] (Val [tran]) Undefined Undefined Undefined Undefined Undefined
      Undefined Undefined Undefined Undefined Undefined Undefined Undefined
      Undefined Undefined Undefined Undefined in
  IdGenerator.generatePersonId IdGenerator.ascii_toLowerCase 0 person ∅
  = Some (js "tran_ha_minh")
  ∧ IdGenerator.generatePersonId IdGenerator.ascii_toLowerCase 0 person
      {[ js "tran_ha_minh"; js "tran_ha_minh_2" ]}
    = Some (js "tran_ha_minh_3").
Proof. split; vm_compute; reflexivity. Qed.

(** C3, at the record [nameless] (and at [no_first_name]): with the clock at
    [clock] and the placeholder made from that reading already in the set
    of existing ids, [generatePersonId] returns an id that is in the set. *)
Theorem generatePersonId_placeholder_collides (toLowerCase : jsstring → jsstring) :
  let existingIds : gset jsstring := {[ Examples.placeholder ]} in
  IdGenerator.generatePersonId toLowerCase Examples.clock Examples.nameless existingIds
    = Some Examples.placeholder
  ∧ IdGenerator.generatePersonId toLowerCase Examples.clock Examples.no_first_name
      existingIds = Some Examples.placeholder
  ∧ Examples.placeholder ∈ existingIds.
Proof.
  intros existingIds. split_and!.
  - vm_compute. reflexivity.
  - vm_compute. reflexivity.
  - subst existingIds. set_solver.
Qed.

(** ** updateIdReferences *)

Module UpdateFacts.
Import IdGenerator.






End UpdateFacts.




(** ** The children index of the adapter *)

Module AdapterFacts.
Import Adapter.

Lemma add_child_lookup (childId : jsstring) (m : gmap jsstring (list jsstring))
    (parentId k : jsstring) :
  default [] (add_child childId m parentId !! k)
  = default [] (m !! k) ++ (if decide (parentId = k) then [childId] else []).
Proof.
  unfold add_child. destruct (decide (parentId = k)) as [->|Hne].
  - rewrite lookup_alter_eq. destruct (m !! k) eqn:E; simpl.
    + by rewrite E.
    + by rewrite lookup_insert_eq.
  - rewrite lookup_alter_ne by done. rewrite app_nil_r.
    destruct (m !! parentId); [done|]. by rewrite lookup_insert_ne.
Qed.

Lemma add_children_lookup (childId : jsstring) (parentIds : list jsstring)
    (m : gmap jsstring (list jsstring)) (k : jsstring) :
  default [] (foldl (add_child childId) m parentIds !! k)
  = default [] (m !! k)
    ++ ((λ _, childId) <$> filter (λ parentId, parentId = k) parentIds).
Proof.
  revert m. induction parentIds as [|pid pids IH]; intros m; simpl.
  - by rewrite app_nil_r.
  - rewrite IH, add_child_lookup, filter_cons, <- app_assoc.
    by case_decide.
Qed.

Lemma fold_children_lookup (people : list Person.t)
    (m : gmap jsstring (list jsstring)) (k : jsstring) :
  default []
    (foldl (λ m person,
              foldl (add_child (Person.id person)) m (Person.parentIds person))
           m people !! k)
  = default [] (m !! k) ++ children_of people k.
Proof.
  revert m. induction people as [|p people IH]; intros m; simpl.
  - by rewrite app_nil_r.
  - rewrite IH, add_children_lookup, <- app_assoc. done.
Qed.

(** What [childrenByParent.get(k) || []] is after the first pass. *)
Lemma buildChildrenByParent_lookup (people : list Person.t) (k : jsstring) :
  default [] (buildChildrenByParent people !! k) = children_of people k.
Proof.
  unfold buildChildrenByParent. by rewrite fold_children_lookup, lookup_empty.
Qed.

Lemma occurrences_app (x : jsstring) (l1 l2 : list jsstring) :
  occurrences x (l1 ++ l2) = occurrences x l1 + occurrences x l2.
Proof. unfold occurrences. by rewrite filter_app, length_app. Qed.

Lemma occurrences_const (x y : jsstring) (l : list jsstring) :
  occurrences x ((λ _, y) <$> l) = if decide (y = x) then length l else 0.
Proof.
  unfold occurrences. induction l as [|a l IH].
  - by case_decide.
  - rewrite fmap_cons, filter_cons. case_decide; simpl; by rewrite IH.
Qed.

(** With unique ids, only the references of [Q] itself put [Q]'s id into a
    children list. *)
Lemma occurrences_children_of (people : list Person.t) (Q : Person.t)
    (k : jsstring) :
  NoDup (Person.id <$> people) →
  occurrences (Person.id Q) (children_of people k)
  = if decide (Person.id Q ∈ Person.id <$> people)
    then match find (λ p, bool_decide (Person.id p = Person.id Q)) people with
         | Some q => length (filter (λ parentId, parentId = k) (Person.parentIds q))
         | None => 0
         end
    else 0.
Proof.
  unfold children_of. induction people as [|p people IH].
  - intros _. by case_decide.
  - rewrite fmap_cons, bind_cons, occurrences_app, occurrences_const.
    intros [Hp Hnd]%NoDup_cons. rewrite (IH Hnd). cbn [find].
    destruct (decide (Person.id p = Person.id Q)) as [Heq|Hne].
    + rewrite bool_decide_eq_true_2 by done.
      rewrite (decide_False (P := Person.id Q ∈ Person.id <$> people))
        by (by rewrite <- Heq).
      rewrite decide_True by (rewrite Heq; constructor). lia.
    + rewrite bool_decide_eq_false_2 by done.
      destruct (decide (Person.id Q ∈ Person.id <$> people)) as [Hin|Hnin].
      * rewrite decide_True by (by constructor). done.
      * rewrite decide_False; [done|]. intros [?|?]%elem_of_cons; congruence.
Qed.

End AdapterFacts.

(** C7 as stated fails at the roster [same_parent]: [Q] names [P] as father
    and as mother, and [Q]'s id is listed twice among [P]'s children. *)
Lemma child_listed_twice :
  let P := bare_person (js "p") Null Null in
  let Q := bare_person (js "q") (Val (js "p")) (Val (js "p")) in
  P ∈ Examples.same_parent ∧ Q ∈ Examples.same_parent
  ∧ Person.father_id Q = Val (Person.id P)
  ∧ Adapter.toNode (Adapter.buildChildrenByParent Examples.same_parent) P
    ∈ Adapter.toFamilyChartData Examples.same_parent
  ∧ occurrences (Person.id Q)
      (Node.children (Node.rels
         (Adapter.toNode (Adapter.buildChildrenByParent Examples.same_parent) P)))
    = 2.
Proof.
  intros P Q. split_and!.
  - unfold Examples.same_parent. constructor.
  - unfold Examples.same_parent. constructor. constructor.
  - reflexivity.
  - unfold Adapter.toFamilyChartData, Examples.same_parent.
    rewrite fmap_cons. constructor.
  - vm_compute. reflexivity.
Qed.

(** C7, amended: in a roster with unique ids, when [Q.father_id] is the
    non-empty id of [P] and [Q.mother_id] is not, [Q]'s id occurs exactly
    once in the children list of the node derived for [P]. *)
Theorem child_listed_once (people : list Person.t) (P Q : Person.t) :
  ParentGraph.unique_ids people →
  P ∈ people → Q ∈ people →
  Person.id P ≠ [] →
  Person.father_id Q = Val (Person.id P) →
  Person.mother_id Q ≠ Val (Person.id P) →
  let node := Adapter.toNode (Adapter.buildChildrenByParent people) P in
  node ∈ Adapter.toFamilyChartData people
  ∧ Node.id node = Person.id P
  ∧ occurrences (Person.id Q) (Node.children (Node.rels node)) = 1.
Proof.
  intros Huniq HP HQ Hid Hfather Hmother node. subst node. split_and!.
  - unfold Adapter.toFamilyChartData. destruct people; [by apply elem_of_nil in HP|].
    by apply list_elem_of_fmap_2.
  - done.
  - cbn [Adapter.toNode Node.rels Node.children].
    rewrite AdapterFacts.buildChildrenByParent_lookup.
    rewrite AdapterFacts.occurrences_children_of by done.
    rewrite decide_True by (by apply list_elem_of_fmap_2).
    pose proof (WalkFacts.find_person_unique people Q Huniq HQ) as Hfind.
    unfold PersonValidator.find_person in Hfind. rewrite Hfind.
    unfold Person.parentIds. rewrite Hfather.
    destruct (Person.id P) as [|c s] eqn:E; [done|].
    destruct (Person.mother_id Q) as [| |[|c' s']]; csimpl;
      rewrite ?filter_cons, ?filter_nil; repeat case_decide; try done.
    congruence.
Qed.

Lemma child_listed_once_witness :
  occurrences (js "p2")
    (Node.children (Node.rels
       (Adapter.toNode (Adapter.buildChildrenByParent Examples.p1_p2)
          (bare_person (js "p1") Null Null)))) = 1.
Proof.
  refine (proj2 (proj2 (child_listed_once Examples.p1_p2
            (bare_person (js "p1") Null Null)
            (bare_person (js "p2") (Val (js "p1")) Null) _ _ _ _ _ _))).
  - unfold ParentGraph.unique_ids. decide_by_eval.
  - unfold Examples.p1_p2. constructor.
  - unfold Examples.p1_p2. constructor. constructor.
  - discriminate.
  - reflexivity.
  - discriminate.
Defined.

(** C10: a record whose gender is absent, [null] or empty is emitted with
    [data.gender = "M"], and the gender check of [validateRelationships]
    produces no diagnostic for that node. *)
Theorem falsy_gender_defaults_to_M (people : list Person.t) (i : nat)
    (person : Person.t) :
  people !! i = Some person →
  truthy (Person.gender person) = false →
  ∃ node, Adapter.toFamilyChartData people !! i = Some node
          ∧ Node.id node = Person.id person
          ∧ Node.gender (Node.data node) = js "M"
          ∧ Adapter.genderErrors node = [].
Proof.
  intros Hi Hfalsy. eexists. split_and!.
  - unfold Adapter.toFamilyChartData. destruct people; [done|].
    by rewrite list_lookup_fmap, Hi.
  - done.
  - cbn [Adapter.toNode Node.data Node.gender].
    by destruct (Person.gender person) as [| |[|? ?]].
  - unfold Adapter.genderErrors. cbn [Adapter.toNode Node.data Node.gender].
    by destruct (Person.gender person) as [| |[|? ?]].
Qed.

Lemma falsy_gender_defaults_to_M_witness :
  ∃ node, Adapter.toFamilyChartData Examples.p1_p2 !! 0 = Some node
          ∧ Node.id node = js "p1"
          ∧ Node.gender (Node.data node) = js "M"
          ∧ Adapter.genderErrors node = [].
Proof.
  exact (falsy_gender_defaults_to_M Examples.p1_p2 0
           (bare_person (js "p1") Null Null) eq_refl eq_refl).
Defined.

(** The end-to-end scenario: [p1.children = ["p2"]], [p2.parents = ["p1"]],
    no spouses, and no diagnostic from the relationship check. *)
Example toFamilyChartData_p1_p2 :
  Node.rels <$> Adapter.toFamilyChartData Examples.p1_p2
  = [ Node.mkRels [] [] [js "p2"]; Node.mkRels [js "p1"] [] [] ]
  ∧ Adapter.validateRelationships (Adapter.toFamilyChartData Examples.p1_p2) = [].
Proof. split; vm_compute; reflexivity. Qed.

(** ** The date display policy *)

(** C8: [formatDate] maps [null] (and [undefined]) to the "unknown" token,
    the empty string to the "living" token for a death date and to the
    "unknown" token otherwise; in every language the two tokens differ. *)
Theorem formatDate_empty_string_policy
    (toLocaleDateString : jsstring → jsstring → option jsstring)
    (language : I18n.Lang) :
  (∀ isDeathDate,
     Chart.formatDate toLocaleDateString language Null isDeathDate
       = I18n.t language "unknown"
     ∧ Chart.formatDate toLocaleDateString language Undefined isDeathDate
       = I18n.t language "unknown")
  ∧ Chart.formatDate toLocaleDateString language (Val []) true
    = I18n.t language "living"
  ∧ Chart.formatDate toLocaleDateString language (Val []) false
    = I18n.t language "unknown"
  ∧ Chart.formatDate toLocaleDateString language (Val []) true
    ≠ Chart.formatDate toLocaleDateString language (Val []) false.
Proof.
  split_and!; [done..|].
  destruct language; vm_compute; intros [=].
Qed.

(** ** Determinism *)




(** ** Frame reasoning *)

Module FrameFacts.
Import Heap Frame.

Section Rules.
Context (h0 : gmap loc cell).

Local Abbreviation is_new := (Frame.is_new h0).
Local Abbreviation new_ref := (Frame.new_ref h0).
Local Abbreviation keeps := (Frame.keeps h0).
Local Abbreviation new_entries := (Frame.new_entries h0).

Lemma keeps_ret {A} (a : A) (Q : A → Prop) : Q a → keeps (mret a) Q.
Proof. intros HQ h Hh. split; [done|]. by intros ? [= <-]. Qed.

Lemma keeps_bind {A B} (m : M A) (f : A → M B) (P : A → Prop) (Q : B → Prop) :
  keeps m P → (∀ a, P a → keeps (f a) Q) → keeps (m ≫= f) Q.
Proof.
  intros Hm Hf h Hh. destruct (Hm h Hh) as [Hsub HP].
  unfold mbind, M_bind. destruct (m h) as [[a|] h'] eqn:E; simpl in *.
  - by apply Hf; [apply HP|].
  - split; [done|]. by intros ? [=].
Qed.

Lemma keeps_weaken {A} (m : M A) (P Q : A → Prop) :
  keeps m P → (∀ a, P a → Q a) → keeps m Q.
Proof. intros Hm HPQ h Hh. destruct (Hm h Hh). naive_solver. Qed.

Lemma keeps_throw {A} (Q : A → Prop) : keeps throw Q.
Proof. intros h Hh. split; [done|]. by intros ? [=]. Qed.

Lemma keeps_alloc (c : cell) : keeps (alloc c) is_new.
Proof.
  intros h Hh. unfold alloc. simpl.
  assert (h !! fresh (dom h) = None) as Hfresh
    by (apply not_elem_of_dom, is_fresh).
  split.
  - etrans; [done|]. by apply insert_subseteq.
  - intros l [= <-]. unfold is_new.
    destruct (h0 !! fresh (dom h)) eqn:E; [|done].
    eapply lookup_weaken in E; [|done]. congruence.
Qed.

Lemma keeps_read (l : loc) : keeps (read l) (λ _, True).
Proof. intros h Hh. done. Qed.

Lemma keeps_write (l : loc) (c : cell) : is_new l → keeps (write l c) (λ _, True).
Proof.
  intros Hl h Hh. unfold write. destruct (h !! l); simpl; [|done].
  split; [|done]. by apply insert_subseteq_r.
Qed.

Lemma keeps_get (v : value) (k : string) : keeps (get v k) (λ _, True).
Proof.
  destruct v; try (by apply keeps_ret); try apply keeps_throw.
  eapply keeps_bind; [apply keeps_read|]. intros c _. by apply keeps_ret.
Qed.

Lemma keeps_isArray (v : value) : keeps (isArray v) (λ _, True).
Proof.
  destruct v; try (by apply keeps_ret).
  eapply keeps_bind; [apply keeps_read|]. intros c _. by apply keeps_ret.
Qed.

Lemma keeps_elements (v : value) : keeps (elements v) (λ _, True).
Proof.
  destruct v; try apply keeps_throw.
  eapply keeps_bind; [apply keeps_read|]. intros [] _;
    (by apply keeps_ret) || apply keeps_throw.
Qed.

Lemma keeps_spread (v : value) : keeps (spread v) (λ _, True).
Proof.
  destruct v; try (by apply keeps_ret).
  eapply keeps_bind; [apply keeps_read|]. intros c _. by apply keeps_ret.
Qed.

Lemma keeps_set_prop (l : loc) (k : string) (v : value) :
  is_new l → keeps (set_prop l k v) (λ _, True).
Proof.
  intros Hl. eapply keeps_bind; [apply keeps_read|].
  intros [] _; (by apply keeps_write) || apply keeps_throw.
Qed.

Lemma keeps_push (l : loc) (v : value) : is_new l → keeps (push l v) (λ _, True).
Proof.
  intros Hl. eapply keeps_bind; [apply keeps_read|].
  intros [] _; (by apply keeps_write) || apply keeps_throw.
Qed.

Lemma keeps_for_each {A} (body : A → M unit) (l : list A) :
  (∀ x, keeps (body x) (λ _, True)) → keeps (for_each body l) (λ _, True).
Proof.
  intros Hbody. induction l as [|x l IH]; simpl.
  - by apply keeps_ret.
  - eapply keeps_bind; [apply Hbody|]. by intros _ _.
Qed.

Lemma keeps_map_each {A B} (f : A → M B) (l : list A) (Q : B → Prop) :
  (∀ x, keeps (f x) Q) → keeps (map_each f l) (Forall Q).
Proof.
  intros Hf. induction l as [|x l IH]; simpl.
  - by apply keeps_ret.
  - eapply keeps_bind; [apply Hf|]. intros y Hy.
    eapply keeps_bind; [apply IH|]. intros ys Hys.
    apply keeps_ret. by constructor.
Qed.

Lemma keeps_get_index (v : value) (i : nat) : keeps (get_index v i) (λ _, True).
Proof.
  destruct v; try (by apply keeps_ret); try apply keeps_throw.
  eapply keeps_bind; [apply keeps_read|]. intros c _. by apply keeps_ret.
Qed.

Lemma keeps_get_opt (v : value) (k : string) : keeps (get_opt v k) (λ _, True).
Proof. destruct v; try (by apply keeps_ret); apply keeps_get. Qed.

Lemma keeps_ToString (to_string : gmap loc cell → value → jsstring) (v : value) :
  keeps (ToString to_string v) (λ _, True).
Proof. intros h Hh. done. Qed.

Lemma keeps_find_first (pred : value → M bool) (l : list value) :
  (∀ x, keeps (pred x) (λ _, True)) → keeps (find_first pred l) (λ _, True).
Proof.
  intros Hpred. induction l as [|x l IH]; simpl.
  - by apply keeps_ret.
  - eapply keeps_bind; [apply Hpred|]. intros [] _; [by apply keeps_ret|done].
Qed.

Lemma keeps_fold_each {A S} (body : S → A → M S) (I : S → Prop) (s : S)
    (l : list A) :
  (∀ s x, I s → keeps (body s x) I) → I s → keeps (fold_each body s l) I.
Proof.
  intros Hbody. revert s. induction l as [|x l IH]; intros s Hs; simpl.
  - by apply keeps_ret.
  - eapply keeps_bind; [by apply Hbody|]. intros s' Hs'. by apply IH.
Qed.

Lemma map_get_new (m : list (value * loc)) (k : value) (arr : loc) :
  new_entries m → map_get m k = Some arr → is_new arr.
Proof.
  unfold map_get, new_entries. intros Hm Hget.
  destruct (find _ m) as [e|] eqn:E; [|done]. injection Hget as <-.
  apply find_some in E as [Hin _]. rewrite Forall_forall in Hm.
  by apply Hm, list_elem_of_In.
Qed.

Lemma keeps_set_has (s v : value) : keeps (set_has s v) (λ _, True).
Proof.
  destruct s; try apply keeps_throw.
  eapply keeps_bind; [apply keeps_read|].
  intros [] _; (by apply keeps_ret) || apply keeps_throw.
Qed.

Lemma keeps_set_add (l : loc) (v : value) :
  is_new l → keeps (set_add l v) (λ _, True).
Proof.
  intros Hl. eapply keeps_bind; [apply keeps_read|].
  intros [] _; (by apply keeps_write) || apply keeps_throw.
Qed.

Lemma keeps_pop (l : loc) : is_new l → keeps (pop l) (λ _, True).
Proof.
  intros Hl. eapply keeps_bind; [apply keeps_read|].
  intros [| |] _; try apply keeps_throw.
  destruct (array_pop elems) as [[x rest]|]; [|by apply keeps_ret].
  eapply keeps_bind; [by apply keeps_write|]. intros _ _. by apply keeps_ret.
Qed.

Lemma keeps_some_each (pred : value → M bool) (l : list value) :
  (∀ x, keeps (pred x) (λ _, True)) → keeps (some_each pred l) (λ _, True).
Proof.
  intros Hpred. induction l as [|x l IH]; simpl.
  - by apply keeps_ret.
  - eapply keeps_bind; [apply Hpred|]. intros [] _; [by apply keeps_ret|done].
Qed.

Lemma keeps_for_each_i {A} (body : nat → A → M unit) (idx : nat) (l : list A) :
  (∀ i x, keeps (body i x) (λ _, True)) → keeps (for_each_i body idx l) (λ _, True).
Proof.
  intros Hbody. revert idx. induction l as [|x l IH]; intros idx; simpl.
  - by apply keeps_ret.
  - eapply keeps_bind; [apply Hbody|]. by intros _ _.
Qed.

Lemma keeps_new_error (field message : jsstring) :
  keeps (new_error field message) new_ref.
Proof.
  eapply keeps_bind; [apply keeps_alloc|]. intros l Hl.
  apply keeps_ret. by exists l.
Qed.

Lemma keeps_push_error (errors : loc) (field message : jsstring) :
  is_new errors → keeps (push_error errors field message) (λ _, True).
Proof.
  intros Hl. eapply keeps_bind; [apply keeps_new_error|].
  intros e _. by apply keeps_push.
Qed.

Lemma keeps_push_all (errors : loc) (other : value) :
  is_new errors → keeps (push_all errors other) (λ _, True).
Proof.
  intros Hl. eapply keeps_bind; [apply keeps_elements|]. intros es _.
  apply keeps_for_each. intros x. by apply keeps_push.
Qed.

Lemma keeps_push_if (errors : loc) (e : value) :
  is_new errors → keeps (push_if errors e) (λ _, True).
Proof.
  intros Hl. unfold push_if. destruct (truthy_v e);
    [by apply keeps_push | by apply keeps_ret].
Qed.

End Rules.
End FrameFacts.

(** One step of a frame proof: split a bind, use the rule of a primitive,
    or take a branch apart. *)
Ltac keeps_step :=
  lazymatch goal with
  | |- Frame.keeps _ (mret _) _ => apply FrameFacts.keeps_ret
  | |- Frame.keeps _ Heap.throw _ => apply FrameFacts.keeps_throw
  | |- Frame.keeps _ (Heap.alloc _) _ =>
      first [ apply FrameFacts.keeps_alloc
            | eapply FrameFacts.keeps_weaken; [apply FrameFacts.keeps_alloc | done] ]
  | |- Frame.keeps _ (Heap.read _) _ => apply FrameFacts.keeps_read
  | |- Frame.keeps _ (Heap.get _ _) _ => apply FrameFacts.keeps_get
  | |- Frame.keeps _ (Heap.isArray _) _ => apply FrameFacts.keeps_isArray
  | |- Frame.keeps _ (Heap.elements _) _ => apply FrameFacts.keeps_elements
  | |- Frame.keeps _ (Heap.spread _) _ => apply FrameFacts.keeps_spread
  | |- Frame.keeps _ (Heap.set_prop _ _ _) _ => apply FrameFacts.keeps_set_prop
  | |- Frame.keeps _ (Heap.push _ _) _ => apply FrameFacts.keeps_push
  | |- Frame.keeps _ (Heap.push_error _ _ _) _ => apply FrameFacts.keeps_push_error
  | |- Frame.keeps _ (Heap.push_all _ _) _ => apply FrameFacts.keeps_push_all
  | |- Frame.keeps _ (Heap.push_if _ _) _ => apply FrameFacts.keeps_push_if
  | |- Frame.keeps _ (Heap.new_error _ _) _ =>
      first [ apply FrameFacts.keeps_new_error
            | eapply FrameFacts.keeps_weaken; [apply FrameFacts.keeps_new_error | done] ]
  | |- Frame.keeps _ (Heap.set_has _ _) _ => apply FrameFacts.keeps_set_has
  | |- Frame.keeps _ (Heap.set_add _ _) _ => apply FrameFacts.keeps_set_add
  | |- Frame.keeps _ (Heap.pop _) _ => apply FrameFacts.keeps_pop
  | |- Frame.keeps _ (Heap.some_each _ _) _ =>
      apply FrameFacts.keeps_some_each; intros ?
  | |- Frame.keeps _ (Heap.for_each_i _ _ _) _ =>
      apply FrameFacts.keeps_for_each_i; intros ? ?
  | |- Frame.keeps _ (Heap.get_index _ _) _ => apply FrameFacts.keeps_get_index
  | |- Frame.keeps _ (Heap.get_opt _ _) _ => apply FrameFacts.keeps_get_opt
  | |- Frame.keeps _ (Heap.ToString _ _) _ => apply FrameFacts.keeps_ToString
  | |- Frame.keeps _ (Heap.find_first _ _) _ =>
      apply FrameFacts.keeps_find_first; intros ?
  | |- Frame.keeps _ (Heap.for_each _ _) _ => apply FrameFacts.keeps_for_each; intros ?
  | |- Frame.keeps _ (Heap.map_each _ _) _ => apply FrameFacts.keeps_map_each; intros ?
  | |- Frame.keeps _ ((if _ then _ else _) ≫= _) _ =>
      apply (FrameFacts.keeps_bind _ _ _ (λ _, True)); [|intros ? _]
  | |- Frame.keeps _ ((match _ with _ => _ end) ≫= _) _ =>
      apply (FrameFacts.keeps_bind _ _ _ (λ _, True)); [|intros ? _]
  | |- Frame.keeps _ (_ ≫= _) _ => eapply FrameFacts.keeps_bind; [|intros ? ?]
  | |- Frame.keeps _ (if ?b then _ else _) _ => destruct b
  | |- Frame.keeps _ (match ?x with _ => _ end) _ => destruct x
  end.

Ltac keeps_auto :=
  repeat first
    [ keeps_step
    | done
    | by eexists ].

Module HeapFacts.
Import Heap Frame FrameFacts.

Section Facts.
Context (h0 : gmap loc cell).

Lemma updateUnion_keeps oldId newId union :
  keeps h0 (updateUnion oldId newId union) (new_ref h0).
Proof. unfold updateUnion. keeps_auto. Qed.

Lemma updatePerson_keeps oldId newId person :
  keeps h0 (updatePerson oldId newId person) (new_ref h0).
Proof.
  unfold updatePerson. keeps_auto.
  eapply keeps_weaken; [apply updateUnion_keeps|done].
Qed.

Lemma updateIdReferences_keeps allPeople oldId newId :
  keeps h0 (updateIdReferences allPeople oldId newId) (new_ref h0).
Proof.
  unfold updateIdReferences. keeps_auto.
  eapply keeps_weaken; [apply updatePerson_keeps|done].
Qed.

Context (to_string : gmap loc cell → value → jsstring).

Lemma getDisplayName_keeps person :
  keeps h0 (getDisplayName to_string person) (λ _, True).
Proof. unfold getDisplayName. keeps_auto. Qed.

Lemma date_place_keeps date place :
  keeps h0 (date_place date place) (λ _, True).
Proof. unfold date_place. keeps_auto. Qed.

Lemma getEventData_keeps events eventType :
  keeps h0 (getEventData events eventType) (λ _, True).
Proof. unfold getEventData. keeps_auto; apply date_place_keeps. Qed.

Lemma vitalData_keeps person eventType legacy :
  keeps h0 (vitalData person eventType legacy) (λ _, True).
Proof.
  unfold vitalData. keeps_auto;
    first [apply getEventData_keeps | apply date_place_keeps].
Qed.

Lemma name_field_keeps person k : keeps h0 (name_field person k) (λ _, True).
Proof. unfold name_field. keeps_auto. Qed.

Lemma or_new_array_keeps v : keeps h0 (or_new_array v) (λ _, True).
Proof. unfold or_new_array. keeps_auto. Qed.

Lemma add_child_keeps person childrenByParent parentId :
  new_entries h0 childrenByParent →
  keeps h0 (add_child person childrenByParent parentId) (new_entries h0).
Proof.
  intros Hnew. unfold add_child.
  apply (keeps_bind _ _ _ (new_entries h0)).
  - destruct (map_get childrenByParent parentId).
    + by apply keeps_ret.
    + eapply keeps_bind; [apply keeps_alloc|]. intros arr Harr.
      apply keeps_ret. apply Forall_app. split; [done|]. by constructor.
  - intros m Hm. destruct (map_get m parentId) as [arr|] eqn:E;
      [|apply keeps_throw].
    apply (map_get_new h0) in E; [|done]. keeps_auto.
Qed.

Lemma index_person_keeps childrenByParent person :
  new_entries h0 childrenByParent →
  keeps h0 (index_person childrenByParent person) (new_entries h0).
Proof.
  intros Hnew. unfold index_person. keeps_auto.
  apply keeps_fold_each; [|done]. intros. by apply add_child_keeps.
Qed.

Lemma toNode_keeps childrenByParent person :
  keeps h0 (toNode to_string childrenByParent person) (new_ref h0).
Proof.
  unfold toNode.
  repeat first
    [ apply getDisplayName_keeps | apply vitalData_keeps
    | apply name_field_keeps | apply or_new_array_keeps
    | keeps_step | done | by eexists ].
Qed.

Lemma toFamilyChartData_keeps people :
  keeps h0 (toFamilyChartData to_string people) (new_ref h0).
Proof.
  unfold toFamilyChartData. keeps_auto.
  - apply (keeps_fold_each h0 _ (new_entries h0)); [|by constructor].
    intros. by apply index_person_keeps.
  - apply toNode_keeps.
Qed.

Context (this : value).

Lemma personExists_keeps personId :
  keeps h0 (personExists this personId) (λ _, True).
Proof. unfold personExists. keeps_auto. Qed.

Lemma dangling_keeps v : keeps h0 (dangling this v) (λ _, True).
Proof. unfold dangling. keeps_auto. apply personExists_keeps. Qed.

Lemma validateId_keeps id currentId :
  keeps h0 (validateId this id currentId) (new_ref h0).
Proof.
  unfold validateId. keeps_auto; try apply personExists_keeps.
Qed.

Lemma validateName_keeps errors idx name :
  is_new h0 errors → keeps h0 (validateName errors idx name) (λ _, True).
Proof. intros Hl. unfold validateName. keeps_auto. Qed.

Lemma validateNames_keeps names :
  keeps h0 (validateNames names) (new_ref h0).
Proof.
  unfold validateNames. keeps_auto. by apply validateName_keeps.
Qed.

Lemma validateGender_keeps gender :
  keeps h0 (validateGender gender) (λ _, True).
Proof. unfold validateGender. keeps_auto. Qed.

Lemma validateVitalStatus_keeps vitalStatus :
  keeps h0 (validateVitalStatus vitalStatus) (λ _, True).
Proof. unfold validateVitalStatus. keeps_auto. Qed.

Lemma validateSiblingOrder_keeps siblingOrder :
  keeps h0 (validateSiblingOrder siblingOrder) (λ _, True).
Proof. unfold validateSiblingOrder. keeps_auto. Qed.

Lemma validateDateFormat_keeps date precision eventIdx :
  keeps h0 (validateDateFormat to_string date precision eventIdx) (λ _, True).
Proof. unfold validateDateFormat. keeps_auto. Qed.

Lemma validateEvent_keeps errors unionIds idx event :
  is_new h0 errors →
  keeps h0 (validateEvent to_string errors unionIds idx event) (λ _, True).
Proof.
  intros Hl. unfold validateEvent.
  repeat first [ apply validateDateFormat_keeps | keeps_step | done ].
Qed.

Lemma validateEvents_keeps events unions :
  keeps h0 (validateEvents to_string events unions) (new_ref h0).
Proof.
  unfold validateEvents. keeps_auto. by apply validateEvent_keeps.
Qed.

Lemma walk_round_keeps visited toCheck :
  is_new h0 visited → is_new h0 toCheck →
  keeps h0 (walk_round this visited toCheck) (λ _, True).
Proof. intros Hv Ht. unfold walk_round. keeps_auto. Qed.

Lemma walk_rounds_keeps fuel visited toCheck :
  is_new h0 visited → is_new h0 toCheck →
  keeps h0 (walk_rounds this fuel visited toCheck) (λ _, True).
Proof.
  intros Hv Ht. induction fuel as [|fuel IH]; simpl; [apply keeps_throw|].
  eapply keeps_bind; [by apply walk_round_keeps|].
  intros [r|] _; [by apply keeps_ret | done].
Qed.

Lemma checkCircularParents_keeps fuel personId fatherId motherId :
  keeps h0 (checkCircularParents this fuel personId fatherId motherId) (λ _, True).
Proof.
  unfold checkCircularParents. keeps_auto. by apply walk_rounds_keeps.
Qed.

Lemma validateUnion_keeps errors idx union :
  is_new h0 errors → keeps h0 (validateUnion this errors idx union) (λ _, True).
Proof.
  intros Hl. unfold validateUnion.
  repeat first [ apply dangling_keeps | keeps_step | done ].
Qed.

Lemma validateRelationships_keeps fuel person :
  keeps h0 (validateRelationships this fuel person) (new_ref h0).
Proof.
  unfold validateRelationships.
  repeat first
    [ apply dangling_keeps | apply checkCircularParents_keeps
    | apply validateUnion_keeps | keeps_step | done | by eexists ].
Qed.

Lemma validate_keeps fuel person isNew :
  keeps h0 (validate to_string this fuel person isNew) (new_ref h0).
Proof.
  unfold validate.
  repeat first
    [ apply validateId_keeps | apply validateNames_keeps
    | apply validateGender_keeps | apply validateVitalStatus_keeps
    | apply validateEvents_keeps | apply validateRelationships_keeps
    | apply validateSiblingOrder_keeps
    | keeps_step | done | by eexists ].
Qed.

End Facts.
End HeapFacts.

(** A run on [roster_heap]: the reference of the second record is
    rewritten in the copy, and the record that was passed in still holds the
    old id. *)
Example updateIdReferences_on_heap :
  let run :=
    (output ← Heap.updateIdReferences HeapExamples.roster (Heap.VStr (js "p1"))
                (Heap.VStr (js "p9"));
     copy ← Heap.get_index output 1;
     after ← Heap.get copy "father_id";
     before ← Heap.get (Heap.VRef 3%positive) "father_id";
     mret (after, before)) HeapExamples.roster_heap in
  run.1 = Some (Heap.VStr (js "p9"), Heap.VStr (js "p1")).
Proof. vm_compute. reflexivity. Qed.

(** The adapter on [roster_heap]: the first node lists the second record as
    its child; the [unions] of the second node's data is the very array of
    the input record (address 4), shared and not copied. *)
Example toFamilyChartData_on_heap :
  let run :=
    (output ← Heap.toFamilyChartData HeapExamples.no_to_string HeapExamples.roster;
     node1 ← Heap.get_index output 0;
     rels ← Heap.get node1 "rels";
     children ← Heap.get rels "children";
     kids ← Heap.elements children;
     node2 ← Heap.get_index output 1;
     data ← Heap.get node2 "data";
     unions ← Heap.get data "unions";
     mret (kids, unions)) HeapExamples.roster_heap in
  run.1 = Some ([Heap.VStr (js "p2")], Heap.VRef 4%positive).
Proof. vm_compute. reflexivity. Qed.

(** The validator on [roster_heap] returns an array of three violations for
    the second record (names, gender, vital status). *)
Example validate_on_heap :
  let run :=
    (this ← Heap.new_PersonValidator HeapExamples.roster;
     errors ← Heap.validate HeapExamples.no_to_string this 10
                (Heap.VRef 3%positive) false;
     es ← Heap.elements errors;
     Heap.map_each (λ e, Heap.get e "field") es) HeapExamples.roster_heap in
  run.1 = Some [Heap.VStr (js "names"); Heap.VStr (js "gender");
                Heap.VStr (js "vital_status")].
Proof. vm_compute. reflexivity. Qed.

(** Two calls of the adapter in a row on [roster_heap]: the two graphs are
    different objects with the same structure, and the roster has the same
    structure before and after. *)
Example toFamilyChartData_twice_on_heap :
  let run :=
    (first ← Heap.toFamilyChartData HeapExamples.no_to_string HeapExamples.roster;
     second ← Heap.toFamilyChartData HeapExamples.no_to_string HeapExamples.roster;
     mret (first, second)) HeapExamples.roster_heap in
  match run.1 with
  | Some (first, second) =>
      first ≠ second
      ∧ Structure.decode 6 run.2 first = Structure.decode 6 run.2 second
      ∧ Structure.decode 6 run.2 HeapExamples.roster
        = Structure.decode 6 HeapExamples.roster_heap HeapExamples.roster
  | None => False
  end.
Proof. vm_compute. split_and!; [by intros [=] | reflexivity | reflexivity]. Qed.

(** C5: [updateIdReferences], [toFamilyChartData] and
    [PersonValidator.validate] change no object that exists when they are
    called: every cell of the heap they start from is the same afterwards
    (so the roster, the person record and the validator are unchanged), also
    when the call throws; and what they return is a newly created object. *)
Theorem core_functions_leave_input_unchanged (h : gmap Heap.loc Heap.cell) :
  (∀ allPeople oldId newId,
     let r := Heap.updateIdReferences allPeople oldId newId h in
     h ⊆ r.2 ∧ ∀ v, r.1 = Some v → Frame.new_ref h v)
  ∧ (∀ to_string people,
       let r := Heap.toFamilyChartData to_string people h in
       h ⊆ r.2 ∧ ∀ v, r.1 = Some v → Frame.new_ref h v)
  ∧ (∀ to_string this fuel person isNew,
       let r := Heap.validate to_string this fuel person isNew h in
       h ⊆ r.2 ∧ ∀ v, r.1 = Some v → Frame.new_ref h v).
Proof.
  split_and!; intros.
  - by apply (HeapFacts.updateIdReferences_keeps h).
  - by apply (HeapFacts.toFamilyChartData_keeps h).
  - by apply (HeapFacts.validate_keeps h).
Qed.

Lemma core_functions_leave_input_unchanged_witness :
  ∃ v, (Heap.updateIdReferences HeapExamples.roster (Heap.VStr (js "p1"))
          (Heap.VStr (js "p9")) HeapExamples.roster_heap).1 = Some v
       ∧ Frame.new_ref HeapExamples.roster_heap v.
Proof.
  eexists. split; [vm_compute; reflexivity|].
  apply (proj1 (core_functions_leave_input_unchanged HeapExamples.roster_heap)
           HeapExamples.roster (Heap.VStr (js "p1")) (Heap.VStr (js "p9"))).
  vm_compute. reflexivity.
Defined.

(** * Further properties of the code *)

(** ** More on the validator *)

Module ValidatorMore.
Import PersonValidator.

Lemma is_id_char_not_space (c : N) : is_id_char c = true → is_space c = false.
Proof.
  unfold is_id_char, is_lower, is_digit, is_char, is_space.
  rewrite !orb_true_iff, !andb_true_iff, !N.leb_le, N.eqb_eq.
  intros Hc. apply orb_false_iff. split.
  - apply bool_decide_eq_false. rewrite !elem_of_cons, elem_of_nil. lia.
  - apply andb_false_iff. rewrite !N.leb_gt. lia.
Qed.

Lemma drop_spaces_id (s : jsstring) :
  (∀ c s', s = c :: s' → is_space c = false) → drop_spaces s = s.
Proof.
  destruct s as [|c s']; [done|]. intros H. simpl. by rewrite (H c s').
Qed.

Lemma id_format_chars (s : jsstring) :
  id_format s = true → s ≠ [] ∧ Forall (λ c, is_id_char c = true) s.
Proof.
  destruct s as [|c s]; [done|]. unfold id_format. intros H. split; [done|].
  apply Forall_forall. intros x Hx%list_elem_of_In.
  by eapply forallb_forall in H.
Qed.

(** A string in the id format has no white space to trim. *)
Lemma id_format_trim (s : jsstring) : id_format s = true → trim s = s.
Proof.
  intros [_ Hall]%id_format_chars. unfold trim.
  rewrite (drop_spaces_id s).
  - rewrite drop_spaces_id; [apply reverse_involutive|].
    intros c s' Hrev. apply is_id_char_not_space.
    rewrite Forall_forall in Hall. apply Hall.
    apply elem_of_reverse. rewrite Hrev. by left.
  - intros c s' ->. apply is_id_char_not_space. by inversion Hall.
Qed.

(** An id in the id format that is the record's own or not in the roster
    passes every check of [validateId]. *)
Lemma validateId_format_fresh (allPeople : list Person.t) (id : jsstring)
    (currentId : nullable jsstring) :
  id_format id = true →
  currentId = Val id ∨ id ∉ existingIds allPeople →
  validateId allPeople id currentId = [].
Proof.
  intros Hformat Hfresh. unfold validateId, personExists.
  destruct id as [|c s]; [done|].
  rewrite (id_format_trim _ Hformat), Hformat.
  rewrite bool_decide_eq_false_2 by done. simpl.
  destruct Hfresh as [->|Hnotin].
  - by rewrite (bool_decide_eq_false_2 (Val (c :: s) ≠ Val (c :: s))) by (by intros ?).
  - rewrite (bool_decide_eq_false_2 (_ ∈ _)) by done. by rewrite andb_false_r.
Qed.

(** When [validateId] reports nothing. *)
Lemma validateId_nil (allPeople : list Person.t) (id : jsstring)
    (currentId : nullable jsstring) :
  PersonValidator.validateId allPeople id currentId = []
  ↔ id_format id = true
    ∧ (currentId = Val id ∨ id ∉ PersonValidator.existingIds allPeople).
Proof.
  split; [|intros [? ?]; by apply ValidatorMore.validateId_format_fresh].
  unfold PersonValidator.validateId, PersonValidator.personExists.
  destruct id as [|c s]; [done|].
  destruct (id_format (c :: s)) eqn:Hformat; simpl.
  - rewrite (ValidatorMore.id_format_trim _ Hformat).
    rewrite bool_decide_eq_false_2 by done. simpl.
    destruct (decide (Val (c :: s) = currentId)) as [<-|Hne]; [by auto|].
    rewrite (bool_decide_eq_true_2 (Val (c :: s) ≠ currentId)) by done. simpl.
    case_bool_decide as Hin; [done|by auto].
  - intros H. exfalso. by destruct (bool_decide _), (bool_decide _ && _).
Qed.

End ValidatorMore.

(** X1: [validateId] accepts an id exactly when it is in the id format
    (non-empty, lowercase letters, digits and underscores) and is either the
    record's current id or not an id of the roster. *)
Theorem validateId_accepts_iff (allPeople : list Person.t) (id : jsstring)
    (currentId : nullable jsstring) :
  PersonValidator.validateId allPeople id currentId = []
  ↔ id_format id = true
    ∧ (currentId = Val id ∨ id ∉ PersonValidator.existingIds allPeople).
Proof. apply ValidatorMore.validateId_nil. Qed.

(** ** validateNames, validateEvents and the exception of validate *)

Module EventsMore.
Import PersonValidator.

Lemma concat_imap_nil {A B} (f : nat → A → list B) (l : list A) :
  concat (imap f l) = [] ↔ ∀ i x, l !! i = Some x → f i x = [].
Proof.
  revert f. induction l as [|y l IH]; intros f.
  - split; [by intros _ i x ?|done].
  - rewrite imap_cons. simpl. rewrite app_nil, IH. split.
    + intros [H0 HS] [|i] x; simpl; [by intros [= <-]|apply HS].
    + intros H. split; [by apply (H 0)|]. intros i x Hi. by apply (H (S i)).
Qed.

Lemma is_current_true_spec (n : Name.t) :
  is_current_true n = true ↔ Name.is_current n = Val true.
Proof.
  unfold is_current_true. destruct (Name.is_current n) as [| |[]]; naive_solver.
Qed.

(** What one name has to satisfy. *)
Lemma validateName_nil (idx : nat) (name : Name.t) :
  validateName idx name = []
  ↔ truthy (Name.first_name name) = true
    ∧ truthy (Name.last_name name) = true
    ∧ (truthy (Name.type name) = true →
       includes name_validTypes (Name.type name) = true).
Proof.
  unfold validateName.
  destruct (truthy (Name.first_name name)), (truthy (Name.last_name name)),
    (truthy (Name.type name)), (includes name_validTypes (Name.type name));
    simpl; split; try done; try (by intros (? & ? & ?)); try (by intros (_ & _ & H); discriminate H).
Qed.

Lemma validateDateFormat_None (date precision : jsstring) (idx : nat) :
  validateDateFormat date precision idx = None ↔ precision ∈ object_prototype_keys.
Proof.
  unfold validateDateFormat. case_decide as Hdc.
  - split; [done|]. intros Hin. exfalso. revert Hin.
    destruct Hdc as [-> | ->]; decide_by_eval.
  - case_decide as Hkey; [done|]. split; [|done].
    destruct (formats precision); [destruct (negb _)|]; done.
Qed.

Lemma validateEvent_None (unionIds : list (nullable jsstring)) (idx : nat)
    (e : Event.t) :
  validateEvent unionIds idx e = None ↔ throwing e.
Proof.
  unfold validateEvent, throwing.
  destruct (Event.date e) as [| |[|c date]]; simpl; try (split; [done|]);
    try (by intros (? & ? & [=] & _)); try (by intros (? & ? & [= <-] & ? & _)).
  destruct (Event.date_precision e) as [| |[|k precision]]; simpl;
    try (split; [done|]); try (by intros (? & ? & _ & _ & [=] & _)).
  - intros (? & ? & _ & _ & [= <-] & Hin). revert Hin. decide_by_eval.
  - destruct (validateDateFormat (c :: date) (k :: precision) idx) eqn:E; simpl.
    + split; [done|]. intros (? & ? & _ & _ & [= <-] & Hin).
      apply (validateDateFormat_None (c :: date) _ idx) in Hin. congruence.
    + apply validateDateFormat_None in E. split; [|done]. intros _.
      by exists (c :: date), (k :: precision).
Qed.

Lemma validateEvents_from_None (unionIds : list (nullable jsstring)) (idx : nat)
    (events : list Event.t) :
  validateEvents_from unionIds idx events = None ↔ ∃ e, e ∈ events ∧ throwing e.
Proof.
  revert idx. induction events as [|e events IH]; intros idx; simpl.
  - split; [done|]. by intros (? & ?%elem_of_nil & _).
  - destruct (validateEvent unionIds idx e) as [errors|] eqn:E; simpl.
    + destruct (validateEvents_from unionIds (S idx) events) eqn:E'; simpl.
      * split; [done|]. intros (e' & [->|Hin]%elem_of_cons & Hthrow).
        -- apply (validateEvent_None unionIds idx) in Hthrow. congruence.
        -- assert (validateEvents_from unionIds (S idx) events = None)
             by (apply IH; eauto). congruence.
      * split; [|done]. intros _. apply IH in E' as (e' & ? & ?).
        exists e'. split; [by right|done].
    + split; [|done]. intros _. exists e. split; [by left|].
      by apply validateEvent_None in E.
Qed.




(** When [validateNames] reports nothing. *)
Lemma validateNames_nil (names : nullable (list Name.t)) :
  PersonValidator.validateNames names = []
  ↔ ∃ ns, names = Val ns ∧ ns ≠ []
          ∧ (∃ n, n ∈ ns ∧ Name.is_current n = Val true)
          ∧ ∀ n, n ∈ ns →
              truthy (Name.first_name n) = true
              ∧ truthy (Name.last_name n) = true
              ∧ (truthy (Name.type n) = true →
                 includes PersonValidator.name_validTypes (Name.type n) = true).
Proof.
  unfold PersonValidator.validateNames.
  destruct names as [| |[|n ns]]; try (split; [done|by intros (? & [=] & _)]).
  { split; [done|]. by intros (? & [= <-] & ? & _). }
  rewrite app_nil, EventsMore.concat_imap_nil.
  destruct (existsb PersonValidator.is_current_true (n :: ns)) eqn:Hex.
  - apply existsb_exists in Hex as (c & Hc%list_elem_of_In & Hcur%EventsMore.is_current_true_spec).
    split.
    + intros [_ Hall]. exists (n :: ns). split_and!; [done|done|by eauto|].
      intros x (i & Hi)%list_elem_of_lookup.
      by apply (EventsMore.validateName_nil i), Hall.
    + intros (? & [= <-] & _ & _ & Hall). split; [done|].
      intros i x Hi. apply EventsMore.validateName_nil, Hall.
      by eapply list_elem_of_lookup_2.
  - split; [by intros [? _]|]. intros (? & [= <-] & _ & (c & Hc & Hcur) & _).
    assert (existsb PersonValidator.is_current_true (n :: ns) = true); [|congruence].
    apply existsb_exists. exists c.
    split; [by apply list_elem_of_In | by apply EventsMore.is_current_true_spec].
Qed.

End EventsMore.

(** X2: [validateNames] accepts exactly the non-empty arrays in which some
    entry is flagged current, every entry has a non-empty first and last
    name, and every non-empty type is one of the seven name types. *)
Theorem validateNames_accepts_iff (names : nullable (list Name.t)) :
  PersonValidator.validateNames names = []
  ↔ ∃ ns, names = Val ns ∧ ns ≠ []
          ∧ (∃ n, n ∈ ns ∧ Name.is_current n = Val true)
          ∧ ∀ n, n ∈ ns →
              truthy (Name.first_name n) = true
              ∧ truthy (Name.last_name n) = true
              ∧ (truthy (Name.type n) = true →
                 includes PersonValidator.name_validTypes (Name.type n) = true).
Proof. apply EventsMore.validateNames_nil. Qed.



(** X4: on a record of the document schema, [validate] throws (the
    [TypeError] of [regex.test]) exactly when the record has an events array
    with an event whose date is non-empty and whose [date_precision] names a
    property of [Object.prototype]; in every other case it returns its list
    of violations. *)
Theorem validate_throws_iff (allPeople : list Person.t) (person : Person.t)
    (isNew : bool) :
  PersonValidator.validate allPeople person isNew = None
  ↔ ∃ events e date precision,
      Person.events person = Val events ∧ e ∈ events
      ∧ Event.date e = Val date ∧ date ≠ []
      ∧ Event.date_precision e = Val precision
      ∧ precision ∈ PersonValidator.object_prototype_keys.
Proof.
  unfold PersonValidator.validate.
  destruct (Person.events person) as [| |events]; simpl;
    try (split; [done|by intros (? & ? & ? & ? & [=] & _)]).
  unfold PersonValidator.validateEvents.
  destruct (PersonValidator.validateEvents_from _ 0 events) eqn:E; simpl.
  - split; [done|]. intros (? & e & date & precision & [= <-] & He & Hthrow).
    assert (PersonValidator.validateEvents_from
              match Person.unions person with Val us => Union.union_id <$> us | _ => [] end
              0 events = None); [|congruence].
    apply EventsMore.validateEvents_from_None. exists e. split; [done|].
    by exists date, precision.
  - split; [|done]. intros _.
    apply EventsMore.validateEvents_from_None in E as (e & He & date & precision & ?).
    by exists events, e, date, precision.
Qed.

(** ** What checkCircularParents accepts *)

Module TreeFacts.
Import PersonValidator ParentGraph.

Lemma submseteq_NoDup {A} (l k : list A) : l ⊆+ k → NoDup k → NoDup l.
Proof.
  intros [k' Hk]%submseteq_Permutation Hnd. rewrite Hk in Hnd.
  by apply NoDup_app in Hnd as [? _].
Qed.

Section Tree.
Context (allPeople : list Person.t) (personId : jsstring)
        (fatherId motherId : nullable jsstring).

Local Abbreviation pushed := (ParentGraph.pushed allPeople).
Local Abbreviation frontier := (filter_Boolean [fatherId; motherId]).

Local Abbreviation walk_inv := (walk_inv allPeople personId frontier).

Lemma walk_inv_init : walk_inv (walk_init personId fatherId motherId) [].
Proof.
  unfold walk_inv, walk_init. cbn [visited toCheck]. split_and!.
  - by rewrite list_to_set_nil, (right_id_L ∅ (∪)).
  - apply NoDup_nil_2.
  - apply not_elem_of_nil.
  - by rewrite app_nil_r.
  - intros x Hx. rewrite app_nil_l in Hx. by exists x.
Qed.

Lemma walk_inv_step (w w' : walk) (tr : list jsstring) :
  walk_inv w tr → walk_step allPeople w = Continue w' →
  ∃ c rest, toCheck w = rest ++ [c] ∧ toCheck w' = rest ++ pushed c
            ∧ walk_inv w' (tr ++ [c]).
Proof.
  intros (Hv & Hnd & Hpid & Hperm & Hreach)
         (c & rest & Ht & Hc & Hv' & Ht')%WalkFacts.walk_step_Continue.
  exists c, rest. split; [done|]. split; [done|]. unfold walk_inv. rewrite Hv', Ht'. rewrite Ht in Hperm, Hreach.
  assert (c ∉ tr) as Hctr by (rewrite Hv in Hc; set_solver).
  assert (c ≠ personId) as Hne by (rewrite Hv in Hc; set_solver).
  split_and!.
  - rewrite Hv, list_to_set_app_L. set_solver.
  - apply NoDup_app. split_and!; [done| |apply NoDup_singleton].
    intros x Hx ->%list_elem_of_singleton. done.
  - rewrite elem_of_app, list_elem_of_singleton. naive_solver.
  - rewrite bind_app, bind_cons, app_nil_r, (assoc (++) frontier), Hperm.
    rewrite <- !(assoc (++)). f_equiv.
    rewrite (assoc (++) rest), (comm (++) rest [c]). by rewrite <- (assoc (++)).
  - intros x Hx.
    assert (reachable allPeople frontier c) as (s & Hs & Hsc)
      by (apply Hreach; set_solver).
    rewrite !elem_of_app in Hx. destruct Hx as [[Hx|Hx]|[Hx|Hx]].
    + apply Hreach. set_solver.
    + apply Hreach. set_solver.
    + apply Hreach. set_solver.
    + exists s. split; [done|]. eapply rtc_r; [done|]. by apply WalkFacts.pushed_edge.
Qed.

(** How a finished walk relates the parent references it read to the ids
    it expanded. *)
Lemma walk_loop_tree (fuel : nat) (w : walk) (tr : list jsstring)
    (r : option ValidationError) :
  walk_inv w tr → walk_loop fuel allPeople w = Some r →
  ∃ tr', NoDup tr' ∧ (personId ∉ tr')
         ∧ (∀ x, x ∈ tr' → reachable allPeople frontier x)
         ∧ match r with
           | None => frontier ++ (tr' ≫= pushed) ≡ₚ tr'
           | Some _ =>
               ∃ rest c, frontier ++ (tr' ≫= pushed) ≡ₚ tr' ++ rest ++ [c]
                         ∧ (c = personId ∨ c ∈ tr')
                         ∧ reachable allPeople frontier c
           end.
Proof.
  revert w tr. induction fuel as [|fuel IH]; intros w tr Hinv; [done|]. simpl.
  destruct (walk_step allPeople w) as [r'|w'] eqn:E.
  - intros [= ->]. destruct Hinv as (Hv & Hnd & Hpid & Hperm & Hreach).
    exists tr. split_and!; [done|done|intros x Hx; apply Hreach; set_solver|].
    apply WalkFacts.walk_step_Return in E
      as [[-> Hempty]|[-> (c & rest & Ht & Hc)]].
    + by rewrite Hempty, app_nil_r in Hperm.
    + exists rest, c. rewrite Ht in Hperm, Hreach. split_and!; [done| |].
      * rewrite Hv in Hc. set_solver.
      * apply Hreach. set_solver.
  - intros Hloop. destruct (walk_inv_step _ _ _ Hinv E) as (c & _ & _ & _ & Hinv').
    by apply (IH w' (tr ++ [c])).
Qed.

(** When the references read are exactly the ids expanded, the expanded
    ids are all the reachable ones. *)
Lemma tree_closed (tr : list jsstring) :
  frontier ++ (tr ≫= pushed) ≡ₚ tr →
  ∀ x, reachable allPeople frontier x → x ∈ tr.
Proof.
  intros Hperm x (s & Hs & Hrtc).
  assert (s ∈ tr) as Hstr by (rewrite <- Hperm; set_solver).
  clear Hs. induction Hrtc as [|a b z Hab Hbz IHr]; [done|].
  apply IHr. rewrite <- Hperm. apply elem_of_app. right.
  apply list_elem_of_bind. exists a. split; [|done]. by apply WalkFacts.pushed_edge.
Qed.

End Tree.
End TreeFacts.

(** X5: [checkCircularParents] returns [null] exactly when the candidate is
    not reachable from its own parent references and no id is referenced
    twice among the parent references of the candidate and of the ancestors
    that can be reached from them: the parent references read from any
    duplicate-free list of reachable ids, together with the candidate's
    own, are pairwise distinct.  So the check accepts exactly the
    candidates whose ancestors form a tree. *)
Theorem checkCircularParents_null_iff (allPeople : list Person.t)
    (personId : jsstring) (fatherId motherId : nullable jsstring) :
  let frontier := filter_Boolean [fatherId; motherId] in
  PersonValidator.checkCircularParents allPeople personId fatherId motherId = None
  ↔ ¬ ParentGraph.reachable allPeople frontier personId
    ∧ ∀ l, NoDup l →
           (∀ x, x ∈ l → ParentGraph.reachable allPeople frontier x) →
           NoDup (frontier ++ (l ≫= ParentGraph.pushed allPeople)).
Proof.
  intros frontier.
  pose proof (WalkFacts.checkCircularParents_returns allPeople personId
                fatherId motherId) as Hret.
  destruct (TreeFacts.walk_loop_tree allPeople personId fatherId motherId _ _ [] _
              (TreeFacts.walk_inv_init allPeople personId fatherId motherId) Hret)
    as (tr & Hnd & Hpid & Hreach & Hres).
  destruct (PersonValidator.checkCircularParents allPeople personId fatherId motherId)
    as [e|].
  - split; [done|]. intros [Hno Htree]. exfalso.
    destruct Hres as (rest & c & Hperm & Hc & Hrc).
    specialize (Htree tr Hnd Hreach). fold frontier in Hperm.
    rewrite Hperm in Htree.
    apply NoDup_app in Htree as (_ & Hdisj & _).
    destruct Hc as [->|Hc]; [done|].
    apply (Hdisj c Hc). set_solver.
  - split; [|done]. intros _.
    pose proof (TreeFacts.tree_closed allPeople fatherId motherId tr Hres) as Hclosed.
    split.
    + intros Hp. by apply Hpid, Hclosed.
    + intros l Hl Hlr.
      assert (l ⊆+ tr) as Hsub by (apply NoDup_submseteq; [done|]; intros x ?; by apply Hclosed, Hlr).
      apply (TreeFacts.submseteq_NoDup _ tr); [|done].
      fold frontier in Hres. etrans; [|by rewrite <- Hres].
      apply submseteq_skips_l. by apply bind_submseteq.
Qed.

(** ** Sibling order and year dates *)

Module NumberFacts.

Lemma isInteger_spec (q : Q) :
  isInteger (Num q) = true ↔ ∃ n : Z, (q == inject_Z n)%Q.
Proof.
  unfold isInteger. rewrite Z.eqb_eq. unfold Qeq. simpl. split.
  - intros Hrem. exists (Z.quot (Qnum q) (Zpos (Qden q))).
    pose proof (Z.quot_rem' (Qnum q) (Zpos (Qden q))) as Hq. lia.
  - intros [n Hn]. rewrite Z.mul_1_r in Hn. rewrite Hn. by apply Z.rem_mul.
Qed.

Lemma at_least_one_spec (q : Q) (n : Z) :
  (q == inject_Z n)%Q →
  num_lt (Num q) (num_of_Z 1) = false ↔ (1 ≤ n)%Z.
Proof.
  intros Hq. unfold num_lt, num_of_Z. rewrite negb_false_iff, Qle_bool_iff, Hq.
  unfold Qle. simpl. lia.
Qed.

(** When [validateSiblingOrder] reports nothing. *)
Lemma validateSiblingOrder_None (siblingOrder : number) :
  PersonValidator.validateSiblingOrder siblingOrder = None
  ↔ ∃ (q : Q) (n : Z), siblingOrder = Num q ∧ (q == inject_Z n)%Q ∧ (1 ≤ n)%Z.
Proof.
  unfold PersonValidator.validateSiblingOrder.
  destruct siblingOrder as [q| |neg].
  - destruct (isInteger (Num q)) eqn:Hint.
    + apply NumberFacts.isInteger_spec in Hint as [n Hn].
      pose proof (NumberFacts.at_least_one_spec q n Hn) as Hone.
      destruct (num_lt (Num q) (num_of_Z 1)); cbn [orb negb].
      * split; [done|]. intros (q' & n' & [= <-] & Hn' & Hle).
        assert (n = n') as -> by (apply inject_Z_injective; by rewrite <- Hn, <- Hn').
        assert (true = false) by (by apply Hone). done.
      * split; [|done]. intros _. exists q, n. split_and!; [done|done|by apply Hone].
    + rewrite orb_true_r. split; [done|]. intros (q' & n' & [= <-] & Hn' & _).
      assert (isInteger (Num q) = true) by (apply NumberFacts.isInteger_spec; eauto).
      congruence.
  - split; [by destruct (num_lt NaN (num_of_Z 1))|]. by intros (? & ? & [=] & _).
  - split; [by destruct (num_lt (Infinity neg) (num_of_Z 1))|].
    by intros (? & ? & [=] & _).
Qed.

End NumberFacts.

(** X6: [validateSiblingOrder] accepts a number exactly when it is an
    integer that is at least 1; a fraction, zero, a negative number, [NaN]
    and the infinities are all rejected. *)
Theorem validateSiblingOrder_accepts_iff (siblingOrder : number) :
  PersonValidator.validateSiblingOrder siblingOrder = None
  ↔ ∃ (q : Q) (n : Z), siblingOrder = Num q ∧ (q == inject_Z n)%Q ∧ (1 ≤ n)%Z.
Proof. apply NumberFacts.validateSiblingOrder_None. Qed.

(** X7: a date that the validator accepts for the precision [year] is shown
    by the chart exactly as it is stored, whatever the language, the kind of
    date and the date parser of the runtime. *)
Theorem year_date_displayed_verbatim
    (toLocaleDateString : jsstring → jsstring → option jsstring)
    (language : I18n.Lang) (date : jsstring) (eventIdx : nat)
    (isDeathDate : bool) :
  PersonValidator.validateDateFormat date (js "year") eventIdx = Some None →
  Chart.formatDate toLocaleDateString language (Val date) isDeathDate = date.
Proof.
  unfold PersonValidator.validateDateFormat.
  rewrite decide_False by decide_by_eval.
  rewrite decide_False by decide_by_eval.
  change (PersonValidator.formats (js "year")) with (Some PersonValidator.d4).
  cbv beta iota.
  destruct (matches PersonValidator.d4 date) eqn:Hm; cbn [negb]; [|done]. intros _.
  assert (trim date = date) as Htrim.
  { apply ValidatorMore.id_format_trim.
    destruct date as [|c1 [|c2 [|c3 [|c4 [|? ?]]]]]; simpl in Hm;
      rewrite ?andb_false_r in Hm; try done.
    rewrite !andb_true_iff in Hm. destruct Hm as (H1 & H2 & H3 & H4 & _).
    unfold id_format, is_id_char. simpl.
    by rewrite H1, H2, H3, H4, !orb_true_r. }
  unfold Chart.formatDate. rewrite Htrim.
  destruct date as [|c date]; [done|].
  rewrite decide_False by done.
  change [is_digit; is_digit; is_digit; is_digit] with PersonValidator.d4.
  by rewrite Hm.
Qed.

Lemma year_date_displayed_verbatim_witness :
  Chart.formatDate (λ _ _, None) I18n.lang_vi (Val (js "1980")) true = js "1980".
Proof.
  apply (year_date_displayed_verbatim (λ _ _, None) I18n.lang_vi (js "1980") 0 true).
  vm_compute. reflexivity.
Defined.

(** ** The shape of a slug *)

Module SlugFacts.
Import IdGenerator.

Lemma spaced_nil : spaced [].
Proof. by intros i. Qed.

Lemma spaced_cons (c : N) (s : jsstring) :
  spaced (c :: s) ↔ (c = 95%N → head s ≠ Some 95%N) ∧ spaced s.
Proof.
  split.
  - intros H. split.
    + intros ->. specialize (H 0 eq_refl). by destruct s.
    + intros i Hi. apply (H (S i) Hi).
  - intros [Hc Hs] [|i]; simpl.
    + intros [= ->]. destruct s; [done|]. by apply Hc.
    + apply Hs.
Qed.

Lemma spaced_app_inv (s1 s2 : jsstring) : spaced (s1 ++ s2) → spaced s1 ∧ spaced s2.
Proof.
  intros H. split.
  - intros i Hi Hi'. apply (H i).
    + by apply lookup_app_l_Some.
    + by apply lookup_app_l_Some.
  - intros i Hi Hi'. apply (H (length s1 + i)).
    + by rewrite lookup_app_r, Nat.add_comm, Nat.add_sub by lia.
    + replace (S (length s1 + i)) with (length s1 + S i) by lia.
      by rewrite lookup_app_r, Nat.add_comm, Nat.add_sub by lia.
Qed.

Lemma spaced_reverse (s : jsstring) : spaced s → spaced (reverse s).
Proof.
  intros H i Hi Hi'.
  assert (S i < length s) as Hlt
    by (apply lookup_lt_Some in Hi'; by rewrite length_reverse in Hi').
  rewrite reverse_lookup in Hi, Hi' by lia.
  apply (H (length s - S (S i))); [done|].
  by replace (S (length s - S (S i))) with (length s - S i) by lia.
Qed.

(** Replacing the runs of a class by one underscore. *)
Lemma replace_runs_chars (cls : N → bool) (b : bool) (s : jsstring) :
  Forall (λ c, cls c = false ∨ c = 95%N) (replace_runs cls 95 b s).
Proof.
  revert b. induction s as [|c s IH]; intros b; simpl; [done|].
  destruct (cls c) eqn:E.
  - destruct b; simpl; [apply IH|]. constructor; [by right|apply IH].
  - constructor; [by left|apply IH].
Qed.

Lemma replace_runs_spaced (cls : N → bool) (b : bool) (s : jsstring) :
  cls 95%N = true →
  spaced (replace_runs cls 95 b s)
  ∧ (b = true → head (replace_runs cls 95 b s) ≠ Some 95%N).
Proof.
  intros H95. revert b. induction s as [|c s IH]; intros b; simpl.
  { split; [apply spaced_nil|done]. }
  destruct (cls c) eqn:E.
  - destruct (IH true) as [Hsp Hhd]. destruct b; simpl; [done|].
    split; [|done]. apply spaced_cons. split; [by intros _; apply Hhd|done].
  - destruct (IH false) as [Hsp _]. split.
    + apply spaced_cons. split; [|done]. intros ->. congruence.
    + intros _ [= ->]. congruence.
Qed.

Lemma strip_underscores_spec (s : jsstring) :
  spaced s →
  spaced (strip_underscores s)
  ∧ head (strip_underscores s) ≠ Some 95%N
  ∧ last (strip_underscores s) ≠ Some 95%N
  ∧ ∀ c, c ∈ strip_underscores s → c ∈ s.
Proof.
  intros Hs. unfold strip_underscores.
  set (s1 := match s with 95%N :: s' => s' | _ => s end).
  assert (spaced s1 ∧ head s1 ≠ Some 95%N ∧ ∀ c, c ∈ s1 → c ∈ s) as (Hs1 & Hh1 & Hin1).
  { subst s1. destruct s as [|c s']; [done|].
    apply spaced_cons in Hs as [Hc Hs'].
    destruct (decide (c = 95%N)) as [->|Hne].
    - split_and!; [done|by apply Hc|]. intros c ?. by right.
    - assert (match c with 95%N => s' | _ => c :: s' end = c :: s') as ->.
      { destruct c as [|p]; [done|].
        do 7 (destruct p as [p|p|]; try done). }
      split_and!; [by apply spaced_cons|by intros [= ->]|done]. }
  clearbody s1.
  destruct (reverse s1) as [|c r] eqn:Er.
  { split_and!; [done|done| |done].
    apply (f_equal reverse) in Er. rewrite reverse_involutive in Er. by subst. }
  assert (s1 = reverse r ++ [c]) as Hs1eq.
  { apply (f_equal reverse) in Er. by rewrite reverse_involutive, reverse_cons in Er. }
  destruct (decide (c = 95%N)) as [->|Hne].
  - subst s1. split_and!.
    + by apply spaced_app_inv in Hs1 as [? _].
    + destruct (reverse r) as [|x l]; [done|]. done.
    + rewrite last_reverse. intros Hr. destruct r as [|x r]; [done|].
      simpl in Hr. injection Hr as ->.
      apply spaced_reverse in Hs1.
      rewrite reverse_app in Hs1. simpl in Hs1. rewrite reverse_involutive in Hs1.
      by apply (Hs1 0).
    + intros x Hx. apply Hin1. set_solver.
  - assert (match c with 95%N => reverse r | _ => s1 end = s1) as ->.
    { destruct c as [|p]; [done|].
      do 7 (destruct p as [p|p|]; try done). }
    split_and!; [done|done| |done].
    rewrite Hs1eq, last_snoc. by intros [= ->].
Qed.

(** Every character of a slug is a lower-case letter, a digit or an
    underscore, whatever [toLowerCase] does. *)
Lemma slugify_spec (toLowerCase : jsstring → jsstring) (str : nullable jsstring) :
  let s := slugify toLowerCase str in
  Forall (λ c, is_id_char c = true) s
  ∧ head s ≠ Some 95%N ∧ last s ≠ Some 95%N ∧ spaced s.
Proof.
  unfold slugify. destruct str as [| |[|c0 s0]]; try by split_and!.
  set (lowered := toLowerCase _).
  set (s1 := replace_runs (λ c, negb (is_lower c || is_digit c)) 95 false lowered).
  set (s2 := replace_runs (is_char 95) 95 false s1).
  destruct (replace_runs_spaced (is_char 95) false s1 eq_refl) as [Hsp _].
  fold s2 in Hsp.
  destruct (strip_underscores_spec s2 Hsp) as (Hsp' & Hhd & Hlast & Hin).
  split_and!; try done.
  apply Forall_forall. intros c Hc%Hin.
  pose proof (replace_runs_chars (is_char 95) false s1) as H2.
  fold s2 in H2. rewrite Forall_forall in H2.
  destruct (H2 c Hc) as [Hne| ->]; [|done].
  assert (c ∈ s1) as Hc1.
  { clear -Hc Hne. subst s2. revert Hc. generalize false.
    induction s1 as [|x s1 IH]; intros b; simpl; [done|].
    destruct (is_char 95 x) eqn:E.
    - intros [Hx|Hx]%elem_of_app.
      + destruct b; [by apply elem_of_nil in Hx|].
        apply list_elem_of_singleton in Hx as ->. done.
      + right. by eapply IH.
    - intros [->|Hx]%elem_of_cons; [by left|]. right. by eapply IH. }
  pose proof (replace_runs_chars (λ c, negb (is_lower c || is_digit c)) false lowered)
    as H1.
  fold s1 in H1. rewrite Forall_forall in H1.
  destruct (H1 c Hc1) as [Hal| ->]; [|done].
  apply negb_false_iff in Hal. unfold is_id_char. by rewrite Hal.
Qed.

End SlugFacts.

(** X8: whatever the case conversion of the runtime does, a slug consists of
    lower-case ASCII letters, digits and underscores only; it neither starts
    nor ends with an underscore and has no two underscores in a row.  So a
    slug that is not empty has the format [validateId] asks for. *)
Theorem slugify_shape (toLowerCase : jsstring → jsstring) (str : nullable jsstring) :
  let s := IdGenerator.slugify toLowerCase str in
  Forall (λ c, is_id_char c = true) s
  ∧ head s ≠ Some 95%N
  ∧ last s ≠ Some 95%N
  ∧ (∀ i, s !! i = Some 95%N → s !! S i ≠ Some 95%N)
  ∧ (s ≠ [] → id_format s = true).
Proof.
  intros s.
  destruct (SlugFacts.slugify_spec toLowerCase str) as (Hchars & Hhd & Hlast & Hsp).
  fold s in Hchars, Hhd, Hlast, Hsp.
  split_and!; try done.
  intros Hne. unfold id_format. destruct s as [|c s']; [done|].
  apply forallb_forall. intros x Hx%list_elem_of_In.
  rewrite Forall_forall in Hchars. by apply Hchars.
Qed.

(** ** The ids generatePersonId returns *)

Module GenerateFacts.
Import IdGenerator.

(** The loop returns the first candidate that is not taken. *)
Lemma counter_loop_minimal (fuel : nat) (existingIds : gset jsstring)
    (base finalId : jsstring) (counter : N) (id : jsstring) :
  counter_loop fuel existingIds base finalId counter = Some id →
  (id ∉ existingIds)
  ∧ (id = finalId
     ∨ (finalId ∈ existingIds
        ∧ ∃ k, (counter ≤ k)%N ∧ id = candidate base k
               ∧ ∀ j, (counter ≤ j < k)%N → candidate base j ∈ existingIds)).
Proof.
  revert finalId counter.
  induction fuel as [|fuel IH]; intros finalId counter;
    rewrite IdFacts.counter_loop_unfold; case_decide as Hin; try done;
    try (intros [= <-]; split; [done|by left]).
  intros (Hnotin & Hid)%IH. split; [done|]. right. split; [done|].
  destruct Hid as [->|(Hc & k & Hk & -> & Hall)].
  - exists counter. split_and!; [lia|done|]. intros j Hj. lia.
  - exists k. split_and!; [lia|done|]. intros j Hj.
    destruct (decide (j = counter)) as [->|Hne]; [done|]. apply Hall. lia.
Qed.

Lemma pretty_N_char_digit (x : N) : is_digit (Ascii.N_of_ascii (pretty_N_char x)) = true.
Proof.
  unfold pretty_N_char.
  destruct x as [|p]; [done|]. do 4 (destruct p as [p|p|]; try done).
Qed.

Lemma pretty_N_go_digits (x : N) (s : string) :
  Forall (λ c, is_digit c = true) (js s) →
  Forall (λ c, is_digit c = true) (js (pretty_N_go x s)).
Proof.
  revert s. induction (N.lt_wf_0 x) as [x _ IH]; intros s Hs.
  destruct (decide (x = 0%N)) as [->|Hne]; [by rewrite pretty_N_go_0|].
  rewrite pretty_N_go_step by lia. apply IH.
  - apply N.div_lt; lia.
  - unfold js. simpl. constructor; [apply pretty_N_char_digit|done].
Qed.

Lemma pretty_N_digits (x : N) : Forall (λ c, is_digit c = true) (js (pretty x)).
Proof.
  unfold pretty, pretty_N. case_decide.
  - by repeat constructor.
  - apply pretty_N_go_digits. constructor.
Qed.

Lemma digit_id_char (c : N) : is_digit c = true → is_id_char c = true.
Proof. unfold is_id_char. intros ->. by rewrite orb_true_r. Qed.

Lemma join_underscore_chars (parts : list jsstring) :
  Forall (Forall (λ c, is_id_char c = true)) parts →
  Forall (λ c, is_id_char c = true) (join_underscore parts).
Proof.
  induction parts as [|x [|y parts] IH]; [done| |].
  - by intros [? _]%Forall_cons.
  - intros [Hx Hrest]%Forall_cons.
    change (join_underscore (x :: y :: parts))
      with (x ++ js "_" ++ join_underscore (y :: parts)).
    apply Forall_app. split; [done|]. apply Forall_app. split; [|by apply IH].
    by repeat constructor.
Qed.

Lemma baseId_chars (toLowerCase : jsstring → jsstring) (primary : Name.t) :
  Forall (λ c, is_id_char c = true) (baseId toLowerCase primary).
Proof.
  unfold baseId. apply join_underscore_chars.
  apply Forall_forall. intros s [Hne Hs]%list_elem_of_filter.
  repeat (apply elem_of_cons in Hs as [->|Hs]);
    try (by apply SlugFacts.slugify_spec). by apply elem_of_nil in Hs.
Qed.

Lemma candidate_chars (base : jsstring) (k : N) :
  Forall (λ c, is_id_char c = true) base →
  Forall (λ c, is_id_char c = true) (candidate base k).
Proof.
  intros Hbase. unfold candidate. apply Forall_app. split; [done|].
  apply Forall_app. split; [by repeat constructor|].
  eapply Forall_impl; [apply pretty_N_digits|]. apply digit_id_char.
Qed.

Lemma id_format_Forall (s : jsstring) :
  s ≠ [] → Forall (λ c, is_id_char c = true) s → id_format s = true.
Proof.
  intros Hne Hs. unfold id_format. destruct s as [|c s]; [done|].
  apply forallb_forall. intros x Hx%list_elem_of_In.
  rewrite Forall_forall in Hs. by apply Hs.
Qed.

(** What [generatePersonId] does for a primary name with a last and a
    first name. *)
Lemma generatePersonId_named (toLowerCase : jsstring → jsstring) (now : Z)
    (person : Person.t) (existingIds : gset jsstring) (primary : Name.t) :
  primaryName person = Some primary →
  truthy (Name.last_name primary) = true →
  truthy (Name.first_name primary) = true →
  generatePersonId toLowerCase now person existingIds
  = counter_loop (S (size existingIds)) existingIds
      (baseId toLowerCase primary) (baseId toLowerCase primary) 2.
Proof.
  intros Hprimary Hlast Hfirst. unfold generatePersonId.
  by rewrite Hprimary, Hlast, Hfirst.
Qed.

End GenerateFacts.

(** X9: for a primary name with a last and a first name, [generatePersonId]
    returns an id that is not taken, and it is the first free one in the
    sequence base, base_2, base_3, ...: either the base id itself, or
    base_k with k at least 2 where the base id and every base_j with
    2 <= j < k are taken. *)
Theorem generatePersonId_first_free (toLowerCase : jsstring → jsstring)
    (now : Z) (person : Person.t) (existingIds : gset jsstring)
    (primary : Name.t) :
  IdGenerator.primaryName person = Some primary →
  truthy (Name.last_name primary) = true →
  truthy (Name.first_name primary) = true →
  let base := baseId toLowerCase primary in
  ∃ id, IdGenerator.generatePersonId toLowerCase now person existingIds = Some id
        ∧ (id ∉ existingIds)
        ∧ ((id = base)
           ∨ (base ∈ existingIds
              ∧ ∃ k, (2 ≤ k)%N ∧ id = candidate base k
                     ∧ ∀ j, (2 ≤ j < k)%N → candidate base j ∈ existingIds)).
Proof.
  intros Hprimary Hlast Hfirst base.
  destruct (IdFacts.generatePersonId_fresh toLowerCase now person existingIds
              primary Hprimary Hlast Hfirst) as (id & Hid & _).
  exists id. split; [done|].
  rewrite (GenerateFacts.generatePersonId_named _ _ _ _ primary) in Hid by done.
  by apply GenerateFacts.counter_loop_minimal in Hid.
Qed.

Lemma generatePersonId_first_free_witness :
  let existingIds : gset jsstring := {[ js "doe_john" ]} in
  ∃ id, IdGenerator.generatePersonId IdGenerator.ascii_toLowerCase 0
          Examples.john existingIds = Some id
        ∧ id ∉ existingIds.
Proof.
  intros existingIds.
  destruct (generatePersonId_first_free IdGenerator.ascii_toLowerCase 0
              Examples.john existingIds
              (Examples.current_name (js "Doe") (js "John"))
              eq_refl eq_refl eq_refl) as (id & Hid & Hfree & _).
  exact (ex_intro _ id (conj Hid Hfree)).
Defined.

(** X10: an id that [generatePersonId] builds from a primary name with a
    last and a first name, against the ids of a roster, passes [validateId]
    as the id of a new record exactly when it is not the empty string (the
    empty string is what names without any letter or digit give). *)
Theorem generated_id_passes_validateId (toLowerCase : jsstring → jsstring)
    (now : Z) (allPeople : list Person.t) (person : Person.t)
    (primary : Name.t) (id : jsstring) :
  IdGenerator.primaryName person = Some primary →
  truthy (Name.last_name primary) = true →
  truthy (Name.first_name primary) = true →
  IdGenerator.generatePersonId toLowerCase now person
    (PersonValidator.existingIds allPeople) = Some id →
  PersonValidator.validateId allPeople id Null = [] ↔ id ≠ [].
Proof.
  intros Hprimary Hlast Hfirst Hid.
  rewrite (GenerateFacts.generatePersonId_named _ _ _ _ primary) in Hid by done.
  apply GenerateFacts.counter_loop_minimal in Hid as (Hfree & Hshape).
  split; [by intros H ->|]. intros Hne.
  apply ValidatorMore.validateId_format_fresh; [|by right].
  apply GenerateFacts.id_format_Forall; [done|].
  destruct Hshape as [->|(_ & k & _ & -> & _)].
  - apply GenerateFacts.baseId_chars.
  - apply GenerateFacts.candidate_chars, GenerateFacts.baseId_chars.
Qed.

Lemma generated_id_passes_validateId_witness :
  PersonValidator.validateId [Examples.john] (js "doe_john") Null = [].
Proof.
  apply (generated_id_passes_validateId IdGenerator.ascii_toLowerCase 0
           [Examples.john] Examples.john
           (Examples.current_name (js "Doe") (js "John")) (js "doe_john")
           eq_refl eq_refl eq_refl).
  - vm_compute. reflexivity.
  - discriminate.
Defined.

(** The empty id does occur: a name written without Latin letters or digits
    has empty slugs, and the id generated for it is rejected. *)
Example generatePersonId_without_latin_letters :
  let name :=
    Name.mk Undefined (Val [26126%N]) Undefined (Val [26446%N]) Undefined
      (Val true) in
  let person :=
    Person.mk [] (Val [name]) Undefined Undefined Undefined Undefined Undefined
      Undefined Undefined Undefined Undefined Undefined Undefined Undefined
      Undefined Undefined Undefined Undefined in
  IdGenerator.generatePersonId IdGenerator.ascii_toLowerCase 0 person ∅ = Some []
  ∧ PersonValidator.validateId [] [] Null ≠ [].
Proof. split; [vm_compute; reflexivity | discriminate]. Qed.

(** ** Renaming references twice, or not at all *)

Module RenameFacts.
Import IdGenerator.













End RenameFacts.





(** ** The graph toFamilyChartData derives *)

Module GraphFacts.
Import Adapter.

Lemma filter_Boolean_elem (s : jsstring) (l : list (nullable jsstring)) :
  s ∈ filter_Boolean l ↔ s ≠ [] ∧ Val s ∈ l.
Proof.
  unfold filter_Boolean. rewrite list_elem_of_omap. split.
  - intros (v & Hv & Hs). destruct v as [| |[|c r]]; try done.
    injection Hs as <-. done.
  - intros [Hne Hin]. exists (Val s). split; [done|]. by destruct s.
Qed.

Lemma set_elements_from_spec (seen l : list jsstring) :
  NoDup (set_elements_from seen l)
  ∧ ∀ x, x ∈ set_elements_from seen l ↔ x ∈ l ∧ x ∉ seen.
Proof.
  revert seen. induction l as [|y l IH]; intros seen; simpl.
  { split; [apply NoDup_nil_2|]. intros x. rewrite elem_of_nil. tauto. }
  case_decide as Hy.
  - destruct (IH seen) as [Hnd Hin]. split; [done|].
    intros x. rewrite Hin, elem_of_cons. naive_solver.
  - destruct (IH (y :: seen)) as [Hnd Hin]. split.
    + apply NoDup_cons. split; [|done]. rewrite Hin, elem_of_cons. tauto.
    + intros x. rewrite !elem_of_cons, Hin, elem_of_cons.
      destruct (decide (x = y)) as [->|]; naive_solver.
Qed.

Lemma set_elements_spec (l : list jsstring) :
  NoDup (set_elements l) ∧ ∀ x, x ∈ set_elements l ↔ x ∈ l.
Proof.
  destruct (set_elements_from_spec [] l) as [Hnd Hin]. split; [done|].
  intros x. unfold set_elements. rewrite Hin, elem_of_nil. tauto.
Qed.

Lemma children_of_elem (people : list Person.t) (k c : jsstring) :
  c ∈ children_of people k
  ↔ ∃ Q, Q ∈ people ∧ Person.id Q = c ∧ k ∈ Person.parentIds Q.
Proof.
  unfold children_of. rewrite list_elem_of_bind. split.
  - intros (Q & (x & -> & [-> Hx]%list_elem_of_filter)%list_elem_of_fmap & HQ).
    by exists Q.
  - intros (Q & HQ & <- & Hk). exists Q. split; [|done].
    apply list_elem_of_fmap. exists k. split; [done|]. by apply list_elem_of_filter.
Qed.

Lemma toFamilyChartData_elem (people : list Person.t) (n : Node.t) :
  n ∈ toFamilyChartData people
  ↔ ∃ P, P ∈ people ∧ n = toNode (buildChildrenByParent people) P.
Proof.
  unfold toFamilyChartData. destruct people as [|p people].
  - split; [by intros ?%elem_of_nil | by intros (? & ?%elem_of_nil & _)].
  - rewrite list_elem_of_fmap. naive_solver.
Qed.

Lemma toFamilyChartData_ids (people : list Person.t) :
  Node.id <$> toFamilyChartData people = Person.id <$> people.
Proof.
  unfold toFamilyChartData. destruct people as [|p people]; [done|].
  rewrite <- list_fmap_compose. done.
Qed.

Lemma toNode_children (people : list Person.t) (P : Person.t) (c : jsstring) :
  c ∈ Node.children (Node.rels (toNode (buildChildrenByParent people) P))
  ↔ ∃ Q, Q ∈ people ∧ Person.id Q = c ∧ Person.id P ∈ Person.parentIds Q.
Proof.
  unfold toNode. cbn [Node.rels Node.children].
  by rewrite AdapterFacts.buildChildrenByParent_lookup, children_of_elem.
Qed.

Lemma toNode_spouses (m : gmap jsstring (list jsstring)) (P : Person.t)
    (s : jsstring) :
  s ∈ Node.spouses (Node.rels (toNode m P))
  ↔ s ≠ [] ∧ ∃ unions u, Person.unions P = Val unions ∧ u ∈ unions
                         ∧ Union.spouse_id u = Val s.
Proof.
  unfold toNode. cbn [Node.rels Node.spouses].
  destruct (Person.unions P) as [| |unions].
  - rewrite elem_of_nil. split; [done|]. by intros (_ & ? & ? & [=] & _).
  - rewrite elem_of_nil. split; [done|]. by intros (_ & ? & ? & [=] & _).
  - destruct (set_elements_spec (filter_Boolean (Union.spouse_id <$> unions)))
      as [_ ->].
    rewrite filter_Boolean_elem, list_elem_of_fmap. split.
    + intros (Hne & u & Hu & Hin). split; [done|]. by exists unions, u.
    + intros (Hne & us & u & [= <-] & Hin & Hu). split; [done|]. by exists u.
Qed.

Lemma missing_nil (idSet : gset jsstring) (personId : jsstring) (kind : string)
    (refs : list jsstring) :
  missing idSet personId kind refs = [] ↔ ∀ r, r ∈ refs → r ∈ idSet.
Proof.
  unfold missing. split.
  - intros Hnil%fmap_nil_inv r Hr. destruct (decide (r ∈ idSet)) as [|Hno]; [done|].
    assert (r ∈ filter (λ refId, refId ∉ idSet) refs) as Hin
      by (by apply list_elem_of_filter).
    rewrite Hnil in Hin. by apply elem_of_nil in Hin.
  - intros Hall.
    assert (filter (λ refId, refId ∉ idSet) refs = []) as ->; [|done].
    apply elem_of_nil_inv. intros r [Hno Hr]%list_elem_of_filter.
    by apply Hno, Hall.
Qed.

(** When the relationship check accepts a derived graph. *)
Lemma derived_graph_valid (people : list Person.t) :
  Adapter.validateRelationships (Adapter.toFamilyChartData people) = []
  ↔ ∀ P, P ∈ people →
      (∀ x, x ∈ Person.parentIds P → x ∈ Person.id <$> people)
      ∧ (∀ unions u s, Person.unions P = Val unions → u ∈ unions →
                       Union.spouse_id u = Val s → s ≠ [] →
                       s ∈ Person.id <$> people)
      ∧ (truthy (Person.gender P) = true →
         includes [js "M"; js "F"; js "U"] (Person.gender P) = true).
Proof.
  unfold Adapter.validateRelationships.
  rewrite GraphFacts.toFamilyChartData_ids.
  set (idSet := list_to_set (Person.id <$> people) : gset jsstring).
  assert (∀ x, x ∈ idSet ↔ x ∈ Person.id <$> people) as HidSet
    by (intros x; apply elem_of_list_to_set).
  assert (∀ P, P ∈ people →
            Adapter.nodeErrors idSet
              (Adapter.toNode (Adapter.buildChildrenByParent people) P) = []
            ↔ (∀ x, x ∈ Person.parentIds P → x ∈ Person.id <$> people)
              ∧ (∀ unions u s, Person.unions P = Val unions → u ∈ unions →
                               Union.spouse_id u = Val s → s ≠ [] →
                               s ∈ Person.id <$> people)
              ∧ (truthy (Person.gender P) = true →
                 includes [js "M"; js "F"; js "U"] (Person.gender P) = true))
    as Hnode.
  { intros P HP. unfold Adapter.nodeErrors.
    rewrite !app_nil, !GraphFacts.missing_nil.
    assert (∀ r, r ∈ Node.children (Node.rels
                   (Adapter.toNode (Adapter.buildChildrenByParent people) P)) →
                 r ∈ idSet) as Hchildren.
    { intros r (Q & HQ & <- & _)%GraphFacts.toNode_children.
      apply HidSet. by apply list_elem_of_fmap_2. }
    assert (Adapter.genderErrors
              (Adapter.toNode (Adapter.buildChildrenByParent people) P) = []
            ↔ (truthy (Person.gender P) = true →
               includes [js "M"; js "F"; js "U"] (Person.gender P) = true))
      as Hgender.
    { unfold Adapter.genderErrors, Adapter.toNode.
      cbn [Node.data Node.gender Node.id].
      destruct (Person.gender P) as [| |[|c g]]; cbn [or_string truthy];
        try (split; [done|intros _; reflexivity]).
      cbn [includes].
      destruct (bool_decide (c :: g ∈ [js "M"; js "F"; js "U"])); cbn [negb].
      - done.
      - split; [done|]. intros H. by specialize (H eq_refl). }
    rewrite Hgender. split.
    - intros (Hpar & Hsp & _ & Hg). split_and!; [|  |done].
      + intros x Hx. by apply HidSet, Hpar.
      + intros unions u s Hu Hin Hs Hne. apply HidSet, Hsp.
        apply GraphFacts.toNode_spouses. split; [done|]. by exists unions, u.
    - intros (Hpar & Hsp & Hg). split_and!; [| |done|done].
      + intros x Hx. by apply HidSet, Hpar.
      + intros s (Hne & unions & u & Hu & Hin & Hs)%GraphFacts.toNode_spouses.
        apply HidSet. by eapply Hsp. }
  split.
  - intros Hnil P HP. apply Hnode; [done|].
    assert (Adapter.toNode (Adapter.buildChildrenByParent people) P
            ∈ Adapter.toFamilyChartData people) as Hin
      by (apply GraphFacts.toFamilyChartData_elem; by exists P).
    destruct (Adapter.nodeErrors idSet
                (Adapter.toNode (Adapter.buildChildrenByParent people) P))
      as [|e es] eqn:E; [done|]. exfalso.
    assert (e ∈ concat (Adapter.nodeErrors idSet <$> Adapter.toFamilyChartData people))
      as He.
    { apply list_elem_of_In, in_concat. eexists. split.
      - apply list_elem_of_In, list_elem_of_fmap_2, Hin.
      - rewrite E. by left. }
    rewrite Hnil in He. by apply elem_of_nil in He.
  - intros Hall. apply elem_of_nil_inv. intros e He.
    apply list_elem_of_In, in_concat in He as (errs & Herrs & He).
    apply list_elem_of_In, list_elem_of_fmap in Herrs as (n & -> & Hn).
    apply GraphFacts.toFamilyChartData_elem in Hn as (P & HP & ->).
    rewrite (proj2 (Hnode P HP) (Hall P HP)) in He. done.
Qed.

End GraphFacts.

(** X13: the derived graph is symmetric between parents and children: a
    node lists [c] among its children exactly when some node with id [c]
    lists it among its parents.  The nodes come in roster order with the
    ids of the records. *)
Theorem children_mirror_parents (people : list Person.t) (n : Node.t)
    (c : jsstring) :
  n ∈ Adapter.toFamilyChartData people →
  Node.id <$> Adapter.toFamilyChartData people = Person.id <$> people
  ∧ (c ∈ Node.children (Node.rels n)
     ↔ ∃ m, m ∈ Adapter.toFamilyChartData people
            ∧ Node.id m = c
            ∧ Node.id n ∈ Node.parents (Node.rels m)).
Proof.
  intros (P & HP & ->)%GraphFacts.toFamilyChartData_elem.
  split; [apply GraphFacts.toFamilyChartData_ids|].
  rewrite GraphFacts.toNode_children. split.
  - intros (Q & HQ & Hid & Hpar).
    exists (Adapter.toNode (Adapter.buildChildrenByParent people) Q).
    split_and!; [|done|done].
    apply GraphFacts.toFamilyChartData_elem. by exists Q.
  - intros (m & (Q & HQ & ->)%GraphFacts.toFamilyChartData_elem & Hid & Hpar).
    by exists Q.
Qed.

Lemma children_mirror_parents_witness :
  js "p2" ∈ Node.children (Node.rels
              (Adapter.toNode (Adapter.buildChildrenByParent Examples.p1_p2)
                 (bare_person (js "p1") Null Null))).
Proof.
  assert (Adapter.toNode (Adapter.buildChildrenByParent Examples.p1_p2)
            (bare_person (js "p1") Null Null)
          ∈ Adapter.toFamilyChartData Examples.p1_p2) as Hin by (by left).
  apply (proj2 (children_mirror_parents Examples.p1_p2 _ (js "p2") Hin)).
  exists (Adapter.toNode (Adapter.buildChildrenByParent Examples.p1_p2)
            (bare_person (js "p2") (Val (js "p1")) Null)).
  split_and!; [by right; left|done|by left].
Defined.

(** X14: the spouses of a derived node are pairwise distinct, and they are
    exactly the non-empty [spouse_id]s of the record's unions. *)
Theorem spouses_distinct (childrenByParent : gmap jsstring (list jsstring))
    (person : Person.t) :
  let spouses := Node.spouses (Node.rels (Adapter.toNode childrenByParent person)) in
  NoDup spouses
  ∧ ∀ s, s ∈ spouses
         ↔ s ≠ [] ∧ ∃ unions u, Person.unions person = Val unions ∧ u ∈ unions
                                ∧ Union.spouse_id u = Val s.
Proof.
  intros spouses. split; [|intros s; apply GraphFacts.toNode_spouses].
  subst spouses. unfold Adapter.toNode. cbn [Node.rels Node.spouses].
  destruct (Person.unions person); try apply NoDup_nil_2.
  apply GraphFacts.set_elements_spec.
Qed.

(** X15: the relationship check finds nothing wrong with the graph derived
    from a roster exactly when, in every record, the non-empty parent and
    spouse references are ids of the roster and the gender is absent, empty
    or one of M, F, U.  A missing child is never reported for a derived
    graph. *)
Theorem derived_graph_valid_iff (people : list Person.t) :
  Adapter.validateRelationships (Adapter.toFamilyChartData people) = []
  ↔ ∀ P, P ∈ people →
      (∀ x, x ∈ Person.parentIds P → x ∈ Person.id <$> people)
      ∧ (∀ unions u s, Person.unions P = Val unions → u ∈ unions →
                       Union.spouse_id u = Val s → s ≠ [] →
                       s ∈ Person.id <$> people)
      ∧ (truthy (Person.gender P) = true →
         includes [js "M"; js "F"; js "U"] (Person.gender P) = true).
Proof. apply GraphFacts.derived_graph_valid. Qed.

(** ** What a card shows *)

Module CardFacts.
Import Adapter.

Lemma replace_runs_keep (cls : N → bool) (k : N) (b : bool) (a r : jsstring) :
  Forall (λ c, cls c = false) a → a ≠ [] →
  replace_runs cls k b (a ++ r) = a ++ replace_runs cls k false r.
Proof.
  intros Ha Hne. revert b. induction Ha as [|c a Hc Ha IH]; intros b; [done|].
  simpl. rewrite Hc. f_equal. destruct a as [|c' a']; [done|]. by apply IH.
Qed.

Lemma drop_spaces_keep (a r : jsstring) :
  Forall (λ c, is_space c = false) a → a ≠ [] → drop_spaces (a ++ r) = a ++ r.
Proof. intros Ha Hne. destruct Ha as [|c a Hc Ha]; [done|]. simpl. by rewrite Hc. Qed.

(** A text between two words without white space is not trimmed. *)
Lemma trim_between (a mid b : jsstring) :
  Forall (λ c, is_space c = false) a → a ≠ [] →
  Forall (λ c, is_space c = false) b → b ≠ [] →
  trim (a ++ mid ++ b) = a ++ mid ++ b.
Proof.
  intros Ha Hane Hb Hbne. unfold trim. rewrite drop_spaces_keep by done.
  rewrite (assoc (++) a), reverse_app.
  rewrite drop_spaces_keep;
    [|by apply Forall_reverse|by intros ?%(f_equal length); rewrite length_reverse in *; destruct b].
  by rewrite <- reverse_app, reverse_involutive, <- (assoc (++)).
Qed.



End CardFacts.

(** X16: when the current name of a record has no display name and no
    [middle_name] field, the display name the adapter builds reads
    last name, the word [undefined], first name (for a last and a first name
    without white space); and that is the name line of the record's card
    when it has no nicknames. *)
Theorem getDisplayName_absent_middle_name (person : Person.t) (n : Name.t)
    (ns : list Name.t) (last first : jsstring) :
  Person.names person = Val (n :: ns) →
  let current := Adapter.currentName n ns in
  truthy (Name.display_name current) = false →
  Name.middle_name current = Undefined →
  Name.last_name current = Val last →
  Name.first_name current = Val first →
  last ≠ [] → first ≠ [] →
  Forall (λ c, is_space c = false) last →
  Forall (λ c, is_space c = false) first →
  Adapter.getDisplayName person = last ++ js " undefined " ++ first
  ∧ ∀ childrenByParent,
      or_empty (Person.nicknames person) = [] →
      Card.nameLine (Adapter.toNode childrenByParent person)
      = last ++ js " undefined " ++ first.
Proof.
  intros Hnames current Hdisplay Hmiddle Hlast Hfirst Hl Hf Hls Hfs.
  assert (Adapter.getDisplayName person = last ++ js " undefined " ++ first)
    as Hname; [|split; [done|]; intros childrenByParent Hnick;
                unfold Card.nameLine, Adapter.toNode;
                cbn [Node.data Node.display_name Node.nicknames];
                rewrite Hname, Hnick; by destruct last].
  unfold Adapter.getDisplayName. rewrite Hnames. fold current.
  rewrite Hmiddle, Hlast, Hfirst. cbn [to_string].
  assert (or_string (Name.display_name current)
            (replace_runs is_space 32 false
               (trim (last ++ js " " ++ js "undefined" ++ js " " ++ first)))
          = replace_runs is_space 32 false
              (trim (last ++ js " " ++ js "undefined" ++ js " " ++ first))) as ->
    by (by destruct (Name.display_name current) as [| |[|? ?]]).
  change (last ++ js " " ++ js "undefined" ++ js " " ++ first)
    with (last ++ js " undefined " ++ first).
  rewrite CardFacts.trim_between by done.
  rewrite CardFacts.replace_runs_keep by done.
  f_equal.
  change (js " undefined " ++ first)
    with (32%N :: (js "undefined" ++ 32%N :: first)).
  change (replace_runs is_space 32 false (32%N :: (js "undefined" ++ 32%N :: first)))
    with (32%N :: replace_runs is_space 32 true (js "undefined" ++ 32%N :: first)).
  rewrite CardFacts.replace_runs_keep by (by repeat constructor).
  change (replace_runs is_space 32 false (32%N :: first))
    with (32%N :: replace_runs is_space 32 true first).
  rewrite <- (app_nil_r first) at 1.
  rewrite CardFacts.replace_runs_keep by done.
  by rewrite app_nil_r.
Qed.

Lemma getDisplayName_absent_middle_name_witness :
  Adapter.getDisplayName Examples.john = js "Doe undefined John".
Proof.
  refine (proj1 (getDisplayName_absent_middle_name Examples.john
                   (Examples.current_name (js "Doe") (js "John")) []
                   (js "Doe") (js "John") _ _ _ _ _ _ _ _ _));
    try reflexivity; try discriminate; by repeat constructor.
Defined.





(** ** From accepted records to an accepted graph *)

Module AcceptedFacts.
Import PersonValidator.




End AcceptedFacts.



(** ** The two versions of the adapter *)

Module LegacyFacts.

Lemma toNode_same_graph (m : gmap jsstring (list jsstring)) (p : Legacy.person) :
  Legacy.same_graph (Legacy.toNode m p) (Adapter.toNode m (Legacy.fields p)).
Proof. done. Qed.


Lemma toFamilyChartData_map (people : list Person.t) :
  Adapter.toFamilyChartData people
  = Adapter.toNode (Adapter.buildChildrenByParent people) <$> people.
Proof. by destruct people. Qed.

Lemma legacy_toFamilyChartData_map (people : list Legacy.person) :
  Legacy.toFamilyChartData people
  = Legacy.toNode (Adapter.buildChildrenByParent (Legacy.fields <$> people))
      <$> people.
Proof. by destruct people. Qed.

Lemma toFamilyChartData_Forall2 (R : Legacy.t → Node.t → Prop)
    (people : list Legacy.person) :
  (∀ m p, p ∈ people → R (Legacy.toNode m p) (Adapter.toNode m (Legacy.fields p))) →
  Forall2 R (Legacy.toFamilyChartData people)
    (Adapter.toFamilyChartData (Legacy.fields <$> people)).
Proof.
  intros HR. rewrite toFamilyChartData_map, legacy_toFamilyChartData_map.
  generalize (Adapter.buildChildrenByParent (Legacy.fields <$> people)).
  intros m. rewrite <- list_fmap_compose. apply Forall2_fmap_2.
  apply (Forall_Forall2_diag
           (λ x1 x2, R (Legacy.toNode m x1) ((Adapter.toNode m ∘ Legacy.fields) x2))).
  apply Forall_forall. intros q Hq. by apply HR.
Qed.

Lemma concat_nil_Forall {A} (l : list (list A)) :
  concat l = [] ↔ Forall (λ x, x = []) l.
Proof.
  induction l as [|x l IH]; simpl; [done|].
  rewrite app_nil, Forall_cons, IH. done.
Qed.

Lemma nodeErrors_same_graph (idSet : gset jsstring) (old : Legacy.t) (new : Node.t) :
  Legacy.same_graph old new →
  Legacy.nodeErrors idSet old = []
  ↔ Adapter.nodeErrors idSet new = [] ∧ Node.gender (Node.data new) ≠ js "U".
Proof.
  intros (Hid & Hrels & Hgender).
  unfold Legacy.nodeErrors, Adapter.nodeErrors, Legacy.genderErrors,
    Adapter.genderErrors.
  rewrite Hid, Hrels, Hgender, !app_nil.
  set (g := Node.gender (Node.data new)). cbn [includes].
  destruct (decide (g = js "U")) as [->|HU].
  - split; [|by intros [_ ?]]. by intros (_ & _ & _ & ?).
  - assert (bool_decide (g ∈ [js "M"; js "F"; js "U"])
            = bool_decide (g ∈ [js "M"; js "F"])) as ->.
    { apply bool_decide_ext. rewrite !elem_of_cons, !elem_of_nil. naive_solver. }
    naive_solver.
Qed.

Lemma Forall2_same_graph_ids (olds : list Legacy.t) (news : list Node.t) :
  Forall2 Legacy.same_graph olds news → Legacy.id <$> olds = Node.id <$> news.
Proof.
  induction 1 as [|old new olds news (Hid & _) _ IH]; [done|].
  by rewrite !fmap_cons, Hid, IH.
Qed.

Lemma Forall2_nodeErrors (idSet : gset jsstring) (olds : list Legacy.t)
    (news : list Node.t) :
  Forall2 Legacy.same_graph olds news →
  Forall (λ old, Legacy.nodeErrors idSet old = []) olds
  ↔ Forall (λ new, Adapter.nodeErrors idSet new = []
                   ∧ Node.gender (Node.data new) ≠ js "U") news.
Proof.
  induction 1 as [|old new olds news Hon _ IH]; [done|].
  by rewrite !Forall_cons, IH, (nodeErrors_same_graph idSet old new Hon).
Qed.

End LegacyFacts.


(** X21: the earlier relationship check accepts the graph of a roster
    exactly when the present one accepts it and no node has the gender U:
    the present check reports nothing the earlier one did not. *)
Theorem validateRelationships_versions (people : list Legacy.person) :
  Legacy.validateRelationships (Legacy.toFamilyChartData people) = []
  ↔ Adapter.validateRelationships
      (Adapter.toFamilyChartData (Legacy.fields <$> people)) = []
    ∧ ∀ n, n ∈ Adapter.toFamilyChartData (Legacy.fields <$> people) →
           Node.gender (Node.data n) ≠ js "U".
Proof.
  pose proof (LegacyFacts.toFamilyChartData_Forall2 Legacy.same_graph people
                (λ m p _, LegacyFacts.toNode_same_graph m p)) as Hsame.
  unfold Legacy.validateRelationships, Adapter.validateRelationships.
  rewrite (LegacyFacts.Forall2_same_graph_ids _ _ Hsame).
  set (idSet := list_to_set _ : gset jsstring).
  clearbody idSet.
  rewrite !LegacyFacts.concat_nil_Forall, !Forall_fmap.
  unfold compose. rewrite (LegacyFacts.Forall2_nodeErrors idSet _ _ Hsame).
  by rewrite Forall_and, (Forall_forall (λ n, Node.gender (Node.data n) ≠ js "U")).
Qed.


(** ** What an accepted record satisfies *)



(** ** The translations are complete *)

(** X23: the three dictionaries define the same keys, and for every key of
    the dictionaries and every language [t] returns the non-empty text the
    dictionary of that language has for the key: it never falls back to the
    key itself for lack of a translation. *)
Theorem translations_complete (language : I18n.Lang) (key : string) :
  (fst <$> I18n.dictionary language) = (fst <$> I18n.translations.en)
  ∧ (key ∈ fst <$> I18n.translations.en →
     I18n.t language key ≠ []
     ∧ (key, I18n.t language key) ∈ I18n.dictionary language).
Proof.
  split; [by destruct language; vm_compute|].
  intros Hin. cbv [I18n.translations.en fmap list_fmap fst] in Hin.
  destruct language;
    repeat (apply elem_of_cons in Hin as [->|Hin]);
    try (by apply elem_of_nil in Hin);
    (split; [vm_compute; discriminate | decide_by_eval]).
Qed.

Lemma translations_complete_witness :
  I18n.t I18n.lang_fr "living" ≠ [].
Proof.
  refine (proj1 (proj2 (translations_complete I18n.lang_fr "living") _)).
  decide_by_eval.
Defined.

(** ** A slug is its own slug *)

Module SlugAgain.
Import IdGenerator.

Lemma id_char_bound (c : N) : is_id_char c = true → (c ≤ 122)%N.
Proof.
  unfold is_id_char, is_lower, is_digit, is_char.
  rewrite !orb_true_iff, !andb_true_iff, !N.leb_le, N.eqb_eq. lia.
Qed.

Lemma diacritics_keys : Forall (λ e, Forall (λ k, (224 ≤ k)%N) e.2) diacritics.
Proof. decide_by_eval. Qed.

Lemma diacritics_get_id_char (c : N) :
  is_id_char c = true → diacritics_get [c] = None.
Proof.
  intros Hc%id_char_bound. unfold diacritics_get.
  destruct (find _ diacritics) as [e|] eqn:E; [|done]. exfalso.
  apply find_some in E as [He%list_elem_of_In Hin%bool_decide_eq_true].
  pose proof diacritics_keys as Hkeys. rewrite Forall_forall in Hkeys.
  specialize (Hkeys e He). rewrite Forall_forall in Hkeys.
  specialize (Hkeys c Hin). lia.
Qed.

Lemma replace_runs_fixed (cls : N → bool) (b : bool) (s : jsstring) :
  Forall (λ c, cls c = true → c = 95%N) s →
  spaced s →
  (b = true → head s ≠ Some 95%N) →
  replace_runs cls 95 b s = s.
Proof.
  intros Hs. revert b. induction Hs as [|c s Hc Hs IH]; intros b Hsp Hb; [done|].
  apply SlugFacts.spaced_cons in Hsp as [Hnext Hsp]. simpl.
  destruct (cls c) eqn:E.
  - specialize (Hc eq_refl) as ->.
    destruct b; [by exfalso; apply Hb|]. simpl. f_equal.
    apply IH; [done|]. intros _. by apply Hnext.
  - f_equal. by apply IH.
Qed.

Lemma strip_underscores_fixed (s : jsstring) :
  head s ≠ Some 95%N → last s ≠ Some 95%N → strip_underscores s = s.
Proof.
  intros Hh Hl. unfold strip_underscores.
  assert (match s with 95%N :: s' => s' | _ => s end = s) as ->.
  { destruct s as [|c s']; [done|]. destruct c as [|p]; [done|].
    do 7 (destruct p as [p|p|]; try done). }
  destruct (reverse s) as [|c r] eqn:Er; [done|].
  assert (c ≠ 95%N) as Hc.
  { intros ->. apply Hl. rewrite <- (reverse_involutive s), Er, reverse_cons.
    by rewrite last_snoc. }
  destruct c as [|p]; [done|]. do 7 (destruct p as [p|p|]; try done).
Qed.

Lemma slugify_fixed (toLowerCase : jsstring → jsstring) (s : jsstring) :
  (∀ x, Forall (λ c, is_id_char c = true) x → toLowerCase x = x) →
  Forall (λ c, is_id_char c = true) s →
  head s ≠ Some 95%N → last s ≠ Some 95%N → spaced s →
  slugify toLowerCase (Val s) = s.
Proof.
  intros Hlower Hchars Hh Hl Hsp. unfold slugify.
  destruct s as [|c0 s0]; [done|]. set (s := c0 :: s0) in *.
  assert (removeDiacritics toLowerCase s = s) as ->.
  { unfold removeDiacritics. rewrite <- (list_fmap_id s) at 2.
    apply Forall_fmap_ext. eapply Forall_impl; [exact Hchars|].
    intros c Hc. simpl. rewrite (Hlower [c]) by (by constructor).
    by rewrite diacritics_get_id_char. }
  rewrite Hlower by done.
  rewrite (replace_runs_fixed (λ c, negb (is_lower c || is_digit c))); try done.
  - rewrite (replace_runs_fixed (is_char 95)); try done.
    + by apply strip_underscores_fixed.
    + apply Forall_forall. intros c _ Hc. by apply N.eqb_eq in Hc.
  - eapply Forall_impl; [exact Hchars|]. intros c Hc Hn.
    apply negb_true_iff in Hn. unfold is_id_char in Hc. rewrite Hn in Hc.
    by apply N.eqb_eq in Hc.
Qed.

Lemma ascii_toLowerCase_id_chars (x : jsstring) :
  Forall (λ c, is_id_char c = true) x → ascii_toLowerCase x = x.
Proof.
  intros Hx. unfold ascii_toLowerCase. rewrite <- (list_fmap_id x) at 2.
  apply Forall_fmap_ext. eapply Forall_impl; [exact Hx|].
  intros c Hc. simpl.
  assert (((65 <=? c) && (c <=? 90))%N = false) as ->; [|done].
  revert Hc. unfold is_id_char, is_lower, is_digit, is_char.
  rewrite !orb_true_iff, !andb_true_iff, andb_false_iff, !N.leb_le, N.eqb_eq,
    !N.leb_gt. lia.
Qed.

End SlugAgain.

(** X24: with a case conversion that leaves lower-case letters, digits and
    underscores alone, slugifying a slug gives the slug back. *)
Theorem slugify_idempotent (toLowerCase : jsstring → jsstring)
    (str : nullable jsstring) :
  (∀ x, Forall (λ c, is_id_char c = true) x → toLowerCase x = x) →
  IdGenerator.slugify toLowerCase (Val (IdGenerator.slugify toLowerCase str))
  = IdGenerator.slugify toLowerCase str.
Proof.
  intros Hlower.
  destruct (SlugFacts.slugify_spec toLowerCase str) as (Hchars & Hh & Hl & Hsp).
  by apply SlugAgain.slugify_fixed.
Qed.

Lemma slugify_idempotent_witness :
  IdGenerator.slugify IdGenerator.ascii_toLowerCase
    (Val (IdGenerator.slugify IdGenerator.ascii_toLowerCase (Val (js "Van der Berg"))))
  = IdGenerator.slugify IdGenerator.ascii_toLowerCase (Val (js "Van der Berg")).
Proof.
  apply (slugify_idempotent IdGenerator.ascii_toLowerCase (Val (js "Van der Berg"))).
  apply SlugAgain.ascii_toLowerCase_id_chars.
Defined.

(** ** What the derived nodes share with the records *)

Module ShareFacts.
Import Heap Frame FrameFacts.

Lemma bind_run {A B} (m : M A) (f : A → M B) (h : gmap loc cell) (b : B)
    (h' : gmap loc cell) :
  (m ≫= f) h = (Some b, h') →
  ∃ a h1, m h = (Some a, h1) ∧ f a h1 = (Some b, h').
Proof.
  unfold mbind, M_bind. destruct (m h) as [[a|] h1]; [|done]. intros H.
  by exists a, h1.
Qed.

(** A computation that keeps every heap it may start from only adds cells. *)
Lemma run_grows {A} (m : M A) (h : gmap loc cell) (a : A) (h1 : gmap loc cell) :
  (∀ h0, keeps h0 m (λ _, True)) → m h = (Some a, h1) → h ⊆ h1.
Proof.
  intros Hkeeps Hrun. destruct (Hkeeps h h (reflexivity h)) as [Hsub _].
  by rewrite Hrun in Hsub.
Qed.

Lemma get_run (v : value) (k : string) (h : gmap loc cell) (a : value)
    (h1 : gmap loc cell) :
  get v k h = (Some a, h1) → h1 = h.
Proof.
  destruct v; simpl; try (by intros [= _ <-]); try done.
  unfold mbind, M_bind, read. destruct (h !! l); [|done]. by intros [= _ <-].
Qed.

(** A property read from a heap is read from every larger heap. *)
Lemma get_mono (v : value) (k : string) (h h1 : gmap loc cell) (u : value) :
  h ⊆ h1 → (get v k h).1 = Some u → get v k h1 = (Some u, h1).
Proof.
  intros Hsub. destruct v; simpl; try (by intros [= <-]); try done.
  unfold mbind, M_bind, read. destruct (h !! l) as [c|] eqn:E; [|done].
  rewrite (lookup_weaken _ _ _ _ E Hsub). by intros [= <-].
Qed.

Lemma alloc_run (c : cell) (h : gmap loc cell) (l : loc) (h1 : gmap loc cell) :
  alloc c h = (Some l, h1) → h !! l = None ∧ h1 = <[l := c]> h.
Proof.
  unfold alloc. intros [= <- <-]. split; [|done].
  apply not_elem_of_dom, is_fresh.
Qed.

Lemma or_new_array_truthy (v : value) (h : gmap loc cell) (a : value)
    (h1 : gmap loc cell) :
  truthy_v v = true → or_new_array v h = (Some a, h1) → a = v ∧ h1 = h.
Proof. unfold or_new_array. intros ->. by intros [= <- <-]. Qed.

Ltac keeps_node :=
  intros ?;
  repeat first
    [ apply HeapFacts.getDisplayName_keeps | apply HeapFacts.vitalData_keeps
    | apply HeapFacts.name_field_keeps | apply HeapFacts.or_new_array_keeps
    | keeps_step | done | by eexists ].

Ltac chain :=
  lazymatch goal with
  | |- ?x ⊆ ?x => reflexivity
  | |- ?x ⊆ ?z =>
      multimatch goal with
      | H : ?y ⊆ z |- _ => transitivity y; [chain | exact H]
      end
  end.

Ltac run_step H :=
  let a := fresh "a" in
  let h1 := fresh "h" in
  let Hm := fresh "Hm" in
  let Hsub := fresh "Hsub" in
  apply bind_run in H as (a & h1 & Hm & H);
  lazymatch type of Hm with
  | ?m ?hp = _ =>
      assert (hp ⊆ h1) as Hsub by (apply (run_grows m hp a h1); [keeps_node|exact Hm])
  end.

Section Share.
Context (to_string : gmap loc cell → value → jsstring).

Lemma toNode_shares (childrenByParent : list (value * loc)) (person : value)
    (h0 h : gmap loc cell) (node : value) (h' : gmap loc cell) (k : string)
    (u : value) :
  k ∈ ["unions"; "nicknames"; "other_first_names"]%string →
  h0 ⊆ h →
  toNode to_string childrenByParent person h = (Some node, h') →
  (get person k h0).1 = Some u → truthy_v u = true →
  h ⊆ h'
  ∧ ∃ data, (get node "data" h').1 = Some data ∧ (get data k h').1 = Some u.
Proof.
  intros Hk Hh0 Hrun Hu Htruthy. unfold toNode in Hrun.
  repeat run_step Hrun.
  injection Hrun as <- <-.
  assert (∀ x, h ⊆ x → h0 ⊆ x) as Hfrom by (intros x ?; by etrans).
  (* the value read for [k] is the one of the starting heap *)
  assert (∀ hp hq v, h ⊆ hp → get person k hp = (Some v, hq) → v = u) as Hread.
  { intros hp hq v Hp Hget.
    rewrite (get_mono person k h0 hp u (Hfrom _ Hp) Hu) in Hget. congruence. }
  split; [chain|].
  apply alloc_run in Hm27 as [_ ->]. apply alloc_run in Hm30 as [_ ->].
  exists (VRef a27). split.
  { cbn [get]. unfold mbind, M_bind, read. by rewrite lookup_insert_eq. }
  assert (∀ v, (get (VRef a27) k (<[a27 := Obj (list_to_map
            [("gender", v_or a9 (VStr (js "M"))); ("display_name", a10);
             ("first_name", a11); ("middle_name", a12); ("last_name", a13);
             ("other_first_names", a15); ("nicknames", a17);
             ("birth_date", a18); ("birth_place", a19); ("death_date", a20);
             ("death_place", a21); ("vital_status", v_or a22 VNull);
             ("unions", a24); ("biography", v_nullish a25 (VStr []));
             ("sibling_order", v_nullish a26 VNull)])]> h28)).1 = Some v →
               (get (VRef a27) k (<[a30 := Obj (list_to_map
                  [("id", a28); ("data", VRef a27); ("rels", VRef a29)])]> h31)).1
               = Some v) as Hlift.
  { intros v Hv. erewrite get_mono; [done| |exact Hv]. chain. }
  apply Hlift. cbn [get]. unfold mbind, M_bind, read. rewrite lookup_insert_eq.
  cbn [fst mret M_ret].
  repeat (apply elem_of_cons in Hk as [->|Hk]); [| | |by apply elem_of_nil in Hk].
  - assert (a23 = u) as -> by (eapply (Hread h24); [chain|exact Hm23]).
    by apply or_new_array_truthy in Hm24 as [-> _].
  - assert (a16 = u) as -> by (eapply (Hread h17); [chain|exact Hm16]).
    by apply or_new_array_truthy in Hm17 as [-> _].
  - assert (a14 = u) as -> by (eapply (Hread h15); [chain|exact Hm14]).
    by apply or_new_array_truthy in Hm15 as [-> _].
Qed.

Lemma shares_mono (h0 h1 h2 : gmap loc cell) (k : string) (p n : value) :
  h1 ⊆ h2 → shares h0 h1 k p n → shares h0 h2 k p n.
Proof.
  intros Hsub Hp u Hu Ht. destruct (Hp u Hu Ht) as (data & Hd & Hk).
  exists data. split.
  - by rewrite (get_mono _ _ _ _ _ Hsub Hd).
  - by rewrite (get_mono _ _ _ _ _ Hsub Hk).
Qed.

Lemma map_each_shares (childrenByParent : list (value * loc)) (ps : list value)
    (h0 h : gmap loc cell) (nodes : list value) (h' : gmap loc cell) (k : string) :
  k ∈ ["unions"; "nicknames"; "other_first_names"]%string →
  h0 ⊆ h →
  map_each (toNode to_string childrenByParent) ps h = (Some nodes, h') →
  h ⊆ h' ∧ Forall2 (shares h0 h' k) ps nodes.
Proof.
  intros Hk. revert h nodes h'.
  induction ps as [|p ps IH]; intros h nodes h' Hh0 Hrun; simpl in Hrun.
  { injection Hrun as <- <-. split; [done|constructor]. }
  apply bind_run in Hrun as (n & h1 & Hn & Hrun).
  apply bind_run in Hrun as (ns & h2 & Hns & Hrun).
  injection Hrun as <- <-.
  assert (h ⊆ h1) as Hsub1.
  { apply (run_grows _ _ _ _ (λ h0, keeps_weaken h0 _ _ _
             (HeapFacts.toNode_keeps h0 to_string childrenByParent p)
             (λ _ _, I)) Hn). }
  assert (shares h0 h1 k p n) as Hshare
    by (intros u Hu Ht;
        by destruct (toNode_shares childrenByParent p h0 h n h1 k u Hk Hh0 Hn
                       Hu Ht)).
  destruct (IH h1 ns h2) as [Hsub2 Hrest]; [by etrans|done|].
  split; [by etrans|]. constructor; [|done]. by eapply shares_mono.
Qed.

Lemma elements_run (v : value) (h : gmap loc cell) (ps : list value) :
  (elements v h).1 = Some ps →
  ∃ l, v = VRef l ∧ h !! l = Some (Arr ps).
Proof.
  destruct v; try done. simpl. unfold mbind, M_bind, read.
  destruct (h !! l) as [[| |]|] eqn:E; try done. intros [= <-]. by exists l.
Qed.

Lemma toFamilyChartData_shares (people : value) (h : gmap loc cell)
    (out : value) (h' : gmap loc cell) (ps : list value) (k : string) :
  k ∈ ["unions"; "nicknames"; "other_first_names"]%string →
  toFamilyChartData to_string people h = (Some out, h') →
  (elements people h).1 = Some ps →
  ∃ nodes, (elements out h').1 = Some nodes ∧ Forall2 (shares h h' k) ps nodes.
Proof.
  intros Hk Hrun (l & -> & Hl)%elements_run. unfold toFamilyChartData in Hrun.
  apply bind_run in Hrun as (is_array & h1 & Harr & Hrun).
  simpl in Harr. unfold mbind, M_bind, read in Harr. rewrite Hl in Harr.
  injection Harr as <- <-.
  apply bind_run in Hrun as (ps' & h1 & Hps & Hrun).
  simpl in Hps. unfold mbind, M_bind, read in Hps. rewrite Hl in Hps.
  injection Hps as <- <-.
  destruct ps as [|p ps].
  { apply bind_run in Hrun as (l' & h1 & [_ ->]%alloc_run & Hrun).
    injection Hrun as <- <-. exists []. split; [|constructor].
    simpl. unfold mbind, M_bind, read. by rewrite lookup_insert_eq. }
  apply bind_run in Hrun as (childrenByParent & h1 & Hindex & Hrun).
  apply bind_run in Hrun as (nodes & h2 & Hnodes & Hrun).
  apply bind_run in Hrun as (l' & h3 & [Hfresh ->]%alloc_run & Hrun).
  injection Hrun as <- <-.
  assert (h ⊆ h1) as Hsub1.
  { apply (run_grows _ _ _ _ (λ h0, keeps_weaken h0 _ _ _
             (keeps_fold_each h0 _ (new_entries h0) _ _
                (λ s x Hs, HeapFacts.index_person_keeps h0 s x Hs)
                (Forall_nil_2 _))
             (λ _ _, I)) Hindex). }
  destruct (map_each_shares childrenByParent (p :: ps) h h1 nodes h2 k Hk Hsub1
              Hnodes) as [Hsub2 Hshares].
  exists nodes. split.
  - simpl. unfold mbind, M_bind, read. by rewrite lookup_insert_eq.
  - eapply Forall2_impl; [exact Hshares|]. intros p' n'.
    apply shares_mono. by apply insert_subseteq.
Qed.

End Share.

End ShareFacts.

(** X25: the nodes [toFamilyChartData] returns share arrays with the records
    they are derived from: when [unions], [nicknames] or [other_first_names]
    of a record is truthy, the [data] object of its node holds that very
    value under the same name - for an array the same reference, not a
    copy. *)
Theorem derived_nodes_share_arrays
    (to_string : gmap Heap.loc Heap.cell → Heap.value → jsstring)
    (people : Heap.value) (h : gmap Heap.loc Heap.cell) (out : Heap.value)
    (h' : gmap Heap.loc Heap.cell) (ps : list Heap.value) (k : string) :
  k ∈ ["unions"; "nicknames"; "other_first_names"]%string →
  Heap.toFamilyChartData to_string people h = (Some out, h') →
  (Heap.elements people h).1 = Some ps →
  ∃ nodes, (Heap.elements out h').1 = Some nodes
           ∧ Forall2 (shares h h' k) ps nodes.
Proof. apply ShareFacts.toFamilyChartData_shares. Qed.

Lemma derived_nodes_share_arrays_witness :
  ∃ out h' nodes,
    Heap.toFamilyChartData HeapExamples.no_to_string HeapExamples.roster
      HeapExamples.roster_heap = (Some out, h')
    ∧ (Heap.elements out h').1 = Some nodes
    ∧ Forall2 (shares HeapExamples.roster_heap h' "unions")
        [Heap.VRef 2%positive; Heap.VRef 3%positive] nodes.
Proof.
  destruct (Heap.toFamilyChartData HeapExamples.no_to_string HeapExamples.roster
              HeapExamples.roster_heap) as [[out|] h'] eqn:E.
  - destruct (derived_nodes_share_arrays HeapExamples.no_to_string
                HeapExamples.roster HeapExamples.roster_heap out h'
                [Heap.VRef 2%positive; Heap.VRef 3%positive] "unions")
      as (nodes & Hnodes & Hshares).
    + by left.
    + exact E.
    + vm_compute. reflexivity.
    + exists out, h', nodes. split_and!; [reflexivity|exact Hnodes|exact Hshares].
  - exfalso. vm_compute in E. discriminate E.
Defined.

(** ** What the updated records share with the roster *)

Module CopyFacts.
Import Heap Frame FrameFacts ShareFacts.

Lemma set_prop_run (l : loc) (key : string) (v : value) (h : gmap loc cell)
    (a : unit) (h1 : gmap loc cell) :
  set_prop l key v h = (Some a, h1) →
  ∃ f, h !! l = Some (Obj f) ∧ h1 = <[l := Obj (<[key := v]> f)]> h.
Proof.
  unfold set_prop, mbind, M_bind, read, write.
  destruct (h !! l) as [[f| |]|] eqn:E; try done.
  rewrite E. intros [= _ <-]. by exists f.
Qed.

Lemma isArray_run (v : value) (h : gmap loc cell) (a : bool) (h1 : gmap loc cell) :
  isArray v h = (Some a, h1) → h1 = h.
Proof.
  destruct v; simpl; try (by intros [= _ <-]).
  unfold mbind, M_bind, read. destruct (h !! l); [|done]. by intros [= _ <-].
Qed.

Lemma elements_heap (v : value) (h : gmap loc cell) (a : list value)
    (h1 : gmap loc cell) :
  elements v h = (Some a, h1) → h1 = h.
Proof.
  destruct v; simpl; try done.
  unfold mbind, M_bind, read. destruct (h !! l) as [[| |]|]; try done.
  by intros [= _ <-].
Qed.

Section Copy.
Context (h0 : gmap loc cell) (k : string) (u : option value).

Local Abbreviation building := (building h0).

Lemma building_grows (updated : loc) (h h1 : gmap loc cell) :
  building updated k u h → h ⊆ h1 → building updated k u h1.
Proof.
  intros (Hsub & Hnew & f & Hf & Hk) Hgrow. split_and!; [by etrans|done|].
  exists f. split; [|done]. by eapply lookup_weaken.
Qed.

Lemma building_set_prop (updated : loc) (key : string) (v : value)
    (h : gmap loc cell) (a : unit) (h1 : gmap loc cell) :
  key ≠ k → building updated k u h →
  set_prop updated key v h = (Some a, h1) → building updated k u h1.
Proof.
  intros Hkey (Hsub & Hnew & f & Hf & Hk) (f' & Hf' & ->)%set_prop_run.
  rewrite Hf in Hf'. injection Hf' as <-. split_and!; [|done|].
  - by apply insert_subseteq_r.
  - exists (<[key := v]> f). split; [by rewrite lookup_insert_eq|].
    by rewrite lookup_insert_ne.
Qed.

Lemma updateUnion_grows (oldId newId union : value) (h : gmap loc cell)
    (a : value) (h1 : gmap loc cell) :
  updateUnion oldId newId union h = (Some a, h1) → h ⊆ h1.
Proof.
  apply run_grows. intros h'. eapply keeps_weaken;
    [apply HeapFacts.updateUnion_keeps|done].
Qed.

Lemma map_each_grows {A B} (f : A → M B) (l : list A) (h : gmap loc cell)
    (ys : list B) (h1 : gmap loc cell) :
  (∀ x h y h1, f x h = (Some y, h1) → h ⊆ h1) →
  map_each f l h = (Some ys, h1) → h ⊆ h1.
Proof.
  intros Hf. revert h ys h1. induction l as [|x l IH]; intros h ys h1 Hrun;
    simpl in Hrun.
  { by injection Hrun as <- <-. }
  apply bind_run in Hrun as (y & h2 & Hy & Hrun).
  apply bind_run in Hrun as (ys' & h3 & Hys & Hrun).
  injection Hrun as <- <-. etrans; [by eapply Hf|by eapply IH].
Qed.

Lemma updatePerson_copies (oldId newId : value) (l : loc)
    (fields : gmap string value) (h : gmap loc cell) (p' : value)
    (h' : gmap loc cell) :
  k ∉ ["father_id"; "mother_id"; "unions"]%string →
  h0 ⊆ h → h0 !! l = Some (Obj fields) → u = fields !! k →
  updatePerson oldId newId (VRef l) h = (Some p', h') →
  h0 ⊆ h' ∧ (get p' k h').1 = Some (default VUndefined u).
Proof.
  intros Hk Hsub Hl Hu Hrun. unfold updatePerson in Hrun.
  assert (k ≠ "father_id" ∧ k ≠ "mother_id" ∧ k ≠ "unions")%string
    as (Hk1 & Hk2 & Hk3) by (rewrite !not_elem_of_cons in Hk; tauto).
  apply bind_run in Hrun as (copy & h1 & Hcopy & Hrun).
  simpl in Hcopy. unfold mbind, M_bind, read in Hcopy.
  rewrite (lookup_weaken _ _ _ _ Hl Hsub) in Hcopy. injection Hcopy as <- <-.
  apply bind_run in Hrun as (upd & h1 & [Hfresh ->]%alloc_run & Hrun).
  assert (building upd k u (<[upd := Obj fields]> h)) as Hb.
  { split_and!.
    - by apply insert_subseteq_r; [eapply lookup_weaken_None|].
    - by eapply lookup_weaken_None.
    - exists fields. by rewrite lookup_insert_eq. }
  revert Hb Hrun. generalize (<[upd := Obj fields]> h). clear h Hsub Hfresh.
  intros h Hb Hrun.
  assert (∀ (b : bool) key v h a h1,
            key ≠ k → building upd k u h →
            (if b then set_prop upd key v else mret ()) h = (Some a, h1) →
            building upd k u h1) as Hcond.
  { intros [] key v hx a hy Hkey Hbx Hx.
    - by eapply building_set_prop.
    - by injection Hx as _ <-. }
  apply bind_run in Hrun as (father_id & h1 & ->%get_run & Hrun).
  apply bind_run in Hrun as (? & h1 & Hb1%Hcond & Hrun); [|done..].
  apply bind_run in Hrun as (mother_id & h2 & ->%get_run & Hrun).
  apply bind_run in Hrun as (? & h2 & Hb2%Hcond & Hrun); [|done..].
  apply bind_run in Hrun as (unions & h3 & ->%get_run & Hrun).
  apply bind_run in Hrun as (is_array & h3 & ->%isArray_run & Hrun).
  apply bind_run in Hrun as (? & h3 & Hunions & Hrun).
  injection Hrun as <- <-.
  assert (building upd k u h3) as (Hsub3 & _ & f & Hf & Hfk).
  { destruct is_array; [|by injection Hunions as _ <-].
    apply bind_run in Hunions as (us & h4 & ->%elements_heap & Hunions).
    apply bind_run in Hunions as (us' & h4 & Hus & Hunions).
    apply bind_run in Hunions as (arr & h5 & [Hfresh ->]%alloc_run & Hunions).
    eapply building_set_prop; [|  |exact Hunions]; [done|].
    eapply building_grows; [exact Hb2|].
    etrans; [|by apply insert_subseteq].
    eapply map_each_grows; [|exact Hus]. intros ? ? ? ?. apply updateUnion_grows. }
  split; [done|].
  simpl. unfold mbind, M_bind, read. rewrite Hf. simpl. by rewrite Hfk.
Qed.

End Copy.

Lemma copies_grows (h0 h1 h2 : gmap loc cell) (k : string) (p p' : value) :
  h1 ⊆ h2 → copies h0 h1 k p p' → copies h0 h2 k p p'.
Proof.
  intros Hsub Hp l fields -> Hl. specialize (Hp l fields eq_refl Hl).
  destruct (get (VRef l) k h0).1 as [v|] eqn:E.
  - by rewrite (get_mono _ _ _ _ _ Hsub Hp).
  - simpl in E. unfold mbind, M_bind, read in E. by rewrite Hl in E.
Qed.

Lemma updatePerson_grows (oldId newId person : value) (h : gmap loc cell)
    (a : value) (h1 : gmap loc cell) :
  updatePerson oldId newId person h = (Some a, h1) → h ⊆ h1.
Proof.
  apply run_grows. intros h'. eapply keeps_weaken;
    [apply HeapFacts.updatePerson_keeps|done].
Qed.

Lemma map_each_copies (oldId newId : value) (ps : list value)
    (h0 h : gmap loc cell) (ps' : list value) (h' : gmap loc cell) (k : string) :
  k ∉ ["father_id"; "mother_id"; "unions"]%string →
  h0 ⊆ h →
  map_each (updatePerson oldId newId) ps h = (Some ps', h') →
  h ⊆ h' ∧ Forall2 (copies h0 h' k) ps ps'.
Proof.
  intros Hk. revert h ps' h'.
  induction ps as [|p ps IH]; intros h ps' h' Hh0 Hrun; simpl in Hrun.
  { injection Hrun as <- <-. split; [done|constructor]. }
  apply bind_run in Hrun as (p' & h1 & Hp & Hrun).
  apply bind_run in Hrun as (ps1 & h2 & Hps & Hrun).
  injection Hrun as <- <-.
  pose proof (updatePerson_grows _ _ _ _ _ _ Hp) as Hsub1.
  destruct (IH h1 ps1 h2) as [Hsub2 Hrest]; [by etrans|done|].
  split; [by etrans|]. constructor; [|done].
  apply (copies_grows h0 h1 h2); [done|].
  intros l fields -> Hl.
  destruct (updatePerson_copies h0 k (fields !! k) oldId newId l fields h p' h1
              Hk Hh0 Hl eq_refl Hp) as [_ ->].
  simpl. unfold mbind, M_bind, read. by rewrite Hl.
Qed.

Lemma updateIdReferences_copies (allPeople oldId newId : value)
    (h : gmap loc cell) (out : value) (h' : gmap loc cell) (ps : list value)
    (k : string) :
  k ∉ ["father_id"; "mother_id"; "unions"]%string →
  updateIdReferences allPeople oldId newId h = (Some out, h') →
  (elements allPeople h).1 = Some ps →
  ∃ ps', (elements out h').1 = Some ps' ∧ Forall2 (copies h h' k) ps ps'.
Proof.
  intros Hk Hrun (l & -> & Hl)%elements_run. unfold updateIdReferences in Hrun.
  apply bind_run in Hrun as (ps0 & h1 & Hps & Hrun).
  simpl in Hps. unfold mbind, M_bind, read in Hps. rewrite Hl in Hps.
  injection Hps as <- <-.
  apply bind_run in Hrun as (ps' & h1 & Hmap & Hrun).
  apply bind_run in Hrun as (result & h2 & [Hfresh ->]%alloc_run & Hrun).
  injection Hrun as <- <-.
  destruct (map_each_copies oldId newId ps h h ps' h1 k Hk (reflexivity h) Hmap)
    as [_ Hcopies].
  exists ps'. split.
  - simpl. unfold mbind, M_bind, read. by rewrite lookup_insert_eq.
  - eapply Forall2_impl; [exact Hcopies|]. intros p p'.
    apply copies_grows. by apply insert_subseteq.
Qed.

End CopyFacts.

(** X26: [updateIdReferences] copies records one level deep: apart from
    [father_id], [mother_id] and [unions], every property of an updated
    record holds the very value the record of the roster has for it - an
    array such as [names] or [events] is shared with the roster, not
    copied. *)
Theorem updated_records_share_properties (allPeople oldId newId : Heap.value)
    (h : gmap Heap.loc Heap.cell) (out : Heap.value)
    (h' : gmap Heap.loc Heap.cell) (ps : list Heap.value) (k : string) :
  k ∉ ["father_id"; "mother_id"; "unions"]%string →
  Heap.updateIdReferences allPeople oldId newId h = (Some out, h') →
  (Heap.elements allPeople h).1 = Some ps →
  ∃ ps', (Heap.elements out h').1 = Some ps' ∧ Forall2 (copies h h' k) ps ps'.
Proof. apply CopyFacts.updateIdReferences_copies. Qed.

Lemma updated_records_share_properties_witness :
  ∃ out h' ps',
    Heap.updateIdReferences HeapExamples.roster (Heap.VStr (js "p1"))
      (Heap.VStr (js "p9")) HeapExamples.roster_heap = (Some out, h')
    ∧ (Heap.elements out h').1 = Some ps'
    ∧ Forall2 (copies HeapExamples.roster_heap h' "id")
        [Heap.VRef 2%positive; Heap.VRef 3%positive] ps'.
Proof.
  destruct (Heap.updateIdReferences HeapExamples.roster (Heap.VStr (js "p1"))
              (Heap.VStr (js "p9")) HeapExamples.roster_heap)
    as [[out|] h'] eqn:E.
  - destruct (updated_records_share_properties HeapExamples.roster
                (Heap.VStr (js "p1")) (Heap.VStr (js "p9"))
                HeapExamples.roster_heap out h'
                [Heap.VRef 2%positive; Heap.VRef 3%positive] "id")
      as (ps' & Hps' & Hcopies).
    + decide_by_eval.
    + exact E.
    + vm_compute. reflexivity.
    + exists out, h', ps'. split_and!; [reflexivity|exact Hps'|exact Hcopies].
  - exfalso. vm_compute in E. discriminate E.
Defined.

(** ** No cycle among the ancestors of an accepted candidate *)

Module OrderFacts.
Import PersonValidator ParentGraph.

Section Order.
Context (allPeople : list Person.t) (personId : jsstring)
        (fatherId motherId : nullable jsstring).

Local Abbreviation pushed := (ParentGraph.pushed allPeople).
Local Abbreviation frontier := (filter_Boolean [fatherId; motherId]).
Local Abbreviation walk_inv := (walk_inv allPeople personId frontier).
Local Abbreviation walk_ordered := (walk_ordered allPeople).

Lemma walk_ordered_step (w w' : walk) (tr rest : list jsstring) (c : jsstring) :
  walk_ordered w tr →
  toCheck w = rest ++ [c] → toCheck w' = rest ++ pushed c →
  walk_ordered w' (tr ++ [c]).
Proof.
  intros Hord Ht Ht' i x y Hi Hy. rewrite Ht'.
  destruct (decide (i < length tr)) as [Hlt|Hge].
  - rewrite lookup_app_l in Hi by done.
    destruct (Hord i x y Hi Hy) as [Hin|(j & Hij & Hj)].
    + rewrite Ht in Hin. apply elem_of_app in Hin as [Hin|Hin].
      * left. apply elem_of_app. by left.
      * apply list_elem_of_singleton in Hin as ->. right.
        exists (length tr). split; [done|].
        by rewrite lookup_app_r, Nat.sub_diag by lia.
    + right. exists j. split; [done|]. by apply lookup_app_l_Some.
  - rewrite lookup_app_r in Hi by lia.
    apply list_lookup_singleton_Some in Hi as [_ <-].
    left. apply elem_of_app. by right.
Qed.

(** A walk that returns [null] has expanded every reachable id once, and
    each of them before the ids it refers to. *)
Lemma walk_loop_ordered (fuel : nat) (w : walk) (tr : list jsstring) :
  walk_inv w tr → walk_ordered w tr →
  walk_loop fuel allPeople w = Some None →
  ∃ tr', NoDup tr'
         ∧ (∀ x, reachable allPeople frontier x → x ∈ tr')
         ∧ ∀ i x y, tr' !! i = Some x → parent_edge allPeople x y →
                    ∃ j, i < j ∧ tr' !! j = Some y.
Proof.
  revert w tr. induction fuel as [|fuel IH]; intros w tr Hinv Hord; [done|].
  simpl. destruct (walk_step allPeople w) as [r'|w'] eqn:E.
  - intros [= ->].
    apply WalkFacts.walk_step_Return in E as [[_ Hempty]|[[=] _]].
    destruct Hinv as (Hv & Hnd & Hpid & Hperm & Hreach).
    rewrite Hempty, app_nil_r in Hperm.
    exists tr. split_and!; [done| |].
    + by apply (TreeFacts.tree_closed allPeople fatherId motherId).
    + intros i x y Hi Hxy%WalkFacts.pushed_edge.
      destruct (Hord i x y Hi Hxy) as [Hin|?]; [|done].
      rewrite Hempty in Hin. by apply elem_of_nil in Hin.
  - intros Hloop.
    destruct (TreeFacts.walk_inv_step allPeople personId fatherId motherId
                _ _ _ Hinv E) as (c & rest & Ht & Ht' & Hinv').
    apply (IH w' (tr ++ [c])); [done| |done].
    by eapply walk_ordered_step.
Qed.

Lemma ordered_no_cycle (tr : list jsstring) :
  NoDup tr →
  (∀ i x y, tr !! i = Some x → parent_edge allPeople x y →
            ∃ j, i < j ∧ tr !! j = Some y) →
  ∀ x, x ∈ tr → ¬ on_cycle allPeople x.
Proof.
  intros Hnd Hord x [i Hi]%list_elem_of_lookup Hcycle.
  assert (∀ a b, tc (parent_edge allPeople) a b →
                 ∀ i, tr !! i = Some a → ∃ j, i < j ∧ tr !! j = Some b) as Htc.
  { induction 1 as [a b Hab|a b c Hab _ IH]; intros i' Ha.
    - by eapply Hord.
    - destruct (Hord i' a b Ha Hab) as (j & Hij & Hj).
      destruct (IH j Hj) as (j' & Hjj' & Hj'). exists j'. split; [lia|done]. }
  destruct (Htc x x Hcycle i Hi) as (j & Hij & Hj).
  pose proof (NoDup_lookup tr i j x Hnd Hi Hj). lia.
Qed.

End Order.
End OrderFacts.

(** X27: when [checkCircularParents] returns [null], no id that can be
    reached from the candidate's parent references lies on a cycle of
    parent references: a cycle among the ancestors is reported even when the
    candidate itself is not part of it. *)
Theorem checkCircularParents_null_acyclic (allPeople : list Person.t)
    (personId : jsstring) (fatherId motherId : nullable jsstring) (x : jsstring) :
  PersonValidator.checkCircularParents allPeople personId fatherId motherId = None →
  ParentGraph.reachable allPeople (filter_Boolean [fatherId; motherId]) x →
  ¬ ParentGraph.on_cycle allPeople x.
Proof.
  intros Hnone Hx.
  pose proof (WalkFacts.checkCircularParents_returns allPeople personId
                fatherId motherId) as Hret.
  rewrite Hnone in Hret.
  assert (walk_ordered allPeople
            (PersonValidator.walk_init personId fatherId motherId) []) as Hord0.
  { intros i x' y Hi. by rewrite lookup_nil in Hi. }
  destruct (OrderFacts.walk_loop_ordered allPeople personId fatherId motherId
              _ _ [] (TreeFacts.walk_inv_init allPeople personId fatherId motherId)
              Hord0 Hret) as (tr & Hnd & Hall & Hord).
  apply (OrderFacts.ordered_no_cycle allPeople tr Hnd Hord). by apply Hall.
Qed.

Lemma checkCircularParents_null_acyclic_witness :
  ¬ ParentGraph.on_cycle Examples.p1_p2 (js "p1").
Proof.
  apply (checkCircularParents_null_acyclic Examples.p1_p2 (js "p2")
           (Val (js "p1")) Null (js "p1")).
  - vm_compute. reflexivity.
  - exists (js "p1"). split; [by left|constructor].
Defined.
